(** * dockstring.utils: a shallow embedding and its verified properties

    The module [dockstring/utils.py] is glue around a cheminformatics
    toolkit (RDKit), the Python regular-expression engine and two command
    line tools.  This development embeds

    - the two text parsers ([parse_scores_from_output],
      [parse_search_box_conf]) on top of a backtracking regular-expression
      matcher that follows the semantics of Python's [re] for the operators
      the two patterns use;
    - the molecule checks and the force-field refinement, as programs in a
      state-and-exception monad over a heap of molecule objects, the
      toolkit's log switches and a trace of the toolkit calls made.

    A text is a Rocq string, each character a code point below 256.  The
    parsers take the characters of their file as stored and read them as
    Python's text mode does, every line end turned into a newline.  The
    toolkit is an interface ([RDKit]) whose operations are parameters of
    the development. *)

From Stdlib Require Import Ascii String List Arith Lia Sorted.
From stdpp Require Import gmap strings list fin_maps pretty.
Import ListNotations.

Set Default Proof Using "Type".
#[local] Set Warnings "-clear-no-such-hyp".
Open Scope string_scope.

(** ** Python exceptions raised or caught by the module *)

Inductive exn :=
| DockingError (msg : string)          (* class DockingError(Exception) *)
| KekulizeException (msg : string)     (* Chem.rdchem.KekulizeException *)
| AssertionError                       (* a failed [assert] *)
| OtherException (name : string).      (* anything else the toolkit raises *)

(** ** Regular expressions with the semantics of Python's [re] *)

Module Re.

Local Open Scope nat_scope.

Definition newline : ascii := "010"%char.

(** Character classes.  A character is a code point below 256.  [\s] of a
    [str] pattern is [str.isspace]: tab, LF, VT, FF, CR, the separators
    0x1c-0x1f, the blank, NEL (0x85) and the no-break space (0xa0).  [\w] is
    the underscore and what [str.isalnum] accepts: the ASCII letters and
    digits, the Latin-1 letters, the superscript digits and the vulgar
    fractions.  [[0-9]] is the ten ASCII digits. *)
Definition between (lo hi n : nat) : bool := (lo <=? n) && (n <=? hi).

Definition is_space (c : ascii) : bool :=
  let n := nat_of_ascii c in
  between 9 13 n || between 28 32 n || (n =? 133) || (n =? 160).

Definition is_digit (c : ascii) : bool := between 48 57 (nat_of_ascii c).

Definition is_word (c : ascii) : bool :=
  let n := nat_of_ascii c in
  is_digit c || between 65 90 n || between 97 122 n || (n =? 95)
  || (n =? 170) || (n =? 178) || (n =? 179) || (n =? 181) || (n =? 185)
  || (n =? 186) || between 188 190 n
  || between 192 214 n || between 216 246 n || between 248 255 n.

Definition is_sign (c : ascii) : bool :=
  Ascii.eqb c "-" || Ascii.eqb c "+".

Inductive regex :=
| Eps
| Lit (c : ascii)
| Class (p : ascii -> bool)
| Cat (r1 r2 : regex)
| Opt (r : regex)                         (* r?  greedy *)
| Star (r : regex)                        (* r*  greedy *)
| Group (name : option string) (r : regex)  (* (r) and (?P<name>r) *)
| Bol                                     (* ^ *)
| Eol.                                    (* $ *)

(** r+ *)
Definition Plus (r : regex) : regex := Cat r (Star r).

(** A literal piece of pattern text. *)
Fixpoint Str (s : list ascii) : regex :=
  match s with
  | [] => Eps
  | c :: s' => Cat (Lit c) (Str s')
  end.

(** One capture: the group's name, where it starts in the subject and
    the text it matched. *)
Record capture := { cap_name : option string; cap_start : nat; cap_text : list ascii }.

(** The matcher's state: the current position in the subject, the text
    from there on, and the captures made so far (latest first). *)
Record mstate := { pos : nat; remaining : list ascii; captures : list capture }.

Definition advance (st : mstate) (tl : list ascii) : mstate :=
  {| pos := S (pos st); remaining := tl; captures := captures st |}.

Definition add_capture (name : option string) (st st' : mstate) : mstate :=
  {| pos := pos st'; remaining := remaining st';
     captures := {| cap_name := name; cap_start := pos st;
                    cap_text := firstn (pos st' - pos st) (remaining st) |}
                 :: captures st' |}.

Definition cont := mstate -> option mstate.

Definition step (p : ascii -> bool) (st : mstate) (k : cont) : option mstate :=
  match remaining st with
  | c :: tl => if p c then k (advance st tl) else None
  | [] => None
  end.

(** Greedy repetition: try one more round of [body], and only when every
    way of going on from there fails, leave the loop.  A round that
    consumes nothing is not repeated. *)
Fixpoint star_loop (body : mstate -> cont -> option mstate) (fuel : nat)
         (st : mstate) (k : cont) : option mstate :=
  match fuel with
  | 0 => k st
  | S n =>
      match body st (fun st' =>
               if length (remaining st') <? length (remaining st)
               then star_loop body n st' k else None) with
      | Some res => Some res
      | None => k st
      end
  end.

(** Backtracking matcher in continuation-passing style: [rmatch r st k]
    is the first success, in the engine's priority order, of matching [r]
    at [st] and then the rest of the pattern [k]. *)
Fixpoint rmatch (r : regex) (st : mstate) (k : cont) {struct r} : option mstate :=
  match r with
  | Eps => k st
  | Lit c => step (Ascii.eqb c) st k
  | Class p => step p st k
  | Cat r1 r2 => rmatch r1 st (fun st' => rmatch r2 st' k)
  | Opt r1 =>
      match rmatch r1 st k with
      | Some res => Some res
      | None => k st
      end
  | Star r1 => star_loop (rmatch r1) (S (length (remaining st))) st k
  | Group name r1 => rmatch r1 st (fun st' => k (add_capture name st st'))
  | Bol => if pos st =? 0 then k st else None
  | Eol =>
      match remaining st with
      | [] => k st
      | [c] => if Ascii.eqb c newline then k st else None
      | _ => None
      end
  end.

(** A match object: its span and its captures. *)
Record match_obj := { m_start : nat; m_end : nat; m_captures : list capture }.

Definition start_state (p : nat) (s : list ascii) : mstate :=
  {| pos := p; remaining := s; captures := [] |}.

(** The top-level continuation; [must_advance] refuses an empty match. *)
Definition accept (must_advance : bool) (start : nat) : cont :=
  fun st => if must_advance && (pos st =? start) then None else Some st.

Definition match_at (r : regex) (must_advance : bool) (p : nat) (s : list ascii)
  : option mstate :=
  rmatch r (start_state p s) (accept must_advance p).

Definition to_match (start : nat) (st : mstate) : match_obj :=
  {| m_start := start; m_end := pos st; m_captures := captures st |}.

(** [pattern.match(string)]: a match anchored at the start of the string. *)
Definition re_match (r : regex) (s : string) : option match_obj :=
  to_match 0 <$> match_at r false 0 (list_ascii_of_string s).

(** [match.group(name)]: the text of the latest capture of that name. *)
Fixpoint find_capture (name : string) (cs : list capture) : option (list ascii) :=
  match cs with
  | [] => None
  | c :: cs' =>
      if decide (cap_name c = Some name) then Some (cap_text c)
      else find_capture name cs'
  end.

Definition group (name : string) (m : match_obj) : string :=
  match find_capture name (m_captures m) with
  | Some t => string_of_list_ascii t
  | None => ""
  end.

(** [pattern.finditer(string)]: scan from the left; after a match go on
    from its end, and after an empty match demand that the next match
    at that place is not empty; where nothing matches move one
    character on. *)
Fixpoint finditer_from (r : regex) (fuel : nat) (must_advance : bool)
         (p : nat) (s : list ascii) : list match_obj :=
  match fuel with
  | 0 => []
  | S n =>
      match match_at r must_advance p s with
      | Some st =>
          to_match p st
            :: finditer_from r n (pos st =? p) (pos st) (remaining st)
      | None =>
          match s with
          | [] => []
          | _ :: tl => finditer_from r n false (S p) tl
          end
      end
  end.

Definition finditer (r : regex) (s : string) : list match_obj :=
  let l := list_ascii_of_string s in
  finditer_from r (2 * length l + 2) false 0 l.

End Re.

Import Re.

(** ** The module's patterns *)

(** real_number_pattern = r'[-+]?[0-9]*\.?[0-9]+(e[-+]?[0-9]+)?' *)
Definition real_number_pattern : regex :=
  Cat (Opt (Class is_sign))
   (Cat (Star (Class is_digit))
    (Cat (Opt (Lit "."))
     (Cat (Plus (Class is_digit))
          (Opt (Group None
                  (Cat (Lit "e")
                   (Cat (Opt (Class is_sign)) (Plus (Class is_digit))))))))).

Definition results_marker : list ascii := list_ascii_of_string "REMARK VINA RESULT:".

(** score_re = re.compile(rf'REMARK VINA RESULT:\s*(?P<score>{real_number_pattern})') *)
Definition score_re : regex :=
  Cat (Str results_marker)
   (Cat (Star (Class is_space))
        (Group (Some "score") real_number_pattern)).

(** conf_re = re.compile(rf'^(?P<key>\w+)\s*=\s*(?P<value>{real_number_pattern})\s*\n$') *)
Definition conf_re : regex :=
  Cat Bol
   (Cat (Group (Some "key") (Plus (Class is_word)))
    (Cat (Star (Class is_space))
     (Cat (Lit "=")
      (Cat (Star (Class is_space))
       (Cat (Group (Some "value") real_number_pattern)
        (Cat (Star (Class is_space))
         (Cat (Lit newline) Eol))))))).

(** ** What a pattern can match

    The words a pattern can consume, as a relation; the anchors consume
    nothing.  The matcher picks one such word by priority and
    backtracking. *)

Inductive matches : regex -> list ascii -> Prop :=
| matches_Eps : matches Eps []
| matches_Lit c : matches (Lit c) [c]
| matches_Class (p : ascii -> bool) c : p c = true -> matches (Class p) [c]
| matches_Cat r1 r2 w1 w2 :
    matches r1 w1 -> matches r2 w2 -> matches (Cat r1 r2) (w1 ++ w2)
| matches_Opt_skip r : matches (Opt r) []
| matches_Opt_take r w : matches r w -> matches (Opt r) w
| matches_Star_stop r : matches (Star r) []
| matches_Star_more r w1 w2 :
    matches r w1 -> matches (Star r) w2 -> matches (Star r) (w1 ++ w2)
| matches_Group name r w : matches r w -> matches (Group name r) w
| matches_Bol : matches Bol []
| matches_Eol : matches Eol [].

(** [st'] is [st] after consuming the word [w]. *)
Definition consumed (st st' : mstate) (w : list ascii) : Prop :=
  remaining st = (w ++ remaining st')%list /\ pos st' = pos st + length w.

(** Every character the pattern can consume satisfies [P]. *)
Fixpoint alphabet (P : ascii -> Prop) (r : regex) : Prop :=
  match r with
  | Eps | Bol | Eol => True
  | Lit c => P c
  | Class p => forall c, p c = true -> P c
  | Cat r1 r2 => alphabet P r1 /\ alphabet P r2
  | Opt r1 | Star r1 | Group _ r1 => alphabet P r1
  end.

(** The pattern cannot match without consuming the character [c]. *)
Fixpoint requires (c : ascii) (r : regex) : bool :=
  match r with
  | Lit c' => Ascii.eqb c' c
  | Cat r1 r2 => requires c r1 || requires c r2
  | Group _ r1 => requires c r1
  | _ => false
  end.

(** No anchor in the pattern. *)
Fixpoint anchor_free (r : regex) : bool :=
  match r with
  | Bol | Eol => false
  | Eps | Lit _ | Class _ => true
  | Cat r1 r2 => anchor_free r1 && anchor_free r2
  | Opt r1 | Star r1 | Group _ r1 => anchor_free r1
  end.

(** ** Reading a text file

    Both parsers open their file with [open(file, mode='r')]: text mode
    with universal newlines.  [content] below is always the file's
    characters as stored; what [f.read()] and [f.readlines()] work on is
    that text with every line end, CR LF, a lone CR or LF, turned into one
    LF. *)

Definition carriage_return : ascii := "013"%char.

Fixpoint universal_newlines (s : list ascii) : list ascii :=
  match s with
  | [] => []
  | c :: tl =>
      if Ascii.eqb c carriage_return
      then newline :: match tl with
                      | c' :: tl' =>
                          if Ascii.eqb c' newline then universal_newlines tl'
                          else universal_newlines tl
                      | [] => []
                      end
      else c :: universal_newlines tl
  end.

(** [f.read()] *)
Definition read (content : string) : string :=
  string_of_list_ascii (universal_newlines (list_ascii_of_string content)).

(** [f.readlines()]: the lines of the text, each with its newline; the
    last line has none when the text does not end in one. *)
Fixpoint readlines_aux (cur : list ascii) (s : list ascii) : list string :=
  match s with
  | [] => match cur with [] => [] | _ => [string_of_list_ascii (rev cur)] end
  | c :: tl =>
      if Ascii.eqb c newline
      then string_of_list_ascii (rev (c :: cur)) :: readlines_aux [] tl
      else readlines_aux (c :: cur) tl
  end.

Definition readlines (content : string) : list string :=
  readlines_aux [] (list_ascii_of_string (read content)).

(** ** The two parsers *)

Section Parsers.

(** Python's [float] type and the builtin [float(str)], which accepts
    every text the number pattern matches. *)
Context {pyfloat : Type} (float : string -> pyfloat).

(** def parse_scores_from_output(output_file), on the file's text *)
Definition parse_scores_from_output (content : string) : list pyfloat :=
  map (fun m => float (group "score" m)) (finditer score_re (read content)).

(** One round of the loop over the lines. *)
Definition conf_line (d : gmap string pyfloat) (line : string) : gmap string pyfloat :=
  match re_match conf_re line with
  | Some m => <[group "key" m := float (group "value" m)]> d
  | None => d
  end.

Definition conf_scan (lines : list string) : gmap string pyfloat :=
  fold_left conf_line lines ∅.

(** def parse_search_box_conf(conf_file), on the file's text *)
Definition parse_search_box_conf (content : string) : exn + gmap string pyfloat :=
  let d := conf_scan (readlines content) in
  if decide (size d = 6) then inr d else inl AssertionError.

End Parsers.

(** The continuation succeeds from position [p] with [rest] to go,
    whatever was captured. *)
Definition succeeds (k : cont) (p : nat) (rest : list ascii) : Prop :=
  forall st, pos st = p -> remaining st = rest -> is_Some (k st).

(** A result at place [p] of the text [s]: the marker, then blanks, then the
    number [num]. *)
Definition result_at (s : list ascii) (p : nat) (num : list ascii) : Prop :=
  exists ws rest,
    drop p s = (results_marker ++ ws ++ num ++ rest)%list
    /\ Forall (fun c => is_space c = true) ws
    /\ matches real_number_pattern num.

(** [num] is the longest number at the start of the text [t]. *)
Definition longest_number (t num : list ascii) : Prop :=
  (exists rest, t = (num ++ rest)%list)
  /\ matches real_number_pattern num
  /\ forall num' rest',
       t = (num' ++ rest')%list -> matches real_number_pattern num' ->
       length num' <= length num.

(** The score at place [p] of the text [s]: the marker, then blanks, then
    the longest number there. *)
Definition score_at (s : list ascii) (p : nat) (num : list ascii) : Prop :=
  exists ws t,
    drop p s = (results_marker ++ ws ++ t)%list
    /\ Forall (fun c => is_space c = true) ws
    /\ longest_number t num.

(** The character is not the first one of the marker. *)
Definition not_R (c : ascii) : Prop := c <> "R"%char.

(** The key a line gives, when it matches. *)
Definition conf_key (line : string) : option string :=
  group "key" <$> re_match conf_re line.

(** The text has no newline character. *)
Definition no_newline (s : string) : Prop := newline ∉ list_ascii_of_string s.

(** The stored text has no line end: neither LF nor CR. *)
Definition no_line_end (s : string) : Prop :=
  (newline ∉ list_ascii_of_string s) /\ (carriage_return ∉ list_ascii_of_string s).

(** A lone carriage return, as a text. *)
Definition cr : string := String carriage_return "".

(** ** The number pattern read from left to right

    What the number pattern takes at the start of a text when nothing
    after it can fail: the sign if there is one, the digits, a point with
    the digits after it, and an exponent if it is complete. *)

(** The longest run of characters of the class [p] at the start of the
    text, and what follows it. *)
Fixpoint split_run (p : ascii -> bool) (s : list ascii) : list ascii * list ascii :=
  match s with
  | c :: tl =>
      if p c then let (run, rest) := split_run p tl in (c :: run, rest)
      else ([], s)
  | [] => ([], [])
  end.

Definition scan_sign (s : list ascii) : list ascii * list ascii :=
  match s with
  | c :: tl => if is_sign c then ([c], tl) else ([], s)
  | [] => ([], [])
  end.

Definition scan_mantissa (s : list ascii) : option (list ascii * list ascii) :=
  let (ds, r1) := split_run is_digit s in
  let digits_only := match ds with [] => None | _ => Some (ds, r1) end in
  match r1 with
  | c :: r2 =>
      if Ascii.eqb "." c then
        match split_run is_digit r2 with
        | ([], _) => digits_only
        | (fs, r3) => Some ((ds ++ c :: fs)%list, r3)
        end
      else digits_only
  | [] => digits_only
  end.

Definition scan_exponent (s : list ascii) : list ascii * list ascii :=
  match s with
  | c :: r1 =>
      if Ascii.eqb "e" c then
        let (sg, r2) := scan_sign r1 in
        match split_run is_digit r2 with
        | ([], _) => ([], s)
        | (es, r3) => ((c :: sg ++ es)%list, r3)
        end
      else ([], s)
  | [] => ([], [])
  end.

Definition scan_number (s : list ascii) : option (list ascii * list ascii) :=
  let (sg, r0) := scan_sign s in
  match scan_mantissa r0 with
  | Some (m, r1) => let (ex, r2) := scan_exponent r1 in Some ((sg ++ m ++ ex)%list, r2)
  | None => None
  end.

(** ** The toolkit as an interface

    What the module calls in RDKit.  Operations that work in place
    ([MMFFSanitizeMolecule], [MMFFOptimizeMolecule], [UFFOptimizeMolecule])
    take the content of the object they are applied to and give its content
    afterwards, together with their return value or the exception they
    raise; they touch no other object.  The remaining ones only read. *)

Class RDKit := {
  Mol : Type;
  Atom : Type;
  GetAtoms : Mol -> list Atom;                      (* mol.GetAtoms() *)
  GetAtomicNum : Atom -> Z;                         (* atom.GetAtomicNum() *)
  GetMolFrags : Mol -> list (list nat);             (* Chem.GetMolFrags(mol) *)
  MolFromSmiles : string -> option Mol;             (* None: no structure *)
  MolToSmiles : Mol -> string;                      (* canonical by default *)
  CanonSmiles : string -> bool -> exn + string;     (* smiles, useChiral *)
  MMFFHasAllMoleculeParams : Mol -> bool;
  UFFHasAllMoleculeParams : Mol -> bool;
  MMFFSanitizeMolecule : Mol -> Mol * (exn + unit);
  MMFFOptimizeMolecule : Mol -> string -> Z -> Mol * (exn + Z);  (* mmffVariant, maxIters *)
  UFFOptimizeMolecule : Mol -> Z -> Mol * (exn + Z);             (* maxIters *)
}.

(** ** Program state and the monad of the embedded functions *)

(** References to molecule objects. *)
Definition loc := positive.

(** The calls the trace keeps: the force-field operations, which work in
    place, and [logging.info]. *)
Inductive call :=
| Call_MMFFSanitizeMolecule (mol : loc)
| Call_MMFFOptimizeMolecule (mol : loc) (mmffVariant : string) (maxIters : Z)
| Call_UFFOptimizeMolecule (mol : loc) (maxIters : Z)
| Call_logging_info (msg : string).

Section Program.

Context `{TK : RDKit}.

(** The heap of molecule objects, the toolkit logs switched off by
    [rdBase.DisableLog], and the calls made so far (latest first). *)
Record world := {
  heap : gmap loc Mol;
  disabled_logs : gset string;
  trace : list call;
}.

Definition M (A : Type) : Type := world -> (exn + A) * world.

Definition ret {A} (a : A) : M A := fun w => (inr a, w).

Definition bind {A B} (c : M A) (f : A -> M B) : M B :=
  fun w => match c w with
           | (inr a, w') => f a w'
           | (inl e, w') => (inl e, w')
           end.

Definition raise {A} (e : exn) : M A := fun w => (inl e, w).

(** try: body / except <handler's exceptions>: handler *)
Definition try_except {A} (body : M A) (handler : exn -> option (M A)) : M A :=
  fun w => match body w with
           | (inl e, w') =>
               match handler e with
               | Some h => h w'
               | None => (inl e, w')
               end
           | r => r
           end.

(** if cond: stmt *)
Definition when (cond : bool) (c : M unit) : M unit :=
  if cond then c else ret tt.

(** The notations [x ← c; k] and [c;; k] of stdpp, for [bind]. *)
#[export] Instance M_ret : MRet M := @ret.
#[export] Instance M_bind : MBind M := fun A B f c => bind c f.

End Program.

Section Functions.

Context `{TK : RDKit}.

(** *** State primitives *)

Definition deref (l : loc) : M Mol :=
  fun w => match heap w !! l with
           | Some m => (inr m, w)
           | None => (inl (OtherException "dangling reference"), w)
           end.

Definition assign (l : loc) (m : Mol) : M unit :=
  fun w => (inr tt, {| heap := <[l := m]> (heap w);
                       disabled_logs := disabled_logs w; trace := trace w |}).

(** A new object. *)
Definition alloc (m : Mol) : M loc :=
  fun w => let l := fresh (dom (heap w)) in
           (inr l, {| heap := <[l := m]> (heap w);
                      disabled_logs := disabled_logs w; trace := trace w |}).

Definition record (c : call) : M unit :=
  fun w => (inr tt, {| heap := heap w; disabled_logs := disabled_logs w;
                       trace := c :: trace w |}).

Definition lift {A} (r : exn + A) : M A :=
  match r with inl e => raise e | inr a => ret a end.

(** A toolkit operation that works in place on the object at [l]. *)
Definition in_place {A} (op : Mol -> Mol * (exn + A)) (c : call) (l : loc) : M A :=
  m ← deref l ;
  record c ;;
  assign l (fst (op m)) ;;
  lift (snd (op m)).

(** copy.copy(mol) *)
Definition copy_copy (mol : loc) : M loc :=
  m ← deref mol; alloc m.

(** rdBase.DisableLog(name), rdBase.EnableLog(name) *)
Definition DisableLog (name : string) : M unit :=
  fun w => (inr tt, {| heap := heap w; disabled_logs := {[name]} ∪ disabled_logs w;
                       trace := trace w |}).

Definition EnableLog (name : string) : M unit :=
  fun w => (inr tt, {| heap := heap w; disabled_logs := disabled_logs w ∖ {[name]};
                       trace := trace w |}).

Definition logging_info (msg : string) : M unit := record (Call_logging_info msg).

(** str(exception) *)
Definition exn_str (e : exn) : string :=
  match e with
  | DockingError msg | KekulizeException msg | OtherException msg => msg
  | AssertionError => ""
  end.

(** *** The functions of utils.py *)

(** def canonicalize_smiles(smiles) *)
Definition canonicalize_smiles (smiles : string) : M string :=
  match CanonSmiles smiles true with
  | inr c => ret c
  | inl e => raise (DockingError ("Cannot canonicalize SMILES: " ++ exn_str e))
  end.

(** def smiles_to_mol(smiles, verbose=False) *)
Definition smiles_to_mol (smiles : string) (verbose : bool) : M loc :=
  when (negb verbose) (DisableLog "rdApp.error") ;;
  match MolFromSmiles smiles with
  | None => raise (DockingError "Could not parse SMILES string")
  | Some m =>
      mol ← alloc m ;
      when (negb verbose) (EnableLog "rdApp.error") ;;
      ret mol
  end.

(** def check_mol(mol) *)
Definition check_mol (mol : loc) : M unit :=
  m ← deref mol ;
  let no_hs := forallb (fun atom => negb (GetAtomicNum atom =? 0)%Z) (GetAtoms m) in
  when (negb no_hs)
    (raise (DockingError "Cannot process molecule: hydrogen atoms couldn't be removed")) ;;
  let fragments := GetMolFrags m in
  when (negb (length fragments =? 1)%nat)
    (raise (DockingError ("Incorrect number of molecular fragments ("
                          ++ pretty (length fragments) ++ ")"))).

(** def run_mmff94_opt(mol, max_iters) *)
Definition run_mmff94_opt (mol : loc) (max_iters : Z) : M loc :=
  opt_mol ← copy_copy mol ;
  in_place MMFFSanitizeMolecule (Call_MMFFSanitizeMolecule opt_mol) opt_mol ;;
  opt_result ← in_place (fun m => MMFFOptimizeMolecule m "MMFF94" max_iters)
                  (Call_MMFFOptimizeMolecule opt_mol "MMFF94" max_iters) opt_mol ;
  when (negb (opt_result =? 0)%Z)
    (raise (DockingError "MMFF optimization of ligand failed")) ;;
  ret opt_mol.

(** def run_uff_opt(mol, max_iters) *)
Definition run_uff_opt (mol : loc) (max_iters : Z) : M loc :=
  opt_mol ← copy_copy mol ;
  opt_result ← in_place (fun m => UFFOptimizeMolecule m max_iters)
                  (Call_UFFOptimizeMolecule opt_mol max_iters) opt_mol ;
  when (negb (opt_result =? 0)%Z)
    (raise (DockingError "UFF optimization of ligand failed")) ;;
  ret opt_mol.

(** def refine_mol_with_ff(mol, max_iters=1000) *)
Definition refine_mol_with_ff (mol : loc) (max_iters : Z) : M loc :=
  m ← deref mol ;
  if MMFFHasAllMoleculeParams m then
    try_except (run_mmff94_opt mol max_iters)
      (fun e => match e with
                | KekulizeException msg =>
                    Some (logging_info ("Ligand optimization with MMFF94 failed: "
                                        ++ msg ++ ", trying UFF") ;;
                          run_uff_opt mol max_iters)
                | _ => None
                end)
  else if UFFHasAllMoleculeParams m then
    run_uff_opt mol max_iters
  else
    raise (DockingError "Cannot optimize ligand: parameters not available").

(** def verify_docked_ligand(ref, ligand) *)
Definition verify_docked_ligand (ref ligand : loc) : M unit :=
  ref_smiles ← (m ← deref ref; ret (MolToSmiles m)) ;
  ligand_smiles ← (m ← deref ligand; ret (MolToSmiles m)) ;
  when (negb (String.eqb ligand_smiles ref_smiles))
    (raise (DockingError ("Cannot recover original ligand: " ++ ref_smiles
                          ++ " (original ligand) != " ++ ligand_smiles
                          ++ " (docked ligand)"))).

End Functions.

(** ** Observations on a run *)

Section Observations.

Context `{TK : RDKit}.

Definition is_uff_call (c : call) : bool :=
  match c with Call_UFFOptimizeMolecule _ _ => true | _ => false end.

(** The calls made on the way from [w] to [w'] include a UFF
    optimization. *)
Definition uff_called (w w' : world) : Prop :=
  exists new, trace w' = (new ++ trace w)%list /\ existsb is_uff_call new = true.

(** Every object of [w] is in [w'] with the same content. *)
Definition objects_kept (w w' : world) : Prop :=
  forall l m, heap w !! l = Some m -> heap w' !! l = Some m.

End Observations.

(** ** A small instance of the interface, for the examples

    A molecule is given by what the toolkit reports about it: the atomic
    numbers of its atoms, its fragments, its canonical SMILES, and whether
    each force field has parameters for it. *)

Module Example.

Record mol := {
  atomic_nums : list Z;
  fragments : list (list nat);
  smiles : string;
  mmff_params : bool;
  uff_params : bool;
  kekulizes : bool;
  converges : bool;
  optimized : bool;
}.

(** Methane as [Chem.MolFromSmiles('C')] gives it: hydrogens implicit. *)
Definition methane : mol :=
  {| atomic_nums := [6%Z]; fragments := [[0%nat]]; smiles := "C";
     mmff_params := true; uff_params := true; kekulizes := true;
     converges := true; optimized := false |}.

(** Methane after [Chem.AddHs]: four explicit hydrogen atoms. *)
Definition methane_with_hs : mol :=
  {| atomic_nums := [6; 1; 1; 1; 1]%Z; fragments := [[0; 1; 2; 3; 4]%nat];
     smiles := "[H]C([H])([H])[H]";
     mmff_params := true; uff_params := true; kekulizes := true;
     converges := true; optimized := false |}.

(** Two benzene rings, [Chem.MolFromSmiles('c1ccccc1.c1ccccc1')]. *)
Definition two_benzenes : mol :=
  {| atomic_nums := [6; 6; 6; 6; 6; 6; 6; 6; 6; 6; 6; 6]%Z;
     fragments := [[0; 1; 2; 3; 4; 5]; [6; 7; 8; 9; 10; 11]]%nat;
     smiles := "c1ccccc1.c1ccccc1";
     mmff_params := true; uff_params := true; kekulizes := true;
     converges := true; optimized := false |}.

Definition set_optimized (m : mol) : mol :=
  {| atomic_nums := atomic_nums m; fragments := fragments m; smiles := smiles m;
     mmff_params := mmff_params m; uff_params := uff_params m;
     kekulizes := kekulizes m; converges := converges m; optimized := true |}.

(** A molecule MMFF94 has parameters for but cannot kekulize. *)
Definition unkekulizable : mol :=
  {| atomic_nums := [6; 6; 6; 6; 7]%Z; fragments := [[0; 1; 2; 3; 4]%nat];
     smiles := "c1ccnc1"; mmff_params := true; uff_params := true;
     kekulizes := false; converges := true; optimized := false |}.

(** A molecule on which the optimizers do not converge: they return 1. *)
Definition unconverging : mol :=
  {| atomic_nums := [6; 6; 8]%Z; fragments := [[0; 1; 2]%nat];
     smiles := "CCO"; mmff_params := false; uff_params := true;
     kekulizes := true; converges := false; optimized := false |}.

Definition from_smiles (s : string) : option mol :=
  if String.eqb s "C" then Some methane
  else if String.eqb s "c1ccccc1.c1ccccc1" then Some two_benzenes
  else None.

#[local] Instance toolkit : RDKit := {|
  Mol := mol;
  Atom := Z;
  GetAtoms := atomic_nums;
  GetAtomicNum := fun z => z;
  GetMolFrags := fragments;
  MolFromSmiles := from_smiles;
  MolToSmiles := smiles;
  CanonSmiles := fun s _ =>
    match from_smiles s with
    | Some m => inr (smiles m)
    | None => inl (OtherException "SMILES parse error")
    end;
  MMFFHasAllMoleculeParams := mmff_params;
  UFFHasAllMoleculeParams := uff_params;
  MMFFSanitizeMolecule := fun m =>
    (m, if kekulizes m then inr tt
        else inl (KekulizeException "Can't kekulize mol."));
  MMFFOptimizeMolecule := fun m _ _ =>
    (set_optimized m, inr (if converges m then 0 else 1)%Z);
  UFFOptimizeMolecule := fun m _ =>
    (set_optimized m, inr (if converges m then 0 else 1)%Z);
|}.

(** A world with one molecule object, and one with two. *)
Definition world_with (m : mol) : world :=
  {| heap := {[1%positive := m]}; disabled_logs := ∅; trace := [] |}.

Definition world_with2 (m1 m2 : mol) : world :=
  {| heap := <[2%positive := m2]> {[1%positive := m1]};
     disabled_logs := ∅; trace := [] |}.

End Example.

(** ** Example files *)

Definition nl : string := String newline "".

(** The two result lines of a docking output. *)
Definition two_results : string :=
  "REMARK VINA RESULT:    -7.2  0.000  0.000" ++ nl ++
  "REMARK VINA RESULT:    -6.8  1.200  1.500" ++ nl.

Definition five_lines : string :=
  "center_x = 1.0" ++ nl ++ "center_y = 2.0" ++ nl ++ "center_z = 3.0" ++ nl ++
  "size_x = 20.0" ++ nl ++ "size_y = 20.0" ++ nl.

(** A complete search box. *)
Definition six_lines : string := five_lines ++ "size_z = 20.0" ++ nl.

(** The same, the last line without its newline. *)
Definition six_lines_unterminated : string := five_lines ++ "size_z = 20.0".

(** Seven matching lines, [size_x] given twice, and a comment line. *)
Definition seven_lines : string :=
  "# search box" ++ nl ++ "size_x = 22.5" ++ nl ++ six_lines.

(** For the examples, a float is shown by the text [float] is given. *)
Definition float_text (s : string) : string := s.

(** What [conf_re] finds in the line [size_x = 20.0]. *)
Definition size_x_match : match_obj :=
  Eval vm_compute in
    default {| m_start := 0; m_end := 0; m_captures := [] |}
            (re_match conf_re ("size_x = 20.0" ++ nl)).

(** ** Further notions for the parsers *)

(** The names of the groups of a pattern ([None]: a group without name). *)
Fixpoint group_names (r : regex) : list (option string) :=
  match r with
  | Group name r1 => name :: group_names r1
  | Cat r1 r2 => (group_names r1 ++ group_names r2)%list
  | Opt r1 | Star r1 => group_names r1
  | _ => []
  end.

(** [st'] has the captures of [st] and, before them, captures of groups of
    the pattern [r]. *)
Definition captures_grow (r : regex) (st st' : mstate) : Prop :=
  exists extra,
    captures st' = (extra ++ captures st)%list
    /\ Forall (fun c => cap_name c ∈ group_names r) extra.

(** A key: a word of at least one character.  A number: a text of the
    number pattern.  Blanks: white space. *)
Definition is_key (k : string) : Prop :=
  k <> "" /\ Forall (fun c => is_word c = true) (list_ascii_of_string k).

Definition is_number (v : string) : Prop :=
  matches real_number_pattern (list_ascii_of_string v).

Definition is_blanks (ws : string) : Prop :=
  Forall (fun c => is_space c = true) (list_ascii_of_string ws).

(** What a matching line adds to the mapping. *)
Definition conf_entry {pyfloat : Type} (float : string -> pyfloat) (line : string)
  : option (string * pyfloat) :=
  match re_match conf_re line with
  | Some m => Some (group "key" m, float (group "value" m))
  | None => None
  end.

(** A search-box file written from its entries, one [key = value] line
    each. *)
Definition conf_text_line (e : string * string) : string :=
  e.1 ++ " = " ++ e.2 ++ nl.

Definition conf_text (entries : list (string * string)) : string :=
  fold_right (fun e s => conf_text_line e ++ s) "" entries.

(** The pattern can match the empty word. *)
Fixpoint nullable (r : regex) : bool :=
  match r with
  | Lit _ | Class _ => false
  | Cat r1 r2 => nullable r1 && nullable r2
  | Group _ r1 => nullable r1
  | _ => true
  end.

(** ** More of the toolkit: preparation of a molecule

    [Uncharger().uncharge], [Chem.AddHs] and
    [Chem.AssignBondOrdersFromTemplate] give a new molecule and leave their
    arguments alone; [Chem.EmbedMolecule] works in place. *)

(** What [Chem.AssignBondOrdersFromTemplate] does: a molecule, or an
    exception: a [ValueError] (of that class, or of a subclass that [exn]
    does not name), an [AtomValenceException], or one of [exn]. *)
Inductive template_result {Mol : Type} :=
| Assigned (m : Mol)
| ValueError (msg : string)
| AtomValenceException (msg : string)
| Raised (e : exn).

(** [isinstance(e, ValueError)] on [exn].  An [except] clause catches the
    instances of its classes, those of their subclasses included.  RDKit's
    [KekulizeException] derives from [MolSanitizeException] and that from
    [ValueError]; [DockingError] and [AssertionError] derive from
    [Exception] only, and [OtherException] stands for the classes outside
    [ValueError]. *)
Definition is_ValueError (e : exn) : bool :=
  match e with
  | KekulizeException _ => true
  | DockingError _ | AssertionError | OtherException _ => false
  end.

Class RDKitPrep `{TK : RDKit} := {
  Uncharger_uncharge : Mol -> exn + Mol;             (* Uncharger().uncharge(mol) *)
  AddHs : Mol -> Mol;                                (* Chem.AddHs(mol) *)
  GetNumAtoms : Mol -> nat;                          (* mol.GetNumAtoms() *)
  GetNumConformers : Mol -> nat;                     (* mol.GetNumConformers() *)
  EmbedMolecule : Mol -> Z -> Z -> Mol * (exn + Z);  (* randomSeed, maxAttempts *)
  AssignBondOrdersFromTemplate : Mol -> Mol -> @template_result Mol;  (* refmol, mol *)
  MolFromPDBFile : string -> exn + option Mol;       (* None: no structure *)
  MolToMolBlock : Mol -> string;                     (* what MolToMolFile writes *)
}.

Section Preparation.

Context `{TKP : RDKitPrep}.

(** A toolkit operation that works in place on the object at [l], kept out
    of the trace. *)
Definition update {A} (op : Mol -> Mol * (exn + A)) (l : loc) : M A :=
  m ← deref l;
  assign l (fst (op m)) ;;
  lift (snd (op m)).

(** def sanitize_mol(mol, verbose=False) *)
Definition sanitize_mol (mol : loc) (verbose : bool) : M loc :=
  when (negb verbose) (DisableLog "rdApp.info") ;;
  m ← deref mol;
  m' ← lift (Uncharger_uncharge m);
  mol ← alloc m';
  when (negb verbose) (EnableLog "rdApp.info") ;;
  ret mol.

(** def embed_mol(mol, seed, attempt_factor=10) *)
Definition embed_mol (mol : loc) (seed attempt_factor : Z) : M loc :=
  m ← deref mol;
  mol ← alloc (AddHs m);
  m ← deref mol;
  update (fun x => EmbedMolecule x seed (attempt_factor * Z.of_nat (GetNumAtoms m))) mol ;;
  m ← deref mol;
  when (GetNumConformers m =? 0)%nat
    (raise (DockingError "Generation of ligand conformation failed")) ;;
  ret mol.

(** def assign_bond_orders(subject, ref, verbose=False) *)
Definition assign_bond_orders (subject ref : loc) (verbose : bool) : M loc :=
  when (negb verbose) (DisableLog "rdApp.warning") ;;
  r ← deref ref;
  s ← deref subject;
  mol ← match AssignBondOrdersFromTemplate r s with
        | Assigned m => alloc m
        | ValueError msg | AtomValenceException msg =>
            raise (DockingError ("Could not assign bond orders: " ++ msg))
        | Raised e =>
            if is_ValueError e
            then raise (DockingError ("Could not assign bond orders: " ++ exn_str e))
            else raise e
        end;
  when (negb verbose) (EnableLog "rdApp.warning") ;;
  ret mol.

(** def read_mol_from_pdb(pdb_file) *)
Definition read_mol_from_pdb (pdb_file : string) : M loc :=
  mol ← lift (MolFromPDBFile pdb_file);
  match mol with
  | None => raise (DockingError ("Cannot read PDB file " ++ pdb_file))
  | Some m =>
      mol ← alloc m;
      when (GetNumConformers m =? 0)%nat
        (raise (DockingError ("Cannot read PDB file " ++ pdb_file))) ;;
      ret mol
  end.

(** def write_mol_to_mol_file(mol, mol_file); the files are passed in and
    given back with the one written. *)
Definition write_mol_to_mol_file (mol : loc) (mol_file : string)
    (files : gmap string string) : M (gmap string string) :=
  m ← deref mol;
  when (GetNumConformers m <? 1)%nat
    (raise (DockingError "For conversion to MDL MOL format a conformer is required")) ;;
  ret (<[mol_file := MolToMolBlock m]> files).

End Preparation.

(** ** Finding the resources of the package

    The name of the operating system ([platform.system()]), the place of
    the package's [resources] directory ([pkg_resources.resource_filename])
    and the tests [Path.is_dir] and [Path.is_file] are parameters.  A path
    is the list of its components. *)

Section Resources.

Variable system_name : string.
Variable resources : list string.
Variables is_dir is_file : list string -> bool.

(** path / name *)
Definition joinpath (path : list string) (name : string) : list string :=
  (path ++ [name])%list.

(** def get_vina_filename() *)
Definition get_vina_filename : exn + string :=
  if String.eqb system_name "Linux" then inr "vina_linux"
  else inl (DockingError ("System '" ++ system_name ++ "' not yet supported")).

(** def get_resources_dir() *)
Definition get_resources_dir : exn + list string :=
  let path := resources in
  if negb (is_dir path) then inl (DockingError "'resources' directory not found")
  else inr path.

(** def get_targets_dir() *)
Definition get_targets_dir : exn + list string :=
  match get_resources_dir with
  | inl e => inl e
  | inr dir =>
      let path := joinpath dir "targets" in
      if negb (is_dir path) then inl (DockingError "'targets' directory not found")
      else inr path
  end.

(** def get_bin_dir() *)
Definition get_bin_dir : exn + list string :=
  match get_resources_dir with
  | inl e => inl e
  | inr dir =>
      let path := joinpath dir "bin" in
      if negb (is_dir path) then inl (DockingError "'bin' directory not found")
      else inr path
  end.

(** def get_vina_path(): the directory is looked up before the file name *)
Definition get_vina_path : exn + list string :=
  match get_bin_dir with
  | inl e => inl e
  | inr dir =>
      match get_vina_filename with
      | inl e => inl e
      | inr name =>
          let path := joinpath dir name in
          if negb (is_file path)
          then inl (DockingError "AutoDock Vina executable not found")
          else inr path
      end
  end.

End Resources.

(** The continuation that accepts at the end of the text only. *)
Definition at_end : cont :=
  fun st => match remaining st with [] => Some st | _ => None end.

(** ** A second small instance, with conformers

    A molecule is its atoms, the number of its conformers and its formal
    charge; files are known by name. *)

Module Lab.

Record mol := { atoms : list Z; conformers : nat; formal_charge : Z }.

(** Ethanol read from a PDB file: heavy atoms, one conformer. *)
Definition ethanol : mol :=
  {| atoms := [6; 6; 8]%Z; conformers := 1; formal_charge := 0 |}.

(** Acetate as parsed from SMILES: no conformer, charge -1. *)
Definition acetate : mol :=
  {| atoms := [6; 6; 8; 8]%Z; conformers := 0; formal_charge := -1 |}.

(** Methanol with an attachment point, [*CO]: a dummy atom. *)
Definition attached_methanol : mol :=
  {| atoms := [0; 6; 8]%Z; conformers := 0; formal_charge := 0 |}.

Definition with_conformers (n : nat) (m : mol) : mol :=
  {| atoms := atoms m; conformers := n; formal_charge := formal_charge m |}.

#[local] Instance toolkit : RDKit := {|
  Mol := mol;
  Atom := Z;
  GetAtoms := atoms;
  GetAtomicNum := fun z => z;
  GetMolFrags := fun m => [seq 0 (length (atoms m))];
  MolFromSmiles := fun s => if String.eqb s "CC(=O)[O-]" then Some acetate else None;
  MolToSmiles := fun m => pretty (length (atoms m));
  CanonSmiles := fun s _ => inr s;
  MMFFHasAllMoleculeParams := fun _ => true;
  UFFHasAllMoleculeParams := fun _ => true;
  MMFFSanitizeMolecule := fun m => (m, inr tt);
  MMFFOptimizeMolecule := fun m _ _ => (m, inr 0%Z);
  UFFOptimizeMolecule := fun m _ => (m, inr 0%Z);
|}.

#[local] Instance prep : RDKitPrep := {|
  Uncharger_uncharge := fun m =>
    inr {| atoms := atoms m; conformers := conformers m; formal_charge := 0 |};
  AddHs := fun m =>
    {| atoms := (atoms m ++ [1; 1; 1]%Z)%list; conformers := conformers m;
       formal_charge := formal_charge m |};
  GetNumAtoms := fun m => length (atoms m);
  GetNumConformers := conformers;
  EmbedMolecule := fun m _ maxAttempts =>
    if (0 <? maxAttempts)%Z then (with_conformers 1 m, inr 0%Z)
    else (with_conformers 0 m, inr (-1)%Z);
  AssignBondOrdersFromTemplate := fun refmol m =>
    if (length (atoms refmol) =? length (atoms m))%nat then Assigned m
    else if (formal_charge m <? 0)%Z
         then Raised (KekulizeException "Can't kekulize mol.")
         else ValueError "No matching found";
  MolFromPDBFile := fun name =>
    if String.eqb name "ligand.pdb" then inr (Some ethanol)
    else inl (OtherException "Bad input file");
  MolToMolBlock := fun m => pretty (length (atoms m)) ++ " atoms";
|}.

Definition world_with (m : mol) : world :=
  {| heap := {[1%positive := m]}; disabled_logs := {["rdApp.info"]}; trace := [] |}.

Definition world_with2 (m1 m2 : mol) : world :=
  {| heap := <[2%positive := m2]> {[1%positive := m1]};
     disabled_logs := ∅; trace := [] |}.

End Lab.

(** Six entries of a search box, and another conversion of texts. *)
Definition box_entries : list (string * string) :=
  [("center_x", "1.0"); ("center_y", "-2.5"); ("center_z", "3e1");
   ("size_x", "20"); ("size_y", "+20.0"); ("size_z", ".5")].

Definition float_or_nan (s : string) : string :=
  if String.eqb s "" then "nan" else s.

(** * Properties *)

(** ** The molecule checks *)

Section MoleculeProperties.

Context `{TK : RDKit}.

Lemma deref_Some (w : world) (l : loc) (m : Mol) :
  heap w !! l = Some m -> deref l w = (inr m, w).
Proof. intros H. unfold deref. by rewrite H. Qed.

(** What [check_mol] does, case by case. *)
Lemma check_mol_cases (w : world) (mol : loc) (m : Mol) :
  heap w !! mol = Some m ->
  check_mol mol w =
    (if forallb (fun atom => negb (GetAtomicNum atom =? 0)%Z) (GetAtoms m)
     then if (length (GetMolFrags m) =? 1)%nat then inr tt
          else inl (DockingError ("Incorrect number of molecular fragments ("
                                  ++ pretty (length (GetMolFrags m)) ++ ")"))
     else inl (DockingError
                 "Cannot process molecule: hydrogen atoms couldn't be removed"),
     w).
Proof.
  intros H. unfold check_mol, mbind, M_bind, bind.
  rewrite (deref_Some _ _ _ H).
  destruct (forallb _ (GetAtoms m)); simpl; [|done].
  by destruct (length (GetMolFrags m) =? 1)%nat.
Qed.

(** C1 (the hydrogen check as coded): a molecule that carries explicit
    hydrogen atoms (atomic number 1), has no atom of atomic number 0 and
    is in one piece passes [check_mol]: no DockingError is raised.  The
    check compares atomic numbers with 0, not with 1. *)
Theorem check_mol_accepts_explicit_hydrogens (w : world) (mol : loc) (m : Mol) :
  heap w !! mol = Some m ->
  (exists atom, atom ∈ GetAtoms m /\ GetAtomicNum atom = 1%Z) ->
  (forall atom, atom ∈ GetAtoms m -> GetAtomicNum atom <> 0%Z) ->
  length (GetMolFrags m) = 1 ->
  check_mol mol w = (inr tt, w).
Proof.
  intros Hm _ Hnz Hfr. rewrite (check_mol_cases _ _ _ Hm), Hfr.
  replace (forallb _ (GetAtoms m)) with true; [done|].
  symmetry. apply forallb_forall. intros a Ha.
  apply negb_true_iff, Z.eqb_neq, Hnz, list_elem_of_In, Ha.
Qed.

(** X16: a molecule with an atom of atomic number 0 (a dummy atom) is
    refused with the message about hydrogen atoms, whatever its fragments,
    and nothing is changed. *)
Lemma check_mol_rejects_atomic_num_zero (w : world) (mol : loc) (m : Mol) :
  heap w !! mol = Some m ->
  (exists atom, atom ∈ GetAtoms m /\ GetAtomicNum atom = 0%Z) ->
  check_mol mol w =
    (inl (DockingError "Cannot process molecule: hydrogen atoms couldn't be removed"), w).
Proof.
  intros Hm (a & Ha & Hz). rewrite (check_mol_cases _ _ _ Hm).
  destruct (forallb _ (GetAtoms m)) eqn:E; [|done].
  rewrite forallb_forall in E. specialize (E a (proj1 (list_elem_of_In _ _) Ha)).
  rewrite Hz in E. discriminate.
Qed.

(** X17: without such an atom, any number of fragments other than one is
    refused, the message carries the number, and nothing is changed. *)
Lemma check_mol_rejects_fragments (w : world) (mol : loc) (m : Mol) :
  heap w !! mol = Some m ->
  (forall atom, atom ∈ GetAtoms m -> GetAtomicNum atom <> 0%Z) ->
  length (GetMolFrags m) <> 1 ->
  check_mol mol w =
    (inl (DockingError ("Incorrect number of molecular fragments ("
                        ++ pretty (length (GetMolFrags m)) ++ ")")), w).
Proof.
  intros Hm Hnz Hfr. rewrite (check_mol_cases _ _ _ Hm).
  replace (forallb _ (GetAtoms m)) with true.
  - by apply Nat.eqb_neq in Hfr as ->.
  - symmetry. apply forallb_forall. intros a Ha.
    apply negb_true_iff, Z.eqb_neq, Hnz, list_elem_of_In, Ha.
Qed.

End MoleculeProperties.

Lemma check_mol_accepts_explicit_hydrogens_witness :
  check_mol 1%positive (Example.world_with Example.methane_with_hs)
  = (inr tt, Example.world_with Example.methane_with_hs).
Proof.
  apply (check_mol_accepts_explicit_hydrogens (TK := Example.toolkit)
           _ _ Example.methane_with_hs).
  - reflexivity.
  - exists 1%Z. split; [|reflexivity]. simpl. right; left.
  - apply Forall_forall. simpl. repeat constructor; lia.
  - reflexivity.
Defined.

Example check_mol_two_benzenes :
  check_mol 1%positive (Example.world_with Example.two_benzenes)
  = (inl (DockingError "Incorrect number of molecular fragments (2)"),
     Example.world_with Example.two_benzenes).
Proof. reflexivity. Qed.

(** ** Parsing a SMILES string and the toolkit's error log *)

Section Logging.

Context `{TK : RDKit}.

(** On the success path the error log is switched on again. *)
Lemma smiles_to_mol_success (smiles : string) (w : world) (m : Mol) :
  MolFromSmiles smiles = Some m ->
  exists mol w',
    smiles_to_mol smiles false w = (inr mol, w')
    /\ heap w' !! mol = Some m
    /\ "rdApp.error" ∉ disabled_logs w'.
Proof.
  intros H. unfold smiles_to_mol, mbind, M_bind, bind. simpl. rewrite H. simpl.
  eexists _, _. split; [reflexivity|]. simpl. split.
  - apply lookup_insert_eq.
  - apply not_elem_of_difference. right. by apply elem_of_singleton.
Qed.

(** C4 (the failure path as coded): when parsing yields no structure and
    [verbose] is false, [smiles_to_mol] raises DockingError with the error
    log still switched off: the [raise] comes before [EnableLog]. *)
Theorem smiles_to_mol_failure_leaves_log_disabled (smiles : string) (w : world) :
  MolFromSmiles smiles = None ->
  smiles_to_mol smiles false w
  = (inl (DockingError "Could not parse SMILES string"),
     {| heap := heap w; disabled_logs := {["rdApp.error"]} ∪ disabled_logs w;
        trace := trace w |})
  /\ "rdApp.error" ∈ disabled_logs (snd (smiles_to_mol smiles false w)).
Proof.
  intros H. unfold smiles_to_mol, mbind, M_bind, bind. simpl. rewrite H. simpl.
  split; [reflexivity|]. by apply elem_of_union_l, elem_of_singleton.
Qed.

End Logging.

Lemma smiles_to_mol_failure_leaves_log_disabled_witness :
  smiles_to_mol "C(" false (Example.world_with Example.methane)
  = (inl (DockingError "Could not parse SMILES string"),
     {| heap := heap (Example.world_with Example.methane);
        disabled_logs := {["rdApp.error"]} ∪ ∅; trace := [] |})
  /\ "rdApp.error" ∈ disabled_logs
       (snd (smiles_to_mol "C(" false (Example.world_with Example.methane))).
Proof.
  apply (smiles_to_mol_failure_leaves_log_disabled (TK := Example.toolkit)).
  reflexivity.
Defined.

(** ** The round-trip check of the docked ligand *)

Section Verification.

Context `{TK : RDKit}.

Lemma verify_docked_ligand_cases (w : world) (ref ligand : loc) (mr ml : Mol) :
  heap w !! ref = Some mr ->
  heap w !! ligand = Some ml ->
  verify_docked_ligand ref ligand w =
    (if String.eqb (MolToSmiles ml) (MolToSmiles mr) then inr tt
     else inl (DockingError ("Cannot recover original ligand: " ++ MolToSmiles mr
                             ++ " (original ligand) != " ++ MolToSmiles ml
                             ++ " (docked ligand)")), w).
Proof.
  intros Hr Hl. unfold verify_docked_ligand, mbind, M_bind, bind.
  rewrite (deref_Some _ _ _ Hr). simpl. rewrite (deref_Some _ _ _ Hl). simpl.
  by destruct (String.eqb _ _).
Qed.

(** C6: [verify_docked_ligand] raises DockingError exactly when the
    canonical SMILES of the ligand differs from that of the reference; it
    raises nothing else, changes nothing, and is silent on an exact copy
    of the reference. *)
Theorem verify_docked_ligand_iff (w : world) (ref ligand : loc) (mr ml : Mol) :
  heap w !! ref = Some mr ->
  heap w !! ligand = Some ml ->
  ((exists msg, fst (verify_docked_ligand ref ligand w) = inl (DockingError msg))
     <-> MolToSmiles ml <> MolToSmiles mr)
  /\ (MolToSmiles ml = MolToSmiles mr ->
      verify_docked_ligand ref ligand w = (inr tt, w))
  /\ (ml = mr -> verify_docked_ligand ref ligand w = (inr tt, w))
  /\ snd (verify_docked_ligand ref ligand w) = w.
Proof.
  intros Hr Hl. rewrite (verify_docked_ligand_cases _ _ _ _ _ Hr Hl).
  destruct (String.eqb _ _) eqn:E; simpl.
  - apply String.eqb_eq in E.
    split; [split; [by intros [msg ?] | by intros ?] | done].
  - apply String.eqb_neq in E.
    split; [split; [done | eauto] |].
    split; [done | split; [by intros -> | done]].
Qed.

End Verification.

Lemma verify_docked_ligand_iff_witness :
  let w := Example.world_with2 Example.methane Example.two_benzenes in
  ((exists msg, fst (verify_docked_ligand 1%positive 2%positive w) = inl (DockingError msg))
     <-> Example.smiles Example.two_benzenes <> Example.smiles Example.methane)
  /\ (Example.smiles Example.two_benzenes = Example.smiles Example.methane ->
      verify_docked_ligand 1%positive 2%positive w = (inr tt, w))
  /\ (Example.two_benzenes = Example.methane ->
      verify_docked_ligand 1%positive 2%positive w = (inr tt, w))
  /\ snd (verify_docked_ligand 1%positive 2%positive w) = w.
Proof.
  apply (verify_docked_ligand_iff (TK := Example.toolkit)); reflexivity.
Defined.

Example verify_docked_ligand_copy :
  verify_docked_ligand 1%positive 2%positive
    (Example.world_with2 Example.methane Example.methane)
  = (inr tt, Example.world_with2 Example.methane Example.methane).
Proof. reflexivity. Qed.

(** ** Force-field refinement *)

Section ForceField.

Context `{TK : RDKit}.

Lemma fresh_lookup_None (w : world) : heap w !! fresh (dom (heap w)) = None.
Proof. apply not_elem_of_dom, is_fresh. Qed.

Lemma objects_kept_insert_fresh (w : world) (m1 : Mol) d t :
  objects_kept w {| heap := <[fresh (dom (heap w)) := m1]> (heap w);
                    disabled_logs := d; trace := t |}.
Proof.
  intros l m H. simpl. rewrite lookup_insert_ne; [done|].
  intros <-. by rewrite fresh_lookup_None in H.
Qed.

(** [run_uff_opt], computed: one new object, one toolkit call. *)
Lemma run_uff_opt_eq (w : world) (mol : loc) (m : Mol) (max_iters : Z) :
  heap w !! mol = Some m ->
  let l := fresh (dom (heap w)) in
  let r := UFFOptimizeMolecule m max_iters in
  run_uff_opt mol max_iters w =
    (match r.2 with
     | inl e => inl e
     | inr z => if (z =? 0)%Z then inr l
                else inl (DockingError "UFF optimization of ligand failed")
     end,
     {| heap := <[l := r.1]> (heap w); disabled_logs := disabled_logs w;
        trace := Call_UFFOptimizeMolecule l max_iters :: trace w |}).
Proof.
  intros H l r.
  unfold run_uff_opt, copy_copy, in_place, mbind, M_bind, bind.
  rewrite (deref_Some _ _ _ H). simpl.
  unfold deref. simpl. rewrite lookup_insert_eq. simpl.
  rewrite insert_insert_eq. fold l. fold r.
  destruct r.2 as [e|z]; simpl; [done|].
  by destruct (z =? 0)%Z.
Qed.

(** [run_mmff94_opt], computed: one new object, and the optimization is
    called only when the sanitization raised nothing. *)
Lemma run_mmff94_opt_eq (w : world) (mol : loc) (m : Mol) (max_iters : Z) :
  heap w !! mol = Some m ->
  let l := fresh (dom (heap w)) in
  let s := MMFFSanitizeMolecule m in
  let r := MMFFOptimizeMolecule s.1 "MMFF94" max_iters in
  run_mmff94_opt mol max_iters w =
    match s.2 with
    | inl e =>
        (inl e, {| heap := <[l := s.1]> (heap w); disabled_logs := disabled_logs w;
                   trace := Call_MMFFSanitizeMolecule l :: trace w |})
    | inr _ =>
        (match r.2 with
         | inl e => inl e
         | inr z => if (z =? 0)%Z then inr l
                    else inl (DockingError "MMFF optimization of ligand failed")
         end,
         {| heap := <[l := r.1]> (heap w); disabled_logs := disabled_logs w;
            trace := Call_MMFFOptimizeMolecule l "MMFF94" max_iters
                     :: Call_MMFFSanitizeMolecule l :: trace w |})
    end.
Proof.
  intros H l s r.
  unfold run_mmff94_opt, copy_copy, in_place, mbind, M_bind, bind.
  rewrite (deref_Some _ _ _ H). simpl.
  unfold deref. simpl. rewrite lookup_insert_eq. simpl.
  rewrite insert_insert_eq. fold l. fold s.
  destruct s.2 as [e|[]]; simpl; [done|].
  rewrite lookup_insert_eq. simpl. rewrite insert_insert_eq. fold r.
  destruct r.2 as [e|z]; simpl; [done|].
  by destruct (z =? 0)%Z.
Qed.

Lemma objects_kept_trans (w1 w2 w3 : world) :
  objects_kept w1 w2 -> objects_kept w2 w3 -> objects_kept w1 w3.
Proof. intros H12 H23 l m H. eauto. Qed.

Lemma run_uff_opt_frame (w : world) (mol : loc) (m : Mol) (max_iters : Z) :
  heap w !! mol = Some m ->
  objects_kept w (run_uff_opt mol max_iters w).2
  /\ (forall l, (run_uff_opt mol max_iters w).1 = inr l -> heap w !! l = None)
  /\ exists l, trace (run_uff_opt mol max_iters w).2
               = Call_UFFOptimizeMolecule l max_iters :: trace w.
Proof.
  intros H. rewrite (run_uff_opt_eq _ _ _ _ H). simpl.
  split; [apply objects_kept_insert_fresh|]. split; [|eauto].
  intros l Hl. destruct (UFFOptimizeMolecule m max_iters).2 as [e|z]; [done|].
  destruct (z =? 0)%Z; [|done]. injection Hl as <-. apply fresh_lookup_None.
Qed.

Lemma run_mmff94_opt_frame (w : world) (mol : loc) (m : Mol) (max_iters : Z) :
  heap w !! mol = Some m ->
  objects_kept w (run_mmff94_opt mol max_iters w).2
  /\ (forall l, (run_mmff94_opt mol max_iters w).1 = inr l -> heap w !! l = None)
  /\ exists new, trace (run_mmff94_opt mol max_iters w).2 = (new ++ trace w)%list
                 /\ existsb is_uff_call new = false.
Proof.
  intros H. rewrite (run_mmff94_opt_eq _ _ _ _ H).
  destruct (MMFFSanitizeMolecule m).2 as [e|[]]; simpl.
  - split; [apply objects_kept_insert_fresh|]. split; [done|].
    by exists [Call_MMFFSanitizeMolecule (fresh (dom (heap w)))].
  - split; [apply objects_kept_insert_fresh|]. split.
    + intros l Hl.
      destruct (MMFFOptimizeMolecule _ _ _).2 as [e|z]; [done|].
      destruct (z =? 0)%Z; [|done]. injection Hl as <-. apply fresh_lookup_None.
    + by exists [Call_MMFFOptimizeMolecule (fresh (dom (heap w))) "MMFF94" max_iters;
                 Call_MMFFSanitizeMolecule (fresh (dom (heap w)))].
Qed.

(** [refine_mol_with_ff], computed from its two sub-steps. *)
Lemma refine_mol_with_ff_eq (w : world) (mol : loc) (m : Mol) (max_iters : Z) :
  heap w !! mol = Some m ->
  refine_mol_with_ff mol max_iters w =
    if MMFFHasAllMoleculeParams m then
      match run_mmff94_opt mol max_iters w with
      | (inl (KekulizeException msg), w1) =>
          run_uff_opt mol max_iters
            {| heap := heap w1; disabled_logs := disabled_logs w1;
               trace := Call_logging_info ("Ligand optimization with MMFF94 failed: "
                                           ++ msg ++ ", trying UFF") :: trace w1 |}
      | r => r
      end
    else if UFFHasAllMoleculeParams m then run_uff_opt mol max_iters w
    else (inl (DockingError "Cannot optimize ligand: parameters not available"), w).
Proof.
  intros H. unfold refine_mol_with_ff, mbind, M_bind, bind.
  rewrite (deref_Some _ _ _ H).
  destruct (MMFFHasAllMoleculeParams m); [|by destruct (UFFHasAllMoleculeParams m)].
  unfold try_except.
  destruct (run_mmff94_opt mol max_iters w) as [[e|l] w1]; [|done].
  by destruct e.
Qed.

(** C10: the two optimizations and [refine_mol_with_ff] leave the molecule
    passed in, and every other object there was, as they were, whether
    they return or raise; what they return is a new object. *)
Theorem force_field_keeps_input (w : world) (mol : loc) (m : Mol) (max_iters : Z) :
  heap w !! mol = Some m ->
  forall f, f ∈ [run_mmff94_opt; run_uff_opt; refine_mol_with_ff] ->
    heap (f mol max_iters w).2 !! mol = Some m
    /\ objects_kept w (f mol max_iters w).2
    /\ (forall l, (f mol max_iters w).1 = inr l -> l <> mol /\ heap w !! l = None).
Proof.
  intros H f Hf.
  assert (objects_kept w (f mol max_iters w).2
          /\ (forall l, (f mol max_iters w).1 = inr l -> heap w !! l = None))
    as [Hk Hn].
  { apply elem_of_cons in Hf as [->|Hf]; [|apply elem_of_cons in Hf as [->|Hf]].
    - destruct (run_mmff94_opt_frame _ _ _ max_iters H) as (? & ? & _); auto.
    - destruct (run_uff_opt_frame _ _ _ max_iters H) as (? & ? & _); auto.
    - apply list_elem_of_singleton in Hf as ->.
      rewrite (refine_mol_with_ff_eq _ _ _ _ H).
      destruct (MMFFHasAllMoleculeParams m).
      + destruct (run_mmff94_opt_frame _ _ _ max_iters H) as (Hk1 & Hn1 & _).
        destruct (run_mmff94_opt mol max_iters w) as [[e|l] w1] eqn:E; [|auto].
        destruct e as [| msg | |]; auto. simpl in Hk1.
        set (w2 := {| heap := heap w1 |}).
        assert (heap w2 !! mol = Some m) as H2 by (apply Hk1, H).
        destruct (run_uff_opt_frame _ _ _ max_iters H2) as (Hk2 & Hn2 & _).
        split.
        * intros l' m' Hl'. apply Hk2, Hk1, Hl'.
        * intros l' Hl'. specialize (Hn2 _ Hl'). simpl in Hn2.
          destruct (heap w !! l') eqn:E'; [|done].
          apply Hk1 in E'. congruence.
      + destruct (UFFHasAllMoleculeParams m).
        * destruct (run_uff_opt_frame _ _ _ max_iters H) as (? & ? & _); auto.
        * simpl. split; [by intros ? ?|done]. }
  split; [by apply Hk|]. split; [done|].
  intros l Hl. split; [|by apply Hn]. intros ->. apply Hn in Hl. congruence.
Qed.

(** C2: on a molecule in the heap, [refine_mol_with_ff] calls the UFF
    optimization in exactly two cases: MMFF94 has all parameters and
    [run_mmff94_opt] raises KekulizeException, or MMFF94 lacks parameters
    and UFF has them.  With neither set of parameters it raises
    DockingError and does nothing else. *)
Theorem refine_mol_with_ff_fallback (w : world) (mol : loc) (m : Mol) (max_iters : Z) :
  heap w !! mol = Some m ->
  (uff_called w (refine_mol_with_ff mol max_iters w).2 <->
     (MMFFHasAllMoleculeParams m = true
      /\ exists msg, (run_mmff94_opt mol max_iters w).1 = inl (KekulizeException msg))
     \/ (MMFFHasAllMoleculeParams m = false /\ UFFHasAllMoleculeParams m = true))
  /\ (MMFFHasAllMoleculeParams m = false -> UFFHasAllMoleculeParams m = false ->
      refine_mol_with_ff mol max_iters w
      = (inl (DockingError "Cannot optimize ligand: parameters not available"), w)).
Proof.
  intros H. rewrite (refine_mol_with_ff_eq _ _ _ _ H).
  assert (forall w0 new, trace w0 = (new ++ trace w)%list ->
            existsb is_uff_call new = false -> ~ uff_called w w0) as Hno.
  { intros w0 new E Hnew (new' & E' & Hnew'). rewrite E in E'.
    apply app_inv_tail in E'. congruence. }
  destruct (MMFFHasAllMoleculeParams m).
  - split; [|done].
    destruct (run_mmff94_opt_frame _ _ _ max_iters H) as (Hk1 & _ & new & Ht & Hnew).
    destruct (run_mmff94_opt mol max_iters w) as [[e|l] w1] eqn:E; simpl in *.
    + destruct e as [msg0 | msg | | name];
        try (split; [intros Hu; by destruct (Hno _ _ Ht Hnew)
                    | intros [[_ [? ?]]|[? _]]; done]).
      split; [intros _; left; eauto|intros _].
      set (w2 := {| heap := heap w1 |}).
      assert (heap w2 !! mol = Some m) as H2 by (apply Hk1, H).
      destruct (run_uff_opt_frame _ _ _ max_iters H2) as (_ & _ & l & Hl).
      exists (Call_UFFOptimizeMolecule l max_iters
                :: Call_logging_info ("Ligand optimization with MMFF94 failed: "
                                      ++ msg ++ ", trying UFF") :: new).
      split; [|done]. rewrite Hl. simpl. by rewrite Ht.
    + split; [intros Hu; by destruct (Hno _ _ Ht Hnew)
             | intros [[_ [? ?]]|[? _]]; done].
  - destruct (UFFHasAllMoleculeParams m).
    + split; [|done]. split; [intros _; right; done|intros _].
      destruct (run_uff_opt_frame _ _ _ max_iters H) as (_ & _ & l & Hl).
      exists [Call_UFFOptimizeMolecule l max_iters]. by rewrite Hl.
    + split; [|done]. simpl.
      split; [intros Hu; by destruct (Hno w [] eq_refl eq_refl)
             | intros [[? _]|[_ ?]]; done].
Qed.

End ForceField.

Lemma force_field_keeps_input_witness :
  let w := Example.world_with Example.unkekulizable in
  heap (refine_mol_with_ff 1%positive 1000 w).2 !! 1%positive
  = Some Example.unkekulizable
  /\ objects_kept w (refine_mol_with_ff 1%positive 1000 w).2
  /\ (forall l, (refine_mol_with_ff 1%positive 1000 w).1 = inr l ->
      l <> 1%positive /\ heap w !! l = None).
Proof.
  apply (force_field_keeps_input (TK := Example.toolkit)
           _ _ Example.unkekulizable 1000).
  - reflexivity.
  - do 2 right. left.
Defined.

Lemma refine_mol_with_ff_fallback_witness :
  let w := Example.world_with Example.unkekulizable in
  (uff_called w (refine_mol_with_ff 1%positive 1000 w).2 <->
     (Example.mmff_params Example.unkekulizable = true
      /\ exists msg, (run_mmff94_opt 1%positive 1000 w).1 = inl (KekulizeException msg))
     \/ (Example.mmff_params Example.unkekulizable = false
         /\ Example.uff_params Example.unkekulizable = true))
  /\ (Example.mmff_params Example.unkekulizable = false ->
      Example.uff_params Example.unkekulizable = false ->
      refine_mol_with_ff 1%positive 1000 w
      = (inl (DockingError "Cannot optimize ligand: parameters not available"), w)).
Proof.
  apply (refine_mol_with_ff_fallback (TK := Example.toolkit)
           _ _ Example.unkekulizable 1000).
  reflexivity.
Defined.

(** A failed optimization: DockingError, and the caller's molecule is as
    before. *)
Example refine_mol_with_ff_fails :
  let w := Example.world_with Example.unconverging in
  (refine_mol_with_ff 1%positive 1000 w).1
  = inl (DockingError "UFF optimization of ligand failed")
  /\ heap (refine_mol_with_ff 1%positive 1000 w).2 !! 1%positive
     = Some Example.unconverging.
Proof. vm_compute. auto. Qed.

(** The fallback at work: sanitization for MMFF94 raises, UFF runs on a
    second copy, and the caller's molecule is as before. *)
Example refine_mol_with_ff_falls_back :
  let w := Example.world_with Example.unkekulizable in
  (refine_mol_with_ff 1%positive 1000 w).1 = inr 3%positive
  /\ trace (refine_mol_with_ff 1%positive 1000 w).2
     = [Call_UFFOptimizeMolecule 3%positive 1000;
        Call_logging_info
          "Ligand optimization with MMFF94 failed: Can't kekulize mol., trying UFF";
        Call_MMFFSanitizeMolecule 2%positive]
  /\ heap (refine_mol_with_ff 1%positive 1000 w).2 !! 1%positive
     = Some Example.unkekulizable.
Proof. vm_compute. auto. Qed.

(** ** The matcher and the words of a pattern *)

Section Matcher.

Local Open Scope nat_scope.
Local Open Scope list_scope.

Implicit Types (r : regex) (st : mstate) (k : cont) (w : list ascii).

Lemma consumed_refl st : consumed st st [].
Proof. split; simpl; [done | lia]. Qed.

Lemma consumed_trans st1 st2 st3 w1 w2 :
  consumed st1 st2 w1 -> consumed st2 st3 w2 -> consumed st1 st3 (w1 ++ w2).
Proof.
  intros [R1 P1] [R2 P2]. split.
  - by rewrite R1, R2, <- app_assoc.
  - rewrite P2, P1, length_app. lia.
Qed.

Lemma step_inv (p : ascii -> bool) st k res :
  step p st k = Some res ->
  exists c tl, remaining st = c :: tl /\ p c = true /\ k (advance st tl) = Some res.
Proof.
  unfold step. destruct (remaining st) as [|c tl]; [done|].
  destruct (p c) eqn:E; [|done]. eauto.
Qed.

Lemma consumed_advance st c tl :
  remaining st = c :: tl -> consumed st (advance st tl) [c].
Proof. intros R. split; simpl; [done | lia]. Qed.

(** Soundness of the loop, from the soundness of its body. *)
Lemma star_loop_sound r (body : mstate -> cont -> option mstate) :
  (forall st k res, body st k = Some res ->
     exists st' w, k st' = Some res /\ matches r w /\ consumed st st' w) ->
  forall fuel st k res, star_loop body fuel st k = Some res ->
    exists st' w, k st' = Some res /\ matches (Star r) w /\ consumed st st' w.
Proof.
  intros Hbody. induction fuel as [|n IH]; intros st k res H; simpl in H.
  - exists st, []. split; [done|]. split; [constructor | apply consumed_refl].
  - destruct (body st _) as [res'|] eqn:E.
    + injection H as ->. apply Hbody in E as (st1 & w1 & Hk & Hm1 & Hc1).
      destruct (_ <? _); [|done].
      apply IH in Hk as (st2 & w2 & Hk & Hm2 & Hc2).
      exists st2, (w1 ++ w2)%list. split; [done|].
      split; [by constructor | by eapply consumed_trans].
    + exists st, []. split; [done|]. split; [constructor | apply consumed_refl].
Qed.

(** Soundness: a successful match consumed a word of the pattern and
    handed the state after it to the continuation. *)
Lemma rmatch_sound r :
  forall st k res, rmatch r st k = Some res ->
    exists st' w, k st' = Some res /\ matches r w /\ consumed st st' w.
Proof.
  induction r as [|c|p|r1 IH1 r2 IH2|r1 IH1|r1 IH1|name r1 IH1| |];
    intros st k res H; cbn [rmatch] in H.
  - exists st, []. split; [done|]. split; [constructor | apply consumed_refl].
  - apply step_inv in H as (c' & tl & R & E & Hk). apply Ascii.eqb_eq in E as <-.
    exists (advance st tl), [c]. split; [done|].
    split; [constructor | by apply consumed_advance].
  - apply step_inv in H as (c & tl & R & E & Hk).
    exists (advance st tl), [c]. split; [done|].
    split; [by constructor | by apply consumed_advance].
  - apply IH1 in H as (st1 & w1 & Hk & Hm1 & Hc1).
    apply IH2 in Hk as (st2 & w2 & Hk & Hm2 & Hc2).
    exists st2, (w1 ++ w2)%list. split; [done|].
    split; [by constructor | by eapply consumed_trans].
  - destruct (rmatch r1 st k) as [res'|] eqn:E.
    + injection H as ->. apply IH1 in E as (st1 & w1 & Hk & Hm1 & Hc1).
      exists st1, w1. split; [done|]. split; [by constructor | done].
    + exists st, []. split; [done|]. split; [constructor | apply consumed_refl].
  - by apply (star_loop_sound r1 _ IH1) in H.
  - apply IH1 in H as (st1 & w1 & Hk & Hm1 & Hc1).
    exists (add_capture name st st1), w1. split; [done|].
    split; [by constructor | done].
  - destruct (pos st =? 0)%nat; [|done].
    exists st, []. split; [done|]. split; [constructor | apply consumed_refl].
  - exists st, []. split; [|split; [constructor | apply consumed_refl]].
    destruct (remaining st) as [|c [|? ?]]; [done| |done].
    by destruct (Ascii.eqb c newline).
Qed.

Lemma matches_alphabet (P : ascii -> Prop) r w :
  alphabet P r -> matches r w -> Forall P w.
Proof.
  intros Ha Hm. induction Hm; simpl in Ha; try (by constructor).
  - repeat constructor. auto.
  - destruct Ha. apply Forall_app; auto.
  - auto.
  - apply Forall_app; auto.
  - auto.
Qed.

Lemma matches_requires c r w : requires c r = true -> matches r w -> c ∈ w.
Proof.
  intros Hr Hm. induction Hm; simpl in Hr; try done.
  - apply Ascii.eqb_eq in Hr as ->. by left.
  - apply elem_of_app. apply orb_true_iff in Hr as [?|?]; auto.
  - auto.
Qed.

(** Completeness of the loop, from the completeness of its body. *)
Lemma star_loop_complete r (body : mstate -> cont -> option mstate) :
  (forall w, matches r w -> forall st k rest,
     remaining st = w ++ rest -> succeeds k (pos st + length w) rest ->
     is_Some (body st k)) ->
  forall w, matches (Star r) w -> forall fuel st k rest,
    remaining st = w ++ rest -> length (remaining st) < fuel ->
    succeeds k (pos st + length w) rest ->
    is_Some (star_loop body fuel st k).
Proof.
  intros Hbody w Hm. remember (Star r) as e eqn:Ee.
  induction Hm as [| | | | | | r'|r' w1 w2 Hm1 _ Hm2 IH2| | |]; try discriminate;
    injection Ee as ->; intros fuel st k rest R Hfuel Hk.
  - assert (is_Some (k st)) as Hst.
    { apply Hk; [simpl; lia | done]. }
    destruct fuel; simpl; [done|]. by destruct (body st _).
  - destruct w1 as [|c w1].
    { by apply (IH2 eq_refl fuel st k rest). }
    destruct fuel as [|n]; [lia|]. simpl.
    destruct (body st _) as [res|] eqn:E; [done|]. exfalso.
    assert (is_Some (body st (fun st' =>
              if length (remaining st') <? length (remaining st)
              then star_loop body n st' k else None))) as [res Hres];
      [|congruence].
    apply (Hbody _ Hm1 st _ (w2 ++ rest)).
    { by rewrite R, <- app_assoc. }
    intros st' Hp' Hr'.
    assert (length (remaining st') < length (remaining st)) as Hlt.
    { rewrite R, Hr', !length_app. simpl. lia. }
    apply Nat.ltb_lt in Hlt as Hltb. rewrite Hltb.
    apply (IH2 eq_refl n st' k rest); [done | lia |].
    intros st'' Hp'' Hr''. apply Hk; [|done].
    rewrite Hp'', Hp', length_app. lia.
Qed.

(** Completeness, for patterns without anchors: where a word of the
    pattern lies ahead and the continuation succeeds after it, the match
    succeeds (maybe on another word, by priority). *)
Lemma rmatch_complete r :
  anchor_free r = true ->
  forall w, matches r w -> forall st k rest,
    remaining st = w ++ rest -> succeeds k (pos st + length w) rest ->
    is_Some (rmatch r st k).
Proof.
  induction r as [|c|p|r1 IH1 r2 IH2|r1 IH1|r1 IH1|name r1 IH1| |];
    intros Ha w Hm st k rest R Hk; cbn [rmatch]; simpl in Ha; try discriminate.
  - inversion Hm; subst. apply Hk; [simpl; lia | done].
  - inversion Hm; subst. unfold step. rewrite R. simpl.
    rewrite Ascii.eqb_refl. apply Hk; simpl; [lia | done].
  - inversion Hm as [| |p' c Hp| | | | | | | |]; subst. unfold step. rewrite R. simpl.
    rewrite Hp. apply Hk; simpl; [lia | done].
  - apply andb_true_iff in Ha as [Ha1 Ha2].
    inversion Hm as [| | |? ? w1 w2 Hm1 Hm2| | | | | | |]; subst.
    apply (IH1 Ha1 _ Hm1 st _ (w2 ++ rest)).
    { by rewrite R, <- app_assoc. }
    intros st' Hp' Hr'. apply (IH2 Ha2 _ Hm2 st' k rest); [done|].
    intros st'' Hp'' Hr''. apply Hk; [|done]. rewrite Hp'', Hp', length_app. lia.
  - inversion Hm as [| | | |?|? ? Hm1| | | | |]; subst.
    + destruct (rmatch r1 st k); [done|]. apply Hk; [simpl; lia | done].
    + destruct (IH1 Ha _ Hm1 st k rest R Hk) as [res ->]. done.
  - apply (star_loop_complete r1 _ (IH1 Ha) w Hm _ st k rest); [done | lia | done].
  - inversion Hm as [| | | | | | | |? ? ? Hm1| |]; subst.
    apply (IH1 Ha _ Hm1 st _ rest R).
    intros st' Hp' Hr'. by apply Hk.
Qed.

Lemma rmatch_Cat r1 r2 st k :
  rmatch (Cat r1 r2) st k = rmatch r1 st (fun st' => rmatch r2 st' k).
Proof. reflexivity. Qed.

Lemma rmatch_Group name r st k :
  rmatch (Group name r) st k = rmatch r st (fun st' => k (add_capture name st st')).
Proof. reflexivity. Qed.

Lemma matches_Str s : matches (Str s) s.
Proof.
  induction s as [|c s IH]; simpl; [constructor|].
  change (c :: s) with ([c] ++ s). by repeat constructor.
Qed.

Lemma matches_Str_inv s w : matches (Str s) w -> w = s.
Proof.
  revert w. induction s as [|c s IH]; intros w Hm; simpl in Hm.
  - by inversion Hm.
  - inversion Hm as [| | |? ? w1 w2 Hm1 Hm2| | | | | | |]; subst.
    inversion Hm1; subst. simpl. f_equal. by apply IH.
Qed.

Lemma matches_Star_Class (p : ascii -> bool) w :
  Forall (fun c => p c = true) w -> matches (Star (Class p)) w.
Proof.
  induction 1 as [|c w Hc _ IH]; [constructor|].
  change (c :: w) with ([c] ++ w). constructor; [by constructor | done].
Qed.

End Matcher.

(** ** Lines of a text *)

Section Lines.

Local Open Scope list_scope.

Lemma list_ascii_of_string_app (a b : string) :
  list_ascii_of_string (a ++ b)%string
  = list_ascii_of_string a ++ list_ascii_of_string b.
Proof. induction a as [|c a IH]; simpl; [done | by rewrite IH]. Qed.

(** The text [f.read()] gives, as a list of characters. *)
Lemma read_list (content : string) :
  list_ascii_of_string (read content)
  = universal_newlines (list_ascii_of_string content).
Proof. unfold read. by rewrite list_ascii_of_string_of_list_ascii. Qed.

Lemma universal_newlines_cons (c : ascii) (tl : list ascii) :
  universal_newlines (c :: tl)
  = if Ascii.eqb c carriage_return
    then newline :: match tl with
                    | c' :: tl' =>
                        if Ascii.eqb c' newline then universal_newlines tl'
                        else universal_newlines tl
                    | [] => []
                    end
    else c :: universal_newlines tl.
Proof. done. Qed.

(** A text without carriage return is read as it is stored. *)
Lemma universal_newlines_id (l : list ascii) :
  carriage_return ∉ l -> universal_newlines l = l.
Proof.
  induction l as [|c l IH]; [done|]. intros [Hc Hl]%not_elem_of_cons. simpl.
  destruct (Ascii.eqb c carriage_return) eqn:E;
    [apply Ascii.eqb_eq in E; congruence|].
  by rewrite IH.
Qed.

(** The translation has no carriage return left. *)
Lemma universal_newlines_no_cr (l : list ascii) :
  carriage_return ∉ universal_newlines l.
Proof.
  assert (forall n l, length l <= n -> carriage_return ∉ universal_newlines l) as H.
  { clear l. induction n as [|n IH]; intros [|c l] Hl;
      try apply not_elem_of_nil; try (simpl in Hl; lia).
    rewrite universal_newlines_cons.
    destruct (Ascii.eqb c carriage_return) eqn:E.
    - apply not_elem_of_cons. split; [done|].
      destruct l as [|c' l]; [apply not_elem_of_nil|].
      destruct (Ascii.eqb c' newline); apply IH; simpl in *; lia.
    - apply not_elem_of_cons. split.
      + intros <-. by rewrite Ascii.eqb_refl in E.
      + apply IH. simpl in *. lia. }
  by apply (H (length l)).
Qed.

(** Translating a text cut in two: the parts are translated on their own,
    unless the cut falls inside a CR LF. *)
Lemma universal_newlines_app (x y : list ascii) :
  head y <> Some newline ->
  universal_newlines (x ++ y) = universal_newlines x ++ universal_newlines y.
Proof.
  intros Hy.
  assert (forall n x, length x <= n ->
            universal_newlines (x ++ y) = universal_newlines x ++ universal_newlines y) as H.
  { clear x. induction n as [|n IH]; intros [|c x] Hl; try done;
      try (simpl in Hl; lia).
    change ((c :: x) ++ y) with (c :: (x ++ y)).
    rewrite !universal_newlines_cons.
    destruct (Ascii.eqb c carriage_return) eqn:E.
    - change ((newline :: ?a) ++ ?b) with (newline :: (a ++ b)). f_equal.
      destruct x as [|c' x].
      + change ([] ++ y) with y. destruct y as [|c' y]; [done|].
        lazy beta match.
        destruct (Ascii.eqb c' newline) eqn:E'; [|done].
        apply Ascii.eqb_eq in E'. simpl in Hy. congruence.
      + change ((c' :: x) ++ y) with (c' :: (x ++ y)). lazy beta match.
        destruct (Ascii.eqb c' newline).
        * apply IH. simpl in *. lia.
        * apply (IH (c' :: x)). simpl in *. lia.
    - change ((c :: ?a) ++ ?b) with (c :: (a ++ b)). f_equal.
      apply IH. simpl in *. lia. }
  by apply (H (length x)).
Qed.

(** A stored text that ends in a line end is read as a text that ends in a
    newline. *)
Lemma universal_newlines_terminated (x : list ascii) (c : ascii) :
  c = newline \/ c = carriage_return ->
  exists t, universal_newlines (x ++ [c]) = t ++ [newline].
Proof.
  intros Hc.
  assert (universal_newlines [c] = [newline]) as Hone.
  { by destruct Hc as [-> | ->]. }
  assert (forall n x, length x <= n ->
            exists t, universal_newlines (x ++ [c]) = t ++ [newline]) as H.
  { clear x. induction n as [|n IH]; intros [|a x] Hl;
      try (simpl in Hl; lia); try (exists []; exact Hone).
    change ((a :: x) ++ [c]) with (a :: (x ++ [c])).
    rewrite universal_newlines_cons.
    destruct (Ascii.eqb a carriage_return) eqn:E.
    - destruct x as [|c' x].
      + change ([] ++ [c]) with [c]. lazy beta match.
        destruct (Ascii.eqb c newline) eqn:E'.
        * by exists [].
        * exists [newline]. by rewrite Hone.
      + change ((c' :: x) ++ [c]) with (c' :: (x ++ [c])). lazy beta match.
        destruct (Ascii.eqb c' newline).
        * destruct (IH x) as [t Ht]; [simpl in *; lia|].
          exists (newline :: t). by rewrite Ht.
        * destruct (IH (c' :: x)) as [t Ht]; [simpl in *; lia|].
          exists (newline :: t).
          change ((c' :: x) ++ [c]) with (c' :: (x ++ [c])) in Ht.
          by rewrite Ht.
    - destruct (IH x) as [t Ht]; [simpl in *; lia|].
      exists (a :: t). by rewrite Ht. }
  by apply (H (length x)).
Qed.

(** A text cut after a newline is read as the lines of the first part and
    then the lines of the second. *)
Lemma readlines_aux_app cur x y :
  readlines_aux cur (x ++ newline :: y)
  = readlines_aux cur (x ++ [newline]) ++ readlines_aux [] y.
Proof.
  revert cur. induction x as [|c x IH]; intros cur; simpl.
  - done.
  - destruct (Ascii.eqb c newline); simpl; by rewrite IH.
Qed.

(** A text without newline is at most one line. *)
Lemma readlines_aux_no_newline cur x :
  newline ∉ x ->
  readlines_aux cur x
  = match cur, x with
    | [], [] => []
    | _, _ => [string_of_list_ascii (rev cur ++ x)]
    end.
Proof.
  revert cur. induction x as [|c x IH]; intros cur Hn; simpl.
  - destruct cur; [done|]. by rewrite app_nil_r.
  - apply not_elem_of_cons in Hn as [Hc Hn].
    destruct (Ascii.eqb c newline) eqn:E; [apply Ascii.eqb_eq in E; congruence|].
    rewrite IH by done. simpl. rewrite <- app_assoc. simpl.
    by destruct cur, x.
Qed.

(** A stored text without carriage return is cut at its newlines. *)
Lemma readlines_no_cr (content : string) :
  carriage_return ∉ list_ascii_of_string content ->
  readlines content = readlines_aux [] (list_ascii_of_string content).
Proof.
  intros H. unfold readlines. by rewrite read_list, universal_newlines_id.
Qed.

(** After a complete line, LF, CR LF or CR at its end, a last line that has
    no line end is read as a line of its own. *)
Lemma readlines_unterminated (body e last : string) :
  e = nl \/ e = cr ->
  no_line_end last -> last <> "" ->
  readlines (body ++ e ++ last) = readlines (body ++ e) ++ [last].
Proof.
  intros He [Hn Hc] Hne. unfold readlines. rewrite !read_list.
  rewrite !list_ascii_of_string_app, app_assoc.
  rewrite universal_newlines_app.
  2:{ destruct last as [|c last]; [done|]. simpl. intros [= ->].
      apply Hn. simpl. apply elem_of_cons. by left. }
  rewrite (universal_newlines_id (list_ascii_of_string last)) by done.
  assert (exists c, (c = newline \/ c = carriage_return)
                    /\ list_ascii_of_string e = [c]) as (c & Hc' & ->).
  { destruct He as [-> | ->]; eexists; (split; [|done]); auto. }
  destruct (universal_newlines_terminated (list_ascii_of_string body) c Hc')
    as [t ->].
  rewrite <- app_assoc. simpl.
  rewrite readlines_aux_app. f_equal.
  rewrite readlines_aux_no_newline by done.
  destruct last as [|c0 last]; [done|]. simpl.
  by rewrite string_of_list_ascii_of_string.
Qed.

End Lines.

(** ** The search-box parser *)

Section ConfParser.

Context {pyfloat : Type} (float : string -> pyfloat).

Local Open Scope nat_scope.

(** The line pattern matches no text without a newline. *)
Lemma conf_re_needs_newline (line : string) (m : match_obj) :
  re_match conf_re line = Some m -> ~ no_newline line.
Proof.
  unfold re_match, match_at. intros H Hn.
  destruct (rmatch conf_re _ _) as [res|] eqn:E; [|done].
  apply rmatch_sound in E as (st' & w & _ & Hm & [R _]). simpl in R.
  apply Hn. rewrite R. apply elem_of_app. left.
  by apply (matches_requires newline conf_re).
Qed.

Lemma conf_line_no_match (d : gmap string pyfloat) (line : string) :
  re_match conf_re line = None -> conf_line float d line = d.
Proof. intros H. unfold conf_line. by rewrite H. Qed.

Lemma conf_line_match (d : gmap string pyfloat) (line : string) (m : match_obj) :
  re_match conf_re line = Some m ->
  conf_line float d line = <[group "key" m := float (group "value" m)]> d.
Proof. intros H. unfold conf_line. by rewrite H. Qed.

Lemma conf_line_no_newline (d : gmap string pyfloat) (line : string) :
  no_newline line -> conf_line float d line = d.
Proof.
  intros Hn. apply conf_line_no_match.
  destruct (re_match conf_re line) as [m|] eqn:E; [|done].
  by destruct (conf_re_needs_newline _ _ E).
Qed.

Lemma conf_scan_snoc (lines : list string) (line : string) :
  conf_scan float (lines ++ [line]) = conf_line float (conf_scan float lines) line.
Proof. unfold conf_scan. by rewrite fold_left_app. Qed.

(** The keys of the mapping are the keys of the matching lines. *)
Lemma dom_fold_conf_line (lines : list string) (d : gmap string pyfloat) :
  dom (fold_left (conf_line float) lines d) = dom d ∪ list_to_set (omap conf_key lines).
Proof.
  revert d. induction lines as [|line lines IH]; intros d; simpl.
  - set_solver.
  - rewrite IH. unfold conf_line, conf_key.
    destruct (re_match conf_re line) as [m|]; simpl; [|done].
    rewrite dom_insert_L. set_solver.
Qed.

Lemma size_conf_scan (lines : list string) :
  size (conf_scan float lines) = size (list_to_set (omap conf_key lines) : gset string).
Proof.
  rewrite <- size_dom. unfold conf_scan. rewrite dom_fold_conf_line.
  by rewrite dom_empty_L, (left_id_L ∅ (∪)).
Qed.

Lemma size_fold_conf_line (lines : list string) (d : gmap string pyfloat) :
  size (fold_left (conf_line float) lines d) <= size d + length lines.
Proof.
  revert d. induction lines as [|line lines IH]; intros d; simpl; [lia|].
  etrans; [apply IH|]. unfold conf_line.
  destruct (re_match conf_re line) as [m|]; [|lia].
  rewrite map_size_insert. case_match; unfold id; lia.
Qed.

(** Later lines without the key leave its value alone. *)
Lemma lookup_fold_conf_line (lines : list string) (d : gmap string pyfloat) (key : string) :
  (forall l, l ∈ lines -> conf_key l <> Some key) ->
  fold_left (conf_line float) lines d !! key = d !! key.
Proof.
  revert d. induction lines as [|line lines IH]; intros d Hk; simpl; [done|].
  rewrite IH by (intros l Hl; apply Hk; by right).
  specialize (Hk line ltac:(by left)). unfold conf_line, conf_key in *.
  destruct (re_match conf_re line) as [m|]; simpl in *; [|done].
  apply lookup_insert_ne. congruence.
Qed.

(** C3: the mapping is built line by line, a line that does not match
    changes nothing and a line that matches sets its key; the result is the
    mapping when it has exactly 6 entries and AssertionError otherwise,
    never DockingError.  A file of fewer than 6 lines always fails. *)
Theorem parse_search_box_conf_assertion (content : string) :
  let d := conf_scan float (readlines content) in
  (forall before line after, readlines content = (before ++ line :: after)%list ->
     d = fold_left (conf_line float) after
           (match re_match conf_re line with
            | Some m => <[group "key" m := float (group "value" m)]>
                          (conf_scan float before)
            | None => conf_scan float before
            end))
  /\ (size d = 6 -> parse_search_box_conf float content = inr d)
  /\ (size d <> 6 -> parse_search_box_conf float content = inl AssertionError)
  /\ (forall msg, parse_search_box_conf float content <> inl (DockingError msg))
  /\ (length (readlines content) < 6 ->
      parse_search_box_conf float content = inl AssertionError).
Proof.
  intros d. unfold parse_search_box_conf. fold d.
  split; [|split; [|split; [|split]]].
  - intros before line after E. unfold d, conf_scan. rewrite E.
    rewrite fold_left_app. simpl. unfold conf_line at 2.
    by destruct (re_match conf_re line).
  - intros E. by rewrite decide_True.
  - intros E. by rewrite decide_False.
  - intros msg. by destruct (decide (size d = 6)).
  - intros Hlen. rewrite decide_False; [done|].
    pose proof (size_fold_conf_line (readlines content) ∅) as Hs.
    rewrite map_size_empty in Hs. unfold d, conf_scan. lia.
Qed.

(** C8: a last line without a line end is skipped, whatever it holds, a
    well-formed [key = value] included.  The file is opened in text mode,
    where LF, CR LF and a lone CR each end a line: the last line has no
    line end when it holds neither LF nor CR.  After a complete line the
    file then reads as if the last line were not there, and a file that is
    that line alone gives the empty mapping.  On the lines as they are
    read: whatever the file, a last line that comes without its newline
    adds nothing to the mapping. *)
Theorem parse_search_box_conf_unterminated (body e last : string) :
  e = nl \/ e = cr ->
  no_line_end last ->
  (forall d, conf_line float d last = d)
  /\ conf_scan float (readlines (body ++ e ++ last))
     = conf_scan float (readlines (body ++ e))
  /\ parse_search_box_conf float (body ++ e ++ last)
     = parse_search_box_conf float (body ++ e)
  /\ conf_scan float (readlines last) = ∅
  /\ (forall content lines line,
        readlines content = (lines ++ [line])%list -> no_newline line ->
        conf_scan float (readlines content) = conf_scan float lines).
Proof.
  intros He Hn. pose proof Hn as [Hlf Hcr].
  assert (forall content lines line,
            readlines content = (lines ++ [line])%list -> no_newline line ->
            conf_scan float (readlines content) = conf_scan float lines) as Hread.
  { intros content lines line -> Hl. rewrite conf_scan_snoc.
    by apply conf_line_no_newline. }
  cut ((forall d, conf_line float d last = d)
       /\ conf_scan float (readlines (body ++ e ++ last))
          = conf_scan float (readlines (body ++ e))
       /\ parse_search_box_conf float (body ++ e ++ last)
          = parse_search_box_conf float (body ++ e)
       /\ conf_scan float (readlines last) = ∅).
  { intros (H1 & H2 & H3 & H4). done. }
  clear Hread.
  assert (conf_scan float (readlines (body ++ e ++ last))
          = conf_scan float (readlines (body ++ e))) as E.
  { destruct (decide (last = "")) as [->|Hne].
    - by destruct He as [-> | ->].
    - rewrite readlines_unterminated by done.
      rewrite conf_scan_snoc. by apply conf_line_no_newline. }
  split; [intros d; by apply conf_line_no_newline|].
  split; [done|]. split; [unfold parse_search_box_conf; by rewrite E|].
  rewrite readlines_no_cr by done.
  rewrite readlines_aux_no_newline by done.
  destruct last as [|c last]; [done|]. simpl.
  rewrite string_of_list_ascii_of_string.
  unfold conf_scan. simpl. by apply conf_line_no_newline.
Qed.

(** C9: a key given by several matching lines has the value of the last
    of them; the size of the mapping is the number of distinct keys of the
    matching lines, so that a file passes when its matching lines, however
    many, give 6 distinct keys. *)
Theorem parse_search_box_conf_duplicates
    (content : string) (before after : list string) (line : string) (m : match_obj) :
  readlines content = (before ++ line :: after)%list ->
  re_match conf_re line = Some m ->
  (forall l, l ∈ after -> conf_key l <> Some (group "key" m)) ->
  conf_scan float (readlines content) !! group "key" m = Some (float (group "value" m))
  /\ size (conf_scan float (readlines content))
     = size (list_to_set (omap conf_key (readlines content)) : gset string)
  /\ (size (list_to_set (omap conf_key (readlines content)) : gset string) = 6 ->
      parse_search_box_conf float content = inr (conf_scan float (readlines content))).
Proof.
  intros E Hm Hafter. split; [|split].
  - rewrite E. unfold conf_scan. rewrite fold_left_app. simpl.
    rewrite lookup_fold_conf_line by done.
    rewrite (conf_line_match _ _ _ Hm). apply lookup_insert_eq.
  - apply size_conf_scan.
  - intros H6. unfold parse_search_box_conf.
    rewrite decide_True; [done|]. by rewrite size_conf_scan.
Qed.

End ConfParser.

Lemma parse_search_box_conf_assertion_witness :
  parse_search_box_conf float_text five_lines = inl AssertionError.
Proof.
  apply (parse_search_box_conf_assertion float_text five_lines).
  vm_compute. lia.
Defined.

Lemma parse_search_box_conf_unterminated_witness :
  (forall d, conf_line float_text d "size_z = 20.0" = d)
  /\ conf_scan float_text (readlines six_lines_unterminated)
     = conf_scan float_text (readlines five_lines)
  /\ parse_search_box_conf float_text six_lines_unterminated
     = parse_search_box_conf float_text five_lines
  /\ conf_scan float_text (readlines "size_z = 20.0") = ∅
  /\ (forall content lines line,
        readlines content = (lines ++ [line])%list -> no_newline line ->
        conf_scan float_text (readlines content) = conf_scan float_text lines).
Proof.
  exact (parse_search_box_conf_unterminated float_text
           ("center_x = 1.0" ++ nl ++ "center_y = 2.0" ++ nl ++ "center_z = 3.0" ++ nl
            ++ "size_x = 20.0" ++ nl ++ "size_y = 20.0") nl "size_z = 20.0"
           (or_introl eq_refl)
           ltac:(split; apply (bool_decide_unpack _); vm_compute; reflexivity)).
Defined.

Lemma parse_search_box_conf_duplicates_witness :
  conf_scan float_text (readlines seven_lines) !! "size_x" = Some "20.0"
  /\ size (conf_scan float_text (readlines seven_lines))
     = size (list_to_set (omap conf_key (readlines seven_lines)) : gset string)
  /\ (size (list_to_set (omap conf_key (readlines seven_lines)) : gset string) = 6 ->
      parse_search_box_conf float_text seven_lines
      = inr (conf_scan float_text (readlines seven_lines))).
Proof.
  assert (forall l, l ∈ drop 6 (readlines seven_lines) ->
                    conf_key l <> Some (group "key" size_x_match)) as Hafter.
  { intros l Hl. vm_compute in Hl.
    repeat (apply elem_of_cons in Hl as [->|Hl]; [vm_compute; discriminate|]).
    by apply not_elem_of_nil in Hl. }
  exact (parse_search_box_conf_duplicates float_text seven_lines
           (take 5 (readlines seven_lines)) (drop 6 (readlines seven_lines))
           ("size_x = 20.0" ++ nl) size_x_match eq_refl eq_refl Hafter).
Defined.

(** The complete search box is read; without the last newline it is not;
    with [size_x] given twice it is, and the later value stands. *)
Example parse_search_box_conf_six_lines :
  parse_search_box_conf float_text six_lines
  = inr (list_to_map [("center_x", "1.0"); ("center_y", "2.0"); ("center_z", "3.0");
                      ("size_x", "20.0"); ("size_y", "20.0"); ("size_z", "20.0")]).
Proof. vm_compute. reflexivity. Qed.

Example parse_search_box_conf_six_lines_unterminated :
  parse_search_box_conf float_text six_lines_unterminated = inl AssertionError.
Proof. vm_compute. reflexivity. Qed.

(** In text mode a lone CR, and CR LF, end a line as LF does: the search
    box whose last line ends in CR is complete. *)
Example parse_search_box_conf_carriage_return :
  parse_search_box_conf float_text (six_lines_unterminated ++ cr)
  = parse_search_box_conf float_text six_lines
  /\ readlines ("a = 1" ++ cr ++ nl ++ "b = 2" ++ cr ++ "c")
     = ["a = 1" ++ nl; "b = 2" ++ nl; "c"].
Proof. split; vm_compute; reflexivity. Qed.

Example parse_search_box_conf_seven_lines :
  length (omap conf_key (readlines seven_lines)) = 7
  /\ parse_search_box_conf float_text seven_lines
     = inr (list_to_map [("center_x", "1.0"); ("center_y", "2.0"); ("center_z", "3.0");
                         ("size_x", "20.0"); ("size_y", "20.0"); ("size_z", "20.0")]).
Proof. split; vm_compute; reflexivity. Qed.

(** ** The score parser *)

Section ScoreParser.

Local Open Scope nat_scope.
Local Open Scope list_scope.

(** A match of [score_re] lies on a result, and its group [score] is the
    number of that result. *)
Lemma score_re_sound (b : bool) (p : nat) (s : list ascii) (st : mstate) :
  match_at score_re b p s = Some st ->
  exists ws num,
    s = results_marker ++ ws ++ num ++ remaining st
    /\ Forall (fun c => is_space c = true) ws
    /\ matches real_number_pattern num
    /\ pos st = p + length (results_marker ++ ws ++ num)
    /\ find_capture "score" (captures st) = Some num.
Proof.
  unfold match_at, score_re. rewrite rmatch_Cat. intros H.
  apply rmatch_sound in H as (st1 & w1 & H & Hm1 & [R1 P1]).
  apply matches_Str_inv in Hm1 as ->. rewrite rmatch_Cat in H.
  apply rmatch_sound in H as (st2 & ws & H & Hm2 & [R2 P2]).
  rewrite rmatch_Group in H.
  apply rmatch_sound in H as (st3 & num & H & Hm3 & [R3 P3]).
  unfold accept in H. destruct (b && _); [done|]. injection H as <-.
  exists ws, num. cbn [remaining pos captures start_state add_capture] in *.
  split; [by rewrite R1, R2, R3|].
  split; [by apply (matches_alphabet (fun c => is_space c = true)
                      (Star (Class is_space)) ws (fun c H => H))|].
  split; [done|]. split; [rewrite P3, P2, P1, !length_app; lia|].
  cbn [find_capture cap_name cap_text]. rewrite decide_True by done. f_equal.
  replace (pos st3 - pos st2) with (length num) by lia.
  rewrite R3. apply take_app_length.
Qed.

(** Where a result lies, [score_re] matches. *)
Lemma score_re_complete (p : nat) (s ws num rest : list ascii) :
  s = results_marker ++ ws ++ num ++ rest ->
  Forall (fun c => is_space c = true) ws ->
  matches real_number_pattern num ->
  is_Some (match_at score_re false p s).
Proof.
  intros -> Hws Hnum. unfold match_at.
  assert (matches score_re (results_marker ++ ws ++ num)) as Hm.
  { unfold score_re. constructor; [apply matches_Str|].
    constructor; [by apply matches_Star_Class | by constructor]. }
  apply (rmatch_complete score_re eq_refl _ Hm _ _ rest).
  - cbn [remaining start_state]. by rewrite <- !app_assoc.
  - intros st _ _. unfold accept. simpl. eauto.
Qed.

Lemma real_number_alphabet : alphabet not_R real_number_pattern.
Proof.
  unfold not_R. simpl.
  repeat split; try discriminate; intros c H ->; by vm_compute in H.
Qed.

Lemma drop_lt_cons {A} (l : list A) (j : nat) :
  j < length l -> exists c tl, drop j l = c :: tl /\ c ∈ l.
Proof.
  revert j. induction l as [|a l IH]; intros j Hj; simpl in Hj; [lia|].
  destruct j as [|j]; simpl.
  - exists a, l. split; [done | by left].
  - destruct (IH j ltac:(lia)) as (c & tl & E & Hc). exists c, tl.
    split; [done | by right].
Qed.

(** No result starts inside another one. *)
Lemma marker_not_inside (ws num rest more : list ascii) (i : nat) :
  Forall (fun c => is_space c = true) ws ->
  matches real_number_pattern num ->
  0 < i < length (results_marker ++ ws ++ num) ->
  drop i (results_marker ++ ws ++ num ++ rest) <> results_marker ++ more.
Proof.
  intros Hws Hnum Hi H.
  destruct (decide (i < length results_marker)) as [Hlt|Hge].
  - change (length results_marker) with 19 in Hlt.
    do 19 (destruct i as [|i]; [try lia; by vm_compute in H|]). lia.
  - rewrite drop_app_ge in H by lia.
    rewrite !length_app in Hi.
    rewrite app_assoc, drop_app_le in H by (rewrite length_app; lia).
    destruct (drop_lt_cons (ws ++ num) (i - length results_marker))
      as (c & tl & E & Hc); [rewrite length_app; lia|].
    rewrite E in H. injection H as -> _.
    apply elem_of_app in Hc as [Hc|Hc].
    + rewrite Forall_forall in Hws. apply Hws in Hc. by vm_compute in Hc.
    + pose proof (matches_alphabet _ _ _ real_number_alphabet Hnum) as Hn.
      rewrite Forall_forall in Hn. by apply Hn in Hc.
Qed.

Lemma result_at_app (pre s : list ascii) (i : nat) (num : list ascii) :
  result_at (pre ++ s) (length pre + i) num <-> result_at s i num.
Proof. unfold result_at. by rewrite drop_app_add. Qed.

Lemma result_at_here (ws num rest : list ascii) :
  Forall (fun c => is_space c = true) ws ->
  matches real_number_pattern num ->
  result_at (results_marker ++ ws ++ num ++ rest) 0 num.
Proof. intros Hws Hnum. by exists ws, rest. Qed.

Lemma result_at_nil (i : nat) (num : list ascii) : ~ result_at [] i num.
Proof. intros (ws & rest & H & _). by rewrite drop_nil in H. Qed.

(** The scan of [finditer] with [score_re] over the text [s] that starts
    at position [p]: the matches come in increasing position, they lie
    exactly on the results of [s], and each holds the number of its
    result. *)
Lemma finditer_from_score (fuel : nat) :
  forall (p : nat) (s : list ascii), length s < fuel ->
    let ms := finditer_from score_re fuel false p s in
    StronglySorted lt (map m_start ms)
    /\ (forall q, q ∈ map m_start ms <-> exists i num, q = p + i /\ result_at s i num)
    /\ (forall m, m ∈ ms ->
          exists i, m_start m = p + i
                    /\ result_at s i (list_ascii_of_string (group "score" m))).
Proof.
  induction fuel as [|n IH]; intros p s Hfuel; [lia|].
  cbn [finditer_from]. destruct (match_at score_re false p s) as [st|] eqn:E.
  - apply score_re_sound in E as (ws & num & Hs & Hws & Hnum & Hpos & Hcap).
    set (pre := results_marker ++ ws ++ num) in *.
    assert (s = pre ++ remaining st) as Hs'.
    { unfold pre. by rewrite <- !app_assoc. }
    assert (19 <= length pre) as Hpre.
    { unfold pre. rewrite length_app. change (length results_marker) with 19. lia. }
    assert (length s = length pre + length (remaining st)) as Hlen.
    { by rewrite Hs', length_app. }
    replace (pos st =? p) with false by (symmetry; apply Nat.eqb_neq; lia).
    destruct (IH (pos st) (remaining st) ltac:(lia)) as (Hsort & Hin & Hgrp).
    cbn zeta. cbn [map m_start to_match]. split; [|split].
    + constructor; [done|]. apply Forall_forall. intros q Hq.
      apply Hin in Hq as (i & num' & -> & _). lia.
    + intros q. rewrite elem_of_cons, Hin. split.
      * intros [->|(i & num' & -> & Hr)].
        -- exists 0, num. split; [lia|]. rewrite Hs. by apply result_at_here.
        -- exists (length pre + i), num'. split; [lia|].
           rewrite Hs'. by apply result_at_app.
      * intros (i & num' & -> & Hr).
        destruct (decide (i = 0)) as [->|Hi]; [left; lia|]. right.
        destruct (decide (i < length pre)) as [Hlt|Hge].
        -- exfalso. destruct Hr as (ws' & rest' & Hd & _). rewrite Hs in Hd.
           by apply (marker_not_inside ws num (remaining st) _ i Hws Hnum
                       ltac:(fold pre; lia)) in Hd.
        -- exists (i - length pre), num'. split; [lia|].
           apply (result_at_app pre). rewrite <- Hs'.
           by replace (length pre + (i - length pre)) with i by lia.
    + intros m Hm. apply elem_of_cons in Hm as [->|Hm].
      * exists 0. split; [simpl; lia|]. unfold group. cbn [m_captures to_match].
        rewrite Hcap, list_ascii_of_string_of_list_ascii, Hs.
        by apply result_at_here.
      * apply Hgrp in Hm as (i & Em & Hr). exists (length pre + i).
        split; [lia|]. rewrite Hs'. by apply result_at_app.
  - destruct s as [|c tl].
    + cbn zeta. simpl. split; [constructor|]. split.
      * intros q. split; [by intros ?%elem_of_nil|].
        intros (i & num & _ & Hr). by apply result_at_nil in Hr.
      * by intros m ?%elem_of_nil.
    + simpl in Hfuel.
      destruct (IH (S p) tl ltac:(lia)) as (Hsort & Hin & Hgrp).
      cbn zeta. split; [done|]. split.
      * intros q. rewrite Hin. split.
        -- intros (i & num & -> & Hr). exists (S i), num. split; [lia | done].
        -- intros (i & num & -> & Hr). destruct i as [|i].
           ++ exfalso. destruct Hr as (ws & rest & Hd & Hws & Hnum).
              cbn [drop] in Hd.
              destruct (score_re_complete p _ ws num rest Hd Hws Hnum) as [st Hst].
              congruence.
           ++ exists i, num. split; [lia | done].
      * intros m Hm. apply Hgrp in Hm as (i & Em & Hr). exists (S i).
        split; [lia | done].
Qed.

End ScoreParser.

(** ** More on the matcher: captures *)

Section Captures.

Local Open Scope nat_scope.
Local Open Scope list_scope.

Implicit Types (r : regex) (st : mstate) (k : cont) (w : list ascii).

Lemma captures_grow_refl r st : captures_grow r st st.
Proof. by exists []. Qed.

Lemma captures_grow_none r st st' :
  group_names r = [] -> captures_grow r st st' -> captures st' = captures st.
Proof.
  intros Hn (extra & E & Hall). rewrite Hn in Hall.
  destruct extra as [|c extra]; [done|].
  apply Forall_cons in Hall as [Hc _]. by apply elem_of_nil in Hc.
Qed.

Lemma star_loop_sound_captures r (body : mstate -> cont -> option mstate) :
  (forall st k res, body st k = Some res ->
     exists st' w, k st' = Some res /\ matches r w /\ consumed st st' w
                   /\ captures_grow r st st') ->
  forall fuel st k res, star_loop body fuel st k = Some res ->
    exists st' w, k st' = Some res /\ matches (Star r) w /\ consumed st st' w
                  /\ captures_grow (Star r) st st'.
Proof.
  intros Hbody. induction fuel as [|n IH]; intros st k res H; simpl in H.
  - exists st, []. split; [done|]. split; [constructor|].
    split; [apply consumed_refl | apply captures_grow_refl].
  - destruct (body st _) as [res'|] eqn:E.
    + injection H as ->. apply Hbody in E as (st1 & w1 & Hk & Hm1 & Hc1 & Hg1).
      destruct (_ <? _); [|done].
      apply IH in Hk as (st2 & w2 & Hk & Hm2 & Hc2 & Hg2).
      exists st2, (w1 ++ w2). split; [done|]. split; [by constructor|].
      split; [by eapply consumed_trans|].
      destruct Hg1 as (e1 & E1 & H1), Hg2 as (e2 & E2 & H2).
      exists (e2 ++ e1). split; [by rewrite E2, E1, app_assoc|].
      apply Forall_app. split; done.
    + exists st, []. split; [done|]. split; [constructor|].
      split; [apply consumed_refl | apply captures_grow_refl].
Qed.

(** Soundness, with the captures: a match adds captures of its own
    groups only, in front of those there were. *)
Lemma rmatch_sound_captures r :
  forall st k res, rmatch r st k = Some res ->
    exists st' w, k st' = Some res /\ matches r w /\ consumed st st' w
                  /\ captures_grow r st st'.
Proof.
  induction r as [|c|p|r1 IH1 r2 IH2|r1 IH1|r1 IH1|name r1 IH1| |];
    intros st k res H; cbn [rmatch] in H.
  - exists st, []. split; [done|]. split; [constructor|].
    split; [apply consumed_refl | apply captures_grow_refl].
  - apply step_inv in H as (c' & tl & R & E & Hk). apply Ascii.eqb_eq in E as <-.
    exists (advance st tl), [c]. split; [done|]. split; [constructor|].
    split; [by apply consumed_advance | by exists []].
  - apply step_inv in H as (c & tl & R & E & Hk).
    exists (advance st tl), [c]. split; [done|]. split; [by constructor|].
    split; [by apply consumed_advance | by exists []].
  - apply IH1 in H as (st1 & w1 & Hk & Hm1 & Hc1 & (e1 & E1 & H1)).
    apply IH2 in Hk as (st2 & w2 & Hk & Hm2 & Hc2 & (e2 & E2 & H2)).
    exists st2, (w1 ++ w2). split; [done|]. split; [by constructor|].
    split; [by eapply consumed_trans|].
    exists (e2 ++ e1). split; [by rewrite E2, E1, app_assoc|].
    cbn [group_names]. apply Forall_app. split.
    + eapply Forall_impl; [exact H2|]. intros c Hc. apply elem_of_app. by right.
    + eapply Forall_impl; [exact H1|]. intros c Hc. apply elem_of_app. by left.
  - destruct (rmatch r1 st k) as [res'|] eqn:E.
    + injection H as ->. apply IH1 in E as (st1 & w1 & Hk & Hm1 & Hc1 & Hg1).
      exists st1, w1. split; [done|]. split; [by constructor | done].
    + exists st, []. split; [done|]. split; [constructor|].
      split; [apply consumed_refl | apply captures_grow_refl].
  - by apply (star_loop_sound_captures r1 _ IH1) in H.
  - apply IH1 in H as (st1 & w1 & Hk & Hm1 & Hc1 & (e1 & E1 & H1)).
    exists (add_capture name st st1), w1. split; [done|].
    split; [by constructor|]. split; [done|].
    exists ({| cap_name := name; cap_start := pos st;
               cap_text := take (pos st1 - pos st) (remaining st) |} :: e1).
    split; [simpl; by rewrite E1|]. cbn [group_names]. constructor.
    + by left.
    + eapply Forall_impl; [exact H1|]. intros c Hc. by right.
  - destruct (pos st =? 0)%nat; [|done].
    exists st, []. split; [done|]. split; [constructor|].
    split; [apply consumed_refl | apply captures_grow_refl].
  - exists st, []. split; [|split; [constructor|split;
      [apply consumed_refl | apply captures_grow_refl]]].
    destruct (remaining st) as [|c [|? ?]]; [done| |done].
    by destruct (Ascii.eqb c newline).
Qed.

(** The text of a group is the word its pattern consumed. *)
Lemma add_capture_text name st st' w :
  consumed st st' w ->
  captures (add_capture name st st')
  = {| cap_name := name; cap_start := pos st; cap_text := w |} :: captures st'.
Proof.
  intros [R P]. unfold add_capture. simpl. do 2 f_equal.
  replace (pos st' - pos st) with (length w) by lia.
  rewrite R. apply take_app_length.
Qed.

Lemma find_capture_skip (name : string) (extra cs : list capture) :
  Forall (fun c => cap_name c <> Some name) extra ->
  find_capture name (extra ++ cs) = find_capture name cs.
Proof.
  induction 1 as [|c extra Hc _ IH]; simpl; [done|]. by rewrite decide_False.
Qed.

Lemma matches_Plus_Class (p : ascii -> bool) w :
  matches (Plus (Class p)) w -> w <> [] /\ Forall (fun c => p c = true) w.
Proof.
  intros Hm. unfold Plus in Hm.
  inversion Hm as [| | |? ? w1 w2 Hm1 Hm2| | | | | | |]; subst.
  inversion Hm1 as [| |? c Hc| | | | | | | |]; subst. split; [done|].
  constructor; [done|].
  by apply (matches_alphabet (fun c => p c = true) (Star (Class p)) w2 (fun c H => H)).
Qed.

Lemma matches_Plus_Class_intro (p : ascii -> bool) w :
  w <> [] -> Forall (fun c => p c = true) w -> matches (Plus (Class p)) w.
Proof.
  intros Hne Hall. destruct w as [|c w]; [done|].
  apply Forall_cons in Hall as [Hc Hall].
  change (c :: w) with ([c] ++ w). constructor; [by constructor|].
  by apply matches_Star_Class.
Qed.

Lemma eol_inv st k res :
  rmatch Eol st k = Some res ->
  k st = Some res /\ (remaining st = [] \/ remaining st = [newline]).
Proof.
  cbn [rmatch]. destruct (remaining st) as [|c [|? ?]]; [by auto| |done].
  destruct (Ascii.eqb c newline) eqn:E; [|done]. apply Ascii.eqb_eq in E as ->. auto.
Qed.

End Captures.

(** ** The line pattern of the search-box parser *)

Section ConfLine.

Local Open Scope nat_scope.
Local Open Scope list_scope.

(** The shape of a line [conf_re] matches, and what its groups hold. *)
Lemma conf_re_shape (line : string) (m : match_obj) :
  re_match conf_re line = Some m ->
  exists key ws1 ws2 value ws3 tail : list ascii,
    list_ascii_of_string line
    = key ++ ws1 ++ "="%char :: ws2 ++ value ++ ws3 ++ newline :: tail
    /\ (tail = [] \/ tail = [newline])
    /\ key <> [] /\ Forall (fun c => is_word c = true) key
    /\ Forall (fun c => is_space c = true) ws1
    /\ Forall (fun c => is_space c = true) ws2
    /\ Forall (fun c => is_space c = true) ws3
    /\ matches real_number_pattern value
    /\ group "key" m = string_of_list_ascii key
    /\ group "value" m = string_of_list_ascii value.
Proof.
  unfold re_match, match_at, conf_re. intros H.
  destruct (rmatch _ _ _) as [res|] eqn:E; [|done]. injection H as <-.
  rewrite rmatch_Cat in E. change (rmatch Bol ?st ?k) with (k st) in E. cbv beta in E.
  rewrite rmatch_Cat, rmatch_Group in E.
  apply rmatch_sound_captures in E as (st1 & key & E & Hkey & Ck & Gk).
  apply captures_grow_none in Gk; [|reflexivity].
  pose proof (add_capture_text (Some "key") _ _ _ Ck) as Kcap.
  set (st1' := add_capture (Some "key") _ st1) in *.
  rewrite rmatch_Cat in E.
  apply rmatch_sound_captures in E as (st2 & ws1 & E & Hws1 & C1 & G1).
  apply captures_grow_none in G1; [|reflexivity].
  rewrite rmatch_Cat in E.
  apply rmatch_sound_captures in E as (st3 & eq & E & Heq & C2 & G2).
  apply captures_grow_none in G2; [|reflexivity]. inversion Heq; subst.
  rewrite rmatch_Cat in E.
  apply rmatch_sound_captures in E as (st4 & ws2 & E & Hws2 & C3 & G3).
  apply captures_grow_none in G3; [|reflexivity].
  rewrite rmatch_Cat, rmatch_Group in E.
  apply rmatch_sound_captures in E as (st5 & value & E & Hval & C4 & (e5 & G4 & Hn5)).
  pose proof (add_capture_text (Some "value") _ _ _ C4) as Vcap.
  set (st5' := add_capture (Some "value") _ st5) in *.
  rewrite rmatch_Cat in E.
  apply rmatch_sound_captures in E as (st6 & ws3 & E & Hws3 & C5 & G5).
  apply captures_grow_none in G5; [|reflexivity].
  rewrite rmatch_Cat in E.
  apply rmatch_sound_captures in E as (st7 & nlw & E & Hnl & C6 & G6).
  apply captures_grow_none in G6; [|reflexivity]. inversion Hnl; subst.
  apply eol_inv in E as [E Htail]. unfold accept in E. simpl in E. injection E as <-.
  exists key, ws1, ws2, value, ws3, (remaining st7).
  destruct Ck as [Rk _], C1 as [R1 _], C2 as [R2 _], C3 as [R3 _], C4 as [R4 _],
    C5 as [R5 _], C6 as [R6 _].
  assert (remaining st1' = remaining st1) as Rk' by done.
  assert (remaining st5' = remaining st5) as R4' by done.
  apply matches_Plus_Class in Hkey as [Hne Hkey].
  split.
  { cbn [remaining start_state] in Rk.
    rewrite Rk, <- Rk', R1, R2, R3, R4, <- R4', R5, R6. done. }
  split; [done|]. split; [done|]. split; [done|].
  split; [by apply (matches_alphabet (fun c => is_space c = true)
                      (Star (Class is_space)) ws1 (fun c H => H))|].
  split; [by apply (matches_alphabet (fun c => is_space c = true)
                      (Star (Class is_space)) ws2 (fun c H => H))|].
  split; [by apply (matches_alphabet (fun c => is_space c = true)
                      (Star (Class is_space)) ws3 (fun c H => H))|].
  split; [done|].
  assert (captures st7
          = {| cap_name := Some "value"; cap_start := pos st4; cap_text := value |}
            :: e5 ++ [{| cap_name := Some "key"; cap_start := 0; cap_text := key |}])
    as Hcaps.
  { rewrite G6, G5, Vcap, G4, G3, G2, G1, Kcap, Gk. done. }
  unfold group. cbn [m_captures to_match]. rewrite Hcaps. split.
  - cbn [find_capture cap_name]. rewrite decide_False by done.
    rewrite find_capture_skip.
    + cbn [find_capture cap_name cap_text]. by rewrite decide_True.
    + eapply Forall_impl; [exact Hn5|]. intros c Hc. simpl in Hc.
      apply list_elem_of_singleton in Hc. by rewrite Hc.
  - cbn [find_capture cap_name cap_text]. by rewrite decide_True.
Qed.

Lemma space_not_word (c : ascii) : is_space c = true -> is_word c = false.
Proof. by destruct c as [[] [] [] [] [] [] [] []]. Qed.

Lemma number_alphabet_not_space :
  alphabet (fun c => is_space c = false) real_number_pattern.
Proof.
  simpl. repeat split; try done;
    intros c H; by destruct c as [[] [] [] [] [] [] [] []].
Qed.

Lemma matches_nil_nullable r w : matches r w -> w = [] -> nullable r = true.
Proof.
  induction 1 as [| | |r1 r2 w1 w2 _ IH1 _ IH2| | | | |name r1 w1 _ IH| |];
    intros E; simpl; try done.
  - apply app_eq_nil in E as [-> ->]. by rewrite IH1, IH2.
  - by apply IH.
Qed.

(** A number has at least one character, and no white space. *)
Lemma number_not_empty (w : list ascii) :
  matches real_number_pattern w ->
  exists c w', w = c :: w' /\ Forall (fun c => is_space c = false) (c :: w').
Proof.
  intros Hm. destruct w as [|c w'].
  - by apply matches_nil_nullable in Hm.
  - exists c, w'. split; [done|].
    by apply (matches_alphabet _ _ _ number_alphabet_not_space).
Qed.

(** Two ways to cut a list after a longest run of [P] are the same. *)
Lemma span_unique {A} (P : A -> Prop) (l1 l2 : list A) (x y : A) (r1 r2 : list A) :
  Forall P l1 -> Forall P l2 -> ~ P x -> ~ P y ->
  l1 ++ x :: r1 = l2 ++ y :: r2 ->
  l1 = l2 /\ x = y /\ r1 = r2.
Proof.
  intros H1. revert l2. induction H1 as [|a l1 Ha _ IH]; intros l2 H2 Hx Hy E.
  - destruct H2 as [|b l2 Hb _]; simpl in E.
    + by injection E as -> ->.
    + injection E as -> _. done.
  - destruct H2 as [|b l2 Hb H2]; simpl in E.
    + injection E as -> _. done.
    + injection E as -> E. destruct (IH l2 H2 Hx Hy E) as (-> & -> & ->). done.
Qed.

(** The same, when what follows the run is a run of [Q] closed by [z],
    and neither [Q] nor [z] is in [P]. *)
Lemma span_unique_run {A} (P Q : A -> Prop) (z : A)
    (l1 l2 m1 m2 r1 r2 : list A) :
  (forall a, Q a -> ~ P a) -> ~ P z ->
  Forall P l1 -> Forall P l2 -> Forall Q m1 -> Forall Q m2 ->
  l1 ++ m1 ++ z :: r1 = l2 ++ m2 ++ z :: r2 ->
  l1 = l2 /\ m1 ++ z :: r1 = m2 ++ z :: r2.
Proof.
  intros HQ Hz H1 H2 Hm1 Hm2 E.
  assert (forall m r, Forall Q m -> exists x t, m ++ z :: r = x :: t /\ ~ P x) as Hhead.
  { intros m r Hm. destruct Hm as [|a m Ha _]; simpl; eauto. }
  destruct (Hhead m1 r1 Hm1) as (x & t & E1 & Hx).
  destruct (Hhead m2 r2 Hm2) as (y & u & E2 & Hy).
  rewrite E1, E2 in *.
  by apply (span_unique P) in E as (-> & -> & ->).
Qed.

(** A line that does not start with a word character does not match:
    blank lines, indented lines and comment lines are skipped. *)
Lemma conf_re_first_char (line : string) (m : match_obj) :
  re_match conf_re line = Some m ->
  exists c rest, line = String c rest /\ is_word c = true.
Proof.
  intros H. apply conf_re_shape in H
    as (key & ws1 & ws2 & value & ws3 & tail & E & _ & Hne & Hkey & _).
  destruct key as [|c key]; [done|]. apply Forall_cons in Hkey as [Hc _].
  destruct line as [|c' rest]; [done|]. simpl in E. injection E as -> _.
  by exists c, rest.
Qed.

(** Completeness over a sequence: the first part consumes its word and
    the rest of the pattern takes over. *)
Lemma rmatch_Cat_complete r1 r2 (w rest : list ascii) (st : mstate) (k : cont) :
  anchor_free r1 = true -> matches r1 w -> remaining st = w ++ rest ->
  (forall st', pos st' = pos st + length w -> remaining st' = rest ->
               is_Some (rmatch r2 st' k)) ->
  is_Some (rmatch (Cat r1 r2) st k).
Proof.
  intros Ha Hm R Hk. rewrite rmatch_Cat.
  by apply (rmatch_complete r1 Ha w Hm st _ rest R).
Qed.

(** [conf_re] matches every line of the shape key, blanks, [=], blanks,
    number, blanks, newline. *)
Lemma conf_re_complete (key ws1 ws2 value ws3 : list ascii) :
  key <> [] -> Forall (fun c => is_word c = true) key ->
  Forall (fun c => is_space c = true) ws1 ->
  Forall (fun c => is_space c = true) ws2 ->
  Forall (fun c => is_space c = true) ws3 ->
  matches real_number_pattern value ->
  is_Some (match_at conf_re false 0
             (key ++ ws1 ++ "="%char :: ws2 ++ value ++ ws3 ++ [newline])).
Proof.
  intros Hne Hkey H1 H2 H3 Hval. unfold match_at, conf_re.
  rewrite rmatch_Cat. change (rmatch Bol ?st ?k) with (k st). cbv beta.
  eapply (rmatch_Cat_complete _ _ key); [done| | reflexivity |].
  { constructor. by apply matches_Plus_Class_intro. }
  intros st1 _ R1.
  eapply (rmatch_Cat_complete _ _ ws1); [done| | done |].
  { by apply matches_Star_Class. }
  intros st2 _ R2.
  eapply (rmatch_Cat_complete _ _ ["="%char]); [done| | exact R2 |].
  { constructor. }
  intros st3 _ R3.
  eapply (rmatch_Cat_complete _ _ ws2); [done| | done |].
  { by apply matches_Star_Class. }
  intros st4 _ R4.
  eapply (rmatch_Cat_complete _ _ value); [done| | done |].
  { by constructor. }
  intros st5 _ R5.
  eapply (rmatch_Cat_complete _ _ ws3); [done| | done |].
  { by apply matches_Star_Class. }
  intros st6 _ R6.
  eapply (rmatch_Cat_complete _ _ [newline] []); [done| | done |].
  { constructor. }
  intros st7 _ R7. cbn [rmatch]. rewrite R7. unfold accept. simpl. eauto.
Qed.

End ConfLine.

(** ** The number pattern read from left to right *)

Section Greedy.

Local Open Scope nat_scope.
Local Open Scope list_scope.

Implicit Types (k : cont) (s run rest : list ascii) (caps : list capture).

Lemma split_run_eq p s : s = (split_run p s).1 ++ (split_run p s).2.
Proof.
  induction s as [|c s IH]; [done|]. simpl. destruct (p c); [|done].
  destruct (split_run p s) as [run rest]. simpl in *. by rewrite IH at 1.
Qed.

Lemma split_run_all p s : Forall (fun c => p c = true) (split_run p s).1.
Proof.
  induction s as [|c s IH]; [constructor|]. simpl. destruct (p c) eqn:E; [|constructor].
  destruct (split_run p s) as [run rest]. simpl in *. by constructor.
Qed.

Lemma split_run_stops p s c :
  head (split_run p s).2 = Some c -> p c = false.
Proof.
  induction s as [|a s IH]; [done|]. simpl. destruct (p a) eqn:E.
  - destruct (split_run p s) as [run rest]. simpl in *. done.
  - simpl. by intros [= <-].
Qed.

(** The run found by [split_run] is the only one that stops. *)
Lemma split_run_unique p run rest :
  Forall (fun c => p c = true) run ->
  (forall c, head rest = Some c -> p c = false) ->
  split_run p (run ++ rest) = (run, rest).
Proof.
  intros Hrun Hrest. induction Hrun as [|c run Hc _ IH]; simpl.
  - destruct rest as [|c rest]; [done|]. simpl. by rewrite (Hrest c eq_refl).
  - by rewrite Hc, IH.
Qed.

(** A repetition of a class at a text that does not start in the class. *)
Lemma star_loop_stop p fuel pos0 s caps k :
  (forall c, head s = Some c -> p c = false) ->
  star_loop (rmatch (Class p)) fuel (Build_mstate pos0 s caps) k
  = k (Build_mstate pos0 s caps).
Proof.
  intros Hs. destruct fuel as [|n]; [done|]. cbn [star_loop rmatch].
  unfold step. cbn [remaining]. destruct s as [|c tl]; [done|].
  by rewrite (Hs c eq_refl).
Qed.

(** One round of a repetition of a class. *)
Lemma star_loop_step p n pos0 c tl caps k :
  p c = true ->
  star_loop (rmatch (Class p)) (S n) (Build_mstate pos0 (c :: tl) caps) k
  = match star_loop (rmatch (Class p)) n (Build_mstate (S pos0) tl caps) k with
    | Some res => Some res
    | None => k (Build_mstate pos0 (c :: tl) caps)
    end.
Proof.
  intros Hc.
  change (star_loop (rmatch (Class p)) (S n) (Build_mstate pos0 (c :: tl) caps) k)
    with (match (if p c
                 then if length tl <? S (length tl)
                      then star_loop (rmatch (Class p)) n
                             (Build_mstate (S pos0) tl caps) k
                      else None
                 else None) with
          | Some res => Some res
          | None => k (Build_mstate pos0 (c :: tl) caps)
          end).
  rewrite Hc. by rewrite (proj2 (Nat.ltb_lt _ _) (Nat.lt_succ_diag_r _)).
Qed.

(** A greedy repetition of a class takes the whole run when the rest of
    the pattern goes through after it. *)
Lemma star_loop_max p run :
  forall fuel pos0 rest caps k,
    Forall (fun c => p c = true) run ->
    (forall c, head rest = Some c -> p c = false) ->
    length run < fuel ->
    is_Some (k (Build_mstate (pos0 + length run) rest caps)) ->
    star_loop (rmatch (Class p)) fuel (Build_mstate pos0 (run ++ rest) caps) k
    = k (Build_mstate (pos0 + length run) rest caps).
Proof.
  induction run as [|a run IH]; intros fuel pos0 rest caps k Hrun Hrest Hfuel Hk.
  - cbn [app length]. rewrite Nat.add_0_r. by apply star_loop_stop.
  - apply Forall_cons in Hrun as [Ha Hrun]. simpl in Hfuel.
    destruct fuel as [|n]; [lia|].
    change ((a :: run) ++ rest) with (a :: (run ++ rest)).
    rewrite star_loop_step by done.
    replace (pos0 + length (a :: run)) with (S pos0 + length run) in *
      by (simpl; lia).
    rewrite IH by (done || lia). by destruct Hk as [res ->].
Qed.

(** When the rest of the pattern fails after the whole run and goes
    through one character earlier, the repetition gives its last
    character back. *)
Lemma star_loop_last p pre :
  forall fuel pos0 c rest caps k,
    Forall (fun c => p c = true) pre -> p c = true ->
    (forall c, head rest = Some c -> p c = false) ->
    length pre < fuel ->
    k (Build_mstate (pos0 + length pre + 1) rest caps) = None ->
    is_Some (k (Build_mstate (pos0 + length pre) (c :: rest) caps)) ->
    star_loop (rmatch (Class p)) fuel (Build_mstate pos0 (pre ++ c :: rest) caps) k
    = k (Build_mstate (pos0 + length pre) (c :: rest) caps).
Proof.
  induction pre as [|a pre IH]; intros fuel pos0 c rest caps k Hpre Hc Hrest Hfuel Hmax Hk.
  - cbn [app length] in *. rewrite Nat.add_0_r in *.
    destruct fuel as [|n]; [lia|].
    rewrite star_loop_step by done.
    rewrite star_loop_stop by done.
    replace (S pos0) with (pos0 + 1) by lia. by rewrite Hmax.
  - apply Forall_cons in Hpre as [Ha Hpre]. simpl in Hfuel.
    destruct fuel as [|n]; [lia|].
    change ((a :: pre) ++ c :: rest) with (a :: (pre ++ c :: rest)).
    rewrite star_loop_step by done.
    replace (pos0 + length (a :: pre)) with (S pos0 + length pre) in *
      by (simpl; lia).
    rewrite IH by (done || lia). by destruct Hk as [res ->].
Qed.

(** [[p]+] before a rest of the pattern that cannot fail: the whole run,
    which must not be empty. *)
Lemma rmatch_Plus_Class_max p pos0 s caps k :
  (forall st, is_Some (k st)) ->
  rmatch (Plus (Class p)) (Build_mstate pos0 s caps) k
  = match (split_run p s).1 with
    | [] => None
    | run => k (Build_mstate (pos0 + length run) (split_run p s).2 caps)
    end.
Proof.
  intros Hk. unfold Plus. rewrite rmatch_Cat.
  change (rmatch (Class p) ?st ?k0) with (step p st k0). unfold step.
  cbn [remaining]. destruct s as [|c tl]; [done|]. cbn [split_run].
  destruct (p c) eqn:Hc; [|done].
  pose proof (split_run_eq p tl) as E. pose proof (split_run_all p tl) as Hall.
  pose proof (split_run_stops p tl) as Hstop.
  destruct (split_run p tl) as [run rest]. cbn [fst snd] in *.
  change (rmatch (Star (Class p)) ?st k)
    with (star_loop (rmatch (Class p)) (S (length (remaining st))) st k).
  unfold advance. cbn [pos remaining captures]. subst tl.
  rewrite star_loop_max; try done.
  - do 2 f_equal. simpl. lia.
  - rewrite length_app. lia.
Qed.

Lemma rmatch_Opt r st k :
  rmatch (Opt r) st k
  = match rmatch r st k with Some res => Some res | None => k st end.
Proof. done. Qed.

Lemma rmatch_Class p pos0 s caps k :
  rmatch (Class p) (Build_mstate pos0 s caps) k
  = match s with
    | c :: tl => if p c then k (Build_mstate (S pos0) tl caps) else None
    | [] => None
    end.
Proof. done. Qed.

Lemma rmatch_Lit c0 pos0 s caps k :
  rmatch (Lit c0) (Build_mstate pos0 s caps) k
  = match s with
    | c :: tl => if Ascii.eqb c0 c then k (Build_mstate (S pos0) tl caps) else None
    | [] => None
    end.
Proof. done. Qed.

Lemma sign_not_digit c : is_sign c = true -> is_digit c = false.
Proof.
  unfold is_sign. intros [H|H]%orb_true_iff; apply Ascii.eqb_eq in H; by subst.
Qed.

Lemma sign_not_point c : is_sign c = true -> Ascii.eqb "." c = false.
Proof.
  unfold is_sign. intros [H|H]%orb_true_iff; apply Ascii.eqb_eq in H; by subst.
Qed.

Lemma digit_not_point c : is_digit c = true -> Ascii.eqb "." c = false.
Proof.
  intros H. destruct (Ascii.eqb "." c) eqn:E; [|done].
  apply Ascii.eqb_eq in E. by subst.
Qed.

Lemma digit_not_sign c : is_digit c = true -> is_sign c = false.
Proof.
  intros H. destruct (is_sign c) eqn:E; [|done].
  apply sign_not_digit in E. congruence.
Qed.

(** An optional sign and then digits, before a rest of the pattern that
    cannot fail. *)
Lemma rmatch_sign_digits pos0 s caps k :
  (forall st, is_Some (k st)) ->
  rmatch (Cat (Opt (Class is_sign)) (Plus (Class is_digit)))
    (Build_mstate pos0 s caps) k
  = match (split_run is_digit (scan_sign s).2).1 with
    | [] => None
    | es => k (Build_mstate (pos0 + length (scan_sign s).1 + length es)
                 (split_run is_digit (scan_sign s).2).2 caps)
    end.
Proof.
  intros Hk. rewrite rmatch_Cat, rmatch_Opt, rmatch_Class.
  rewrite !rmatch_Plus_Class_max by done.
  destruct s as [|c tl]; [done|]. unfold scan_sign.
  destruct (is_sign c) eqn:Hc; cbn [fst snd length].
  - rewrite rmatch_Plus_Class_max by done.
    destruct (split_run is_digit tl).1 as [|e es] eqn:E.
    + cbn [split_run]. by rewrite (sign_not_digit c Hc).
    + destruct (Hk (Build_mstate (S pos0 + length (e :: es))
                      (split_run is_digit tl).2 caps)) as [res Hres].
      rewrite Hres, <- Hres. do 2 f_equal. simpl. lia.
  - by rewrite Nat.add_0_r.
Qed.

(** The exponent, optional as a whole. *)
Lemma rmatch_exponent pos0 s caps k :
  (forall st, is_Some (k st)) ->
  exists caps',
    rmatch (Opt (Group None
                   (Cat (Lit "e")
                      (Cat (Opt (Class is_sign)) (Plus (Class is_digit))))))
      (Build_mstate pos0 s caps) k
    = k (Build_mstate (pos0 + length (scan_exponent s).1) (scan_exponent s).2 caps').
Proof.
  intros Hk. rewrite rmatch_Opt, rmatch_Group, rmatch_Cat, rmatch_Lit.
  assert (k (Build_mstate pos0 s caps)
          = k (Build_mstate (pos0 + length (@nil ascii)) s caps)) as Hskip.
  { simpl. by rewrite Nat.add_0_r. }
  destruct s as [|c r1]; [by exists caps|]. cbn [scan_exponent].
  destruct (Ascii.eqb "e" c) eqn:Hc; [|by exists caps].
  rewrite rmatch_sign_digits by (intros st; apply Hk).
  destruct (scan_sign r1) as [sg r2]. cbn [fst snd].
  destruct (split_run is_digit r2) as [[|e es] r3]; cbn [fst snd];
    [by exists caps|].
  eexists. unfold add_capture at 1. cbn [pos remaining captures].
  match goal with
  | |- match k ?st with _ => _ end = _ => destruct (Hk st) as [res Hres]; rewrite Hres
  end.
  rewrite <- Hres.
  replace (pos0 + length (c :: sg ++ e :: es))
    with (S pos0 + length sg + length (e :: es))
    by (simpl; rewrite length_app; simpl; lia).
  reflexivity.
Qed.

(** The digits, the point and the digits after it, before a rest of the
    pattern that cannot fail. *)
Lemma rmatch_mantissa pos0 s caps k :
  (forall st, is_Some (k st)) ->
  rmatch (Star (Class is_digit)) (Build_mstate pos0 s caps)
    (fun st1 => rmatch (Opt (Lit ".")) st1
                  (fun st2 => rmatch (Plus (Class is_digit)) st2 k))
  = match scan_mantissa s with
    | Some (m, r) => k (Build_mstate (pos0 + length m) r caps)
    | None => None
    end.
Proof.
  intros Hk.
  set (K2 := fun st1 => rmatch (Opt (Lit ".")) st1
                          (fun st2 => rmatch (Plus (Class is_digit)) st2 k)).
  assert (forall p0 s0, K2 (Build_mstate p0 s0 caps)
            = match s0 with
              | c :: r2 =>
                  if Ascii.eqb "." c
                  then match (split_run is_digit r2).1 with
                       | [] => None
                       | fs => k (Build_mstate (S p0 + length fs)
                                    (split_run is_digit r2).2 caps)
                       end
                  else match (split_run is_digit s0).1 with
                       | [] => None
                       | fs => k (Build_mstate (p0 + length fs)
                                    (split_run is_digit s0).2 caps)
                       end
              | [] => None
              end) as HK2.
  { intros p0 s0. unfold K2. rewrite rmatch_Opt, rmatch_Lit.
    rewrite !rmatch_Plus_Class_max by done.
    destruct s0 as [|c r2]; [done|].
    destruct (Ascii.eqb "." c) eqn:Hc; [|done].
    rewrite rmatch_Plus_Class_max by done.
    destruct (split_run is_digit r2).1 as [|f fs] eqn:E.
    - cbn [split_run]. apply Ascii.eqb_eq in Hc as <-. done.
    - by destruct (Hk (Build_mstate (S p0 + length (f :: fs))
                         (split_run is_digit r2).2 caps)) as [res ->]. }
  change (rmatch (Star (Class is_digit)) ?st ?k0)
    with (star_loop (rmatch (Class is_digit)) (S (length (remaining st))) st k0).
  cbn [remaining]. unfold scan_mantissa.
  pose proof (split_run_eq is_digit s) as E.
  pose proof (split_run_all is_digit s) as Hall.
  pose proof (split_run_stops is_digit s) as Hstop.
  destruct (split_run is_digit s) as [ds r1]. cbn [fst snd] in *. subst s.
  assert (length ds < S (length (ds ++ r1))) as Hfuel
    by (rewrite length_app; lia).
  (* what the rest of the pattern does after the whole run of digits *)
  destruct (K2 (Build_mstate (pos0 + length ds) r1 caps)) as [res|] eqn:Hmax.
  - rewrite star_loop_max by (done || by rewrite Hmax).
    rewrite Hmax. rewrite HK2 in Hmax.
    destruct r1 as [|c r2]; [done|].
    destruct (Ascii.eqb "." c) eqn:Hc.
    + destruct (split_run is_digit r2) as [[|f fs] r3]; cbn [fst snd] in *; [done|].
      rewrite <- Hmax. do 2 f_equal. rewrite length_app. simpl. lia.
    + pose proof (Hstop c eq_refl) as Hd. cbn [split_run] in Hmax.
      rewrite Hd in Hmax. done.
  - assert (match r1 with
            | c :: r2 =>
                if Ascii.eqb "." c
                then match split_run is_digit r2 with
                     | ([], _) => match ds with [] => None | _ => Some (ds, r1) end
                     | (fs, r3) => Some (ds ++ c :: fs, r3)
                     end
                else match ds with [] => None | _ => Some (ds, r1) end
            | [] => match ds with [] => None | _ => Some (ds, r1) end
            end = match ds with [] => None | _ => Some (ds, r1) end) as ->.
    { rewrite HK2 in Hmax. destruct r1 as [|c r2]; [done|].
      destruct (Ascii.eqb "." c); [|done].
      destruct (split_run is_digit r2) as [[|f fs] r3]; cbn [fst snd] in *; [done|].
      destruct (Hk (Build_mstate (S (pos0 + length ds) + length (f :: fs)) r3 caps))
        as [res Hres]. congruence. }
    revert Hall Hfuel Hmax. induction ds as [|c pre _] using rev_ind;
      intros Hall Hfuel Hmax.
    + cbn [app length] in *. rewrite Nat.add_0_r in Hmax.
      by rewrite star_loop_stop.
    + rewrite <- app_assoc. cbn [app].
      apply Forall_app in Hall as [Hpre Hc]. apply Forall_inv in Hc.
      rewrite length_app in Hmax. cbn [length] in Hmax.
      rewrite Nat.add_assoc in Hmax.
      assert (K2 (Build_mstate (pos0 + length pre) (c :: r1) caps)
              = k (Build_mstate (pos0 + length (pre ++ [c])) r1 caps)) as Hlast.
      { rewrite HK2, (digit_not_point c Hc).
        change (c :: r1) with ([c] ++ r1).
        rewrite (split_run_unique is_digit [c] r1) by (repeat constructor; done).
        cbn [fst snd]. do 2 f_equal. rewrite length_app. simpl. lia. }
      rewrite star_loop_last; try done.
      * rewrite Hlast. by destruct pre.
      * rewrite length_app, <- app_assoc in Hfuel. simpl in Hfuel. lia.
      * rewrite Hlast. apply Hk.
Qed.

Lemma scan_mantissa_sign c tl : is_sign c = true -> scan_mantissa (c :: tl) = None.
Proof.
  intros Hc. unfold scan_mantissa. cbn [split_run].
  by rewrite (sign_not_digit c Hc), (sign_not_point c Hc).
Qed.

(** The number pattern before a rest of the pattern that cannot fail takes
    what [scan_number] reads, and fails where [scan_number] finds nothing. *)
Lemma rmatch_number pos0 s caps k :
  (forall st, is_Some (k st)) ->
  match scan_number s with
  | Some (num, r) =>
      exists caps',
        rmatch real_number_pattern (Build_mstate pos0 s caps) k
        = k (Build_mstate (pos0 + length num) r caps')
  | None => rmatch real_number_pattern (Build_mstate pos0 s caps) k = None
  end.
Proof.
  intros Hk. unfold real_number_pattern.
  rewrite rmatch_Cat, rmatch_Opt, rmatch_Class.
  set (K4 := fun st3 =>
         rmatch (Opt (Group None
                        (Cat (Lit "e")
                           (Cat (Opt (Class is_sign)) (Plus (Class is_digit))))))
           st3 k).
  assert (forall st, is_Some (K4 st)) as HK4.
  { intros st. unfold K4. rewrite rmatch_Opt.
    destruct (rmatch (Group _ _) st k); [eauto | apply Hk]. }
  assert (forall p0 s0,
            rmatch (Cat (Star (Class is_digit))
                      (Cat (Opt (Lit "."))
                         (Cat (Plus (Class is_digit))
                            (Opt (Group None
                                    (Cat (Lit "e")
                                       (Cat (Opt (Class is_sign))
                                          (Plus (Class is_digit)))))))))
              (Build_mstate p0 s0 caps) k
            = match scan_mantissa s0 with
              | Some (m, r) => K4 (Build_mstate (p0 + length m) r caps)
              | None => None
              end) as HK1.
  { intros p0 s0. rewrite rmatch_Cat. rewrite <- (rmatch_mantissa p0 s0 caps K4 HK4).
    reflexivity. }
  rewrite !HK1. unfold scan_number.
  assert (forall p0 sg m r,
            exists caps',
              K4 (Build_mstate (p0 + length m) r caps)
              = k (Build_mstate (p0 - length sg
                                 + length (sg ++ m ++ (scan_exponent r).1))
                     (scan_exponent r).2 caps')
              \/ p0 < length sg) as HK4'.
  { intros p0 sg m r.
    destruct (rmatch_exponent (p0 + length m) r caps k Hk) as [caps' E].
    exists caps'. destruct (decide (p0 < length sg)); [by right|left].
    unfold K4. rewrite E. do 2 f_equal. rewrite !length_app. lia. }
  destruct s as [|c tl].
  - cbn [scan_sign]. destruct (scan_mantissa []) as [[m r]|] eqn:Em; [|done].
    by vm_compute in Em.
  - cbn [scan_sign]. destruct (is_sign c) eqn:Hc.
    + rewrite HK1. destruct (scan_mantissa tl) as [[m r]|] eqn:Em.
      * destruct (HK4' (S pos0) [c] m r) as [caps' [E|E]]; [|simpl in E; lia].
        destruct (scan_exponent r) as [ex r2] eqn:Ex. cbn [fst snd] in E.
        exists caps'. destruct (HK4 (Build_mstate (S pos0 + length m) r caps))
          as [res Hres].
        rewrite Hres, <- Hres, E. do 2 f_equal. simpl. lia.
      * by rewrite scan_mantissa_sign.
    + destruct (scan_mantissa (c :: tl)) as [[m r]|] eqn:Em; [|done].
      destruct (HK4' pos0 [] m r) as [caps' [E|E]]; [|simpl in E; lia].
      destruct (scan_exponent r) as [ex r2] eqn:Ex. cbn [fst snd] in E.
      exists caps'. rewrite E. do 2 f_equal. simpl. lia.
Qed.

Lemma scan_sign_eq s : s = (scan_sign s).1 ++ (scan_sign s).2.
Proof. destruct s as [|c tl]; [done|]. simpl. by destruct (is_sign c). Qed.

Lemma scan_mantissa_eq s m r : scan_mantissa s = Some (m, r) -> s = m ++ r.
Proof.
  unfold scan_mantissa. pose proof (split_run_eq is_digit s) as E.
  destruct (split_run is_digit s) as [ds r1]. cbn [fst snd] in E.
  assert (match ds with [] => None | _ => Some (ds, r1) end = Some (m, r) ->
          s = m ++ r) as Hd.
  { destruct ds; [done|]. by intros [= <- <-]. }
  destruct r1 as [|c r2]; [done|].
  destruct (Ascii.eqb "." c); [|done].
  pose proof (split_run_eq is_digit r2) as E2.
  destruct (split_run is_digit r2) as [[|f fs] r3]; [done|].
  cbn [fst snd] in E2. intros [= <- <-]. rewrite E, E2.
  by rewrite <- app_assoc.
Qed.

Lemma scan_exponent_eq s : s = (scan_exponent s).1 ++ (scan_exponent s).2.
Proof.
  destruct s as [|c r1]; [done|]. cbn [scan_exponent].
  destruct (Ascii.eqb "e" c); [|done].
  pose proof (scan_sign_eq r1) as E1. destruct (scan_sign r1) as [sg r2].
  pose proof (split_run_eq is_digit r2) as E2.
  destruct (split_run is_digit r2) as [[|e es] r3]; [done|].
  cbn [fst snd] in *. rewrite E1, E2. simpl. by rewrite <- app_assoc.
Qed.

Lemma scan_number_eq s num r : scan_number s = Some (num, r) -> s = num ++ r.
Proof.
  unfold scan_number. pose proof (scan_sign_eq s) as E0.
  destruct (scan_sign s) as [sg r0]. cbn [fst snd] in E0.
  destruct (scan_mantissa r0) as [[m r1]|] eqn:Em; [|done].
  apply scan_mantissa_eq in Em. pose proof (scan_exponent_eq r1) as Ex.
  destruct (scan_exponent r1) as [ex r2]. cbn [fst snd] in Ex.
  intros [= <- <-]. rewrite E0, Em, Ex. by rewrite <- !app_assoc.
Qed.

(** A match of [score_re] holds what [scan_number] reads after the marker
    and the blanks. *)
Lemma score_re_scan (p : nat) (s : list ascii) (st : mstate) :
  match_at score_re false p s = Some st ->
  exists ws num,
    s = results_marker ++ ws ++ num ++ remaining st
    /\ Forall (fun c => is_space c = true) ws
    /\ scan_number (num ++ remaining st) = Some (num, remaining st)
    /\ pos st = p + length (results_marker ++ ws ++ num)
    /\ find_capture "score" (captures st) = Some num.
Proof.
  unfold match_at, score_re. rewrite rmatch_Cat. intros H.
  apply rmatch_sound in H as (st1 & w1 & H & Hm1 & [R1 P1]).
  apply matches_Str_inv in Hm1 as ->. rewrite rmatch_Cat in H.
  apply rmatch_sound in H as (st2 & ws & H & Hm2 & [R2 P2]).
  rewrite rmatch_Group in H. destruct st2 as [p2 s2 c2].
  cbn [remaining pos captures start_state] in *.
  pose proof (rmatch_number p2 s2 c2
                (fun st' => accept false p
                              (add_capture (Some "score") (Build_mstate p2 s2 c2) st'))
                ltac:(intros st'; unfold accept; simpl; eauto)) as Hn.
  destruct (scan_number s2) as [[num r]|] eqn:Es; [|congruence].
  destruct Hn as [caps' Hn]. rewrite Hn in H. unfold accept in H.
  cbn [andb] in H. injection H as <-.
  pose proof (scan_number_eq _ _ _ Es) as ->.
  exists ws, num. cbn [remaining pos captures add_capture].
  split; [by rewrite R1, R2|].
  split; [by apply (matches_alphabet (fun c => is_space c = true)
                      (Star (Class is_space)) ws (fun c H => H))|].
  split; [done|]. split; [rewrite P2, P1, !length_app; lia|].
  cbn [find_capture cap_name cap_text]. rewrite decide_True by done. f_equal.
  replace (p2 + length num - p2) with (length num) by lia.
  apply take_app_length.
Qed.

(** A run of the class at the start of a text is the start of the longest
    one. *)
Lemma run_prefix p (a b : list ascii) :
  Forall (fun c => p c = true) a ->
  exists a', (split_run p (a ++ b)).1 = a ++ a'
             /\ b = a' ++ (split_run p (a ++ b)).2
             /\ Forall (fun c => p c = true) a'.
Proof.
  intros Ha. induction Ha as [|c a Hc _ (a' & E1 & E2 & Ha')].
  - exists (split_run p b).1. split; [done|].
    split; [apply split_run_eq | apply split_run_all].
  - exists a'. cbn [app split_run]. rewrite Hc.
    destruct (split_run p (a ++ b)) as [run rest]. cbn [fst snd] in *.
    by rewrite E1.
Qed.

Lemma digit_not_e c : is_digit c = true -> Ascii.eqb "e" c = false.
Proof.
  intros H. destruct (Ascii.eqb "e" c) eqn:E; [|done].
  apply Ascii.eqb_eq in E. by subst.
Qed.

(** The words of the parts of the number pattern. *)
Lemma matches_sign_inv w :
  matches (Opt (Class is_sign)) w ->
  w = [] \/ exists c, w = [c] /\ is_sign c = true.
Proof.
  intros H. inversion H as [| | | |r|r w' H'| | | | |]; subst; [by left|].
  inversion H'; subst. right. eauto.
Qed.

Lemma matches_point_inv w : matches (Opt (Lit ".")) w -> w = [] \/ w = ["."%char].
Proof.
  intros H. inversion H as [| | | |r|r w' H'| | | | |]; subst; [by left|].
  inversion H'; subst. by right.
Qed.

Lemma matches_digits_inv w :
  matches (Plus (Class is_digit)) w ->
  w <> [] /\ Forall (fun c => is_digit c = true) w.
Proof.
  unfold Plus. intros H. inversion H as [| | |r1 r2 w1 w2 H1 H2| | | | | | |]; subst.
  inversion H1; subst.
  split; [done|]. constructor; [done|].
  by apply (matches_alphabet (fun c => is_digit c = true)
              (Star (Class is_digit)) w2 (fun c H => H)).
Qed.

Lemma matches_exponent_inv w :
  matches (Opt (Group None
                  (Cat (Lit "e")
                     (Cat (Opt (Class is_sign)) (Plus (Class is_digit)))))) w ->
  w = [] \/ exists sg es,
              w = "e"%char :: sg ++ es
              /\ (sg = [] \/ exists c, sg = [c] /\ is_sign c = true)
              /\ es <> [] /\ Forall (fun c => is_digit c = true) es.
Proof.
  intros H. inversion H as [| | | |r|r w' H'| | | | |]; subst; [by left|]. right.
  inversion H' as [| | | | | | | |name r w' Hg| |]; subst.
  inversion Hg as [| | |r1 r2 w1 w2 H1 H2| | | | | | |]; subst.
  inversion H1; subst.
  inversion H2 as [| | |r1 r2 sg es Hs He| | | | | | |]; subst.
  apply matches_sign_inv in Hs. apply matches_digits_inv in He as [? ?].
  by exists sg, es.
Qed.

Lemma matches_number_inv w :
  matches real_number_pattern w ->
  exists sg ds dt fs ex,
    w = sg ++ ds ++ dt ++ fs ++ ex
    /\ (sg = [] \/ exists c, sg = [c] /\ is_sign c = true)
    /\ Forall (fun c => is_digit c = true) ds
    /\ (dt = [] \/ dt = ["."%char])
    /\ (fs <> [] /\ Forall (fun c => is_digit c = true) fs)
    /\ (ex = [] \/ exists sg' es,
                     ex = "e"%char :: sg' ++ es
                     /\ (sg' = [] \/ exists c, sg' = [c] /\ is_sign c = true)
                     /\ es <> [] /\ Forall (fun c => is_digit c = true) es).
Proof.
  unfold real_number_pattern. intros H.
  inversion H as [| | |? ? sg w1 Hsg H1| | | | | | |]; subst.
  inversion H1 as [| | |? ? ds w2 Hds H2| | | | | | |]; subst.
  inversion H2 as [| | |? ? dt w3 Hdt H3| | | | | | |]; subst.
  inversion H3 as [| | |? ? fs ex Hfs Hex| | | | | | |]; subst.
  exists sg, ds, dt, fs, ex. split; [done|].
  split; [by apply matches_sign_inv|].
  split; [by apply (matches_alphabet (fun c => is_digit c = true)
                      (Star (Class is_digit)) ds (fun c H => H))|].
  split; [by apply matches_point_inv|].
  split; [by apply matches_digits_inv | by apply matches_exponent_inv].
Qed.

(** The sign that [scan_sign] reads is the sign of every number there. *)
Lemma scan_sign_word sg t :
  (sg = [] \/ exists c, sg = [c] /\ is_sign c = true) ->
  (forall c, head t = Some c -> is_sign c = false) ->
  scan_sign (sg ++ t) = (sg, t).
Proof.
  intros [->|(c & -> & Hc)] Ht; cbn [app scan_sign].
  - destruct t as [|c t]; [done|]. cbn [scan_sign]. by rewrite (Ht c eq_refl).
  - by rewrite Hc.
Qed.

(** What [scan_mantissa] reads is at least as long as any digits, point and
    digits there, and where it is longer no exponent can follow the shorter
    reading. *)
Lemma scan_mantissa_longest ds dt fs t m r :
  Forall (fun c => is_digit c = true) ds ->
  dt = [] \/ dt = ["."%char] ->
  fs <> [] -> Forall (fun c => is_digit c = true) fs ->
  scan_mantissa (ds ++ dt ++ fs ++ t) = Some (m, r) ->
  (m = ds ++ dt ++ fs /\ r = t)
  \/ (length (ds ++ dt ++ fs) < length m
      /\ exists c, head t = Some c /\ Ascii.eqb "e" c = false).
Proof.
  intros Hds Hdt Hne Hfs. unfold scan_mantissa.
  destruct Hdt as [-> | ->]; cbn [app].
  - (* digits only *)
    rewrite app_assoc.
    destruct (run_prefix is_digit (ds ++ fs) t) as (a' & E1 & E2 & Ha');
      [by apply Forall_app|].
    destruct (split_run is_digit ((ds ++ fs) ++ t)) as [run q1].
    cbn [fst snd] in *. subst run.
    assert (ds ++ fs <> []) as Hne' by (destruct ds, fs; done).
    assert (Some ((ds ++ fs) ++ a', q1) = Some (m, r) ->
            m = ds ++ fs /\ r = t
            \/ length (ds ++ fs) < length m
               /\ (exists c, head t = Some c /\ Ascii.eqb "e" c = false)) as Hdigits.
    { intros [= <- <-]. destruct a' as [|x a'].
      - left. by rewrite app_nil_r.
      - right. split; [rewrite !length_app; simpl; lia|].
        exists x. split; [by rewrite E2|].
        apply digit_not_e. by apply Forall_inv in Ha'. }
    assert (match (ds ++ fs) ++ a' with
            | [] => None
            | _ => Some ((ds ++ fs) ++ a', q1)
            end = Some ((ds ++ fs) ++ a', q1)) as ->.
    { destruct ((ds ++ fs) ++ a') eqn:E; [|done].
      apply app_eq_nil in E as [E _]. done. }
    destruct q1 as [|c q2]; [done|].
    destruct (Ascii.eqb "." c) eqn:Hc; [|done].
    destruct (split_run is_digit q2) as [[|f fs'] q3]; [done|].
    intros [= <- <-]. right. split; [rewrite !length_app; simpl; lia|].
    apply Ascii.eqb_eq in Hc as <-. destruct a' as [|x a'].
    + exists "."%char. by rewrite E2.
    + exists x. split; [by rewrite E2|].
      apply digit_not_e. by apply Forall_inv in Ha'.
  - (* digits, the point and digits *)
    rewrite (split_run_unique is_digit ds ("."%char :: fs ++ t)) by
      (done || by intros c [= <-]).
    rewrite Ascii.eqb_refl.
    destruct (run_prefix is_digit fs t Hfs) as (a' & E1 & E2 & Ha').
    destruct (split_run is_digit (fs ++ t)) as [run q3].
    cbn [fst snd] in *. subst run.
    destruct (fs ++ a') as [|f fs'] eqn:E.
    { apply app_eq_nil in E as [E _]. done. }
    rewrite <- E. intros [= <- <-]. destruct a' as [|x a'].
    + left. by rewrite app_nil_r.
    + right. split; [rewrite !length_app; simpl; rewrite !length_app; simpl; lia|].
      exists x. split; [by rewrite E2|].
      apply digit_not_e. by apply Forall_inv in Ha'.
Qed.

(** What [scan_exponent] reads is at least as long as any exponent there. *)
Lemma scan_exponent_longest ex t :
  (ex = [] \/ exists sg es,
                ex = "e"%char :: sg ++ es
                /\ (sg = [] \/ exists c, sg = [c] /\ is_sign c = true)
                /\ es <> [] /\ Forall (fun c => is_digit c = true) es) ->
  length ex <= length (scan_exponent (ex ++ t)).1.
Proof.
  intros [->|(sg & es & -> & Hsg & Hne & Hes)]; [simpl; lia|].
  cbn [app scan_exponent]. rewrite Ascii.eqb_refl.
  rewrite <- app_assoc.
  rewrite (scan_sign_word sg (es ++ t) Hsg).
  2:{ destruct es as [|e es]; [done|]. intros c [= <-].
      apply digit_not_sign. by apply Forall_inv in Hes. }
  destruct (run_prefix is_digit es t Hes) as (a' & E1 & E2 & Ha').
  destruct (split_run is_digit (es ++ t)) as [run q3].
  cbn [fst snd] in *. subst run.
  destruct (es ++ a') as [|f fs'] eqn:E.
  { apply app_eq_nil in E as [E _]. done. }
  rewrite <- E. cbn [fst length]. rewrite !length_app. lia.
Qed.

(** What [scan_number] reads is the longest number at the start of the
    text. *)
Lemma scan_number_longest s num r w r' :
  scan_number s = Some (num, r) ->
  s = w ++ r' -> matches real_number_pattern w ->
  length w <= length num.
Proof.
  intros Hscan -> Hw.
  apply matches_number_inv in Hw
    as (sg & ds & dt & fs & ex & -> & Hsg & Hds & Hdt & [Hne Hfs] & Hex).
  unfold scan_number in Hscan.
  assert (((sg ++ ds ++ dt ++ fs ++ ex) ++ r')
          = sg ++ (ds ++ dt ++ fs ++ (ex ++ r'))) as E
    by (by rewrite <- !app_assoc).
  rewrite E in Hscan. rewrite (scan_sign_word sg _ Hsg) in Hscan.
  2:{ intros c Hc. destruct ds as [|d ds].
      - destruct Hdt as [-> | ->].
        + destruct fs as [|f fs]; [done|]. injection Hc as <-.
          apply digit_not_sign. by apply Forall_inv in Hfs.
        + by injection Hc as <-.
      - injection Hc as <-. apply digit_not_sign. by apply Forall_inv in Hds. }
  destruct (scan_mantissa _) as [[m r1]|] eqn:Em; [|done].
  apply scan_mantissa_longest in Em as [[-> ->]|(Hlt & c & Hc & Hce)]; try done.
  - pose proof (scan_exponent_longest ex r' Hex) as Hle.
    destruct (scan_exponent (ex ++ r')) as [ex' r2]. injection Hscan as <- <-.
    cbn [fst] in Hle. rewrite !length_app in *. lia.
  - destruct (scan_exponent r1) as [ex' r2]. injection Hscan as <- <-.
    assert (ex = []) as ->.
    { destruct Hex as [->|(sg' & es & -> & _)]; [done|].
      injection Hc as <-. done. }
    rewrite !length_app in *. simpl. lia.
Qed.

End Greedy.

(** ** The numbers of the score parser *)

Section ScoreNumbers.

Local Open Scope nat_scope.
Local Open Scope list_scope.

(** A match of [score_re] holds the longest number after the marker and
    the blanks. *)
Lemma score_re_longest (p : nat) (s : list ascii) (st : mstate) :
  match_at score_re false p s = Some st ->
  exists ws num,
    s = results_marker ++ ws ++ num ++ remaining st
    /\ Forall (fun c => is_space c = true) ws
    /\ longest_number (num ++ remaining st) num
    /\ pos st = p + length (results_marker ++ ws ++ num)
    /\ find_capture "score" (captures st) = Some num.
Proof.
  intros H. pose proof H as H'.
  apply score_re_scan in H as (ws & num & Hs & Hws & Hscan & Hpos & Hcap).
  apply score_re_sound in H' as (ws' & num' & _ & _ & Hnum & _ & Hcap').
  assert (num' = num) as -> by congruence.
  exists ws, num. repeat split; try done; [by eexists|].
  intros w r' E Hw. by apply (scan_number_longest _ _ _ _ _ Hscan E).
Qed.

Lemma score_at_app (pre s : list ascii) (i : nat) (num : list ascii) :
  score_at (pre ++ s) (length pre + i) num <-> score_at s i num.
Proof. unfold score_at. by rewrite drop_app_add. Qed.

(** A score is a result. *)
Lemma score_at_result (s : list ascii) (p : nat) (num : list ascii) :
  score_at s p num -> result_at s p num.
Proof.
  intros (ws & t & Hd & Hws & [rest ->] & Hnum & _). by exists ws, rest.
Qed.

(** A place has one score at most. *)
Lemma score_at_unique (s : list ascii) (p : nat) (num num' : list ascii) :
  score_at s p num -> score_at s p num' -> num = num'.
Proof.
  intros (ws & t & Hd & Hws & [rest Et] & Hnum & Hmax)
         (ws' & t' & Hd' & Hws' & [rest' Et'] & Hnum' & Hmax').
  rewrite Hd in Hd'. apply app_inv_head in Hd'.
  destruct (number_not_empty _ Hnum) as (c & w & -> & Hc%Forall_inv).
  destruct (number_not_empty _ Hnum') as (c' & w' & -> & Hc'%Forall_inv).
  subst t t'. cbn [app] in Hd'.
  apply (span_unique (fun c => is_space c = true)) in Hd' as (-> & <- & E);
    [|done|done|congruence|congruence].
  assert (c :: w ++ rest = c :: w' ++ rest') as E' by (by rewrite E).
  pose proof (Hmax (c :: w') rest' E' Hnum') as H1.
  pose proof (Hmax' (c :: w) rest (eq_sym E') Hnum) as H2.
  change (c :: w ++ rest) with ((c :: w) ++ rest) in E'.
  change (c :: w' ++ rest') with ((c :: w') ++ rest') in E'.
  apply app_inj_1 in E' as [E' _]; [done | lia].
Qed.

(** Every match of the scan holds the score of its place. *)
Lemma finditer_from_score_at (fuel : nat) :
  forall (p : nat) (s : list ascii) (m : match_obj), length s < fuel ->
    m ∈ finditer_from score_re fuel false p s ->
    exists i, m_start m = p + i
              /\ score_at s i (list_ascii_of_string (group "score" m)).
Proof.
  induction fuel as [|n IH]; intros p s m Hfuel; [lia|].
  cbn [finditer_from]. destruct (match_at score_re false p s) as [st|] eqn:E.
  - apply score_re_longest in E as (ws & num & Hs & Hws & Hnum & Hpos & Hcap).
    set (pre := results_marker ++ ws ++ num) in *.
    assert (s = pre ++ remaining st) as Hs'.
    { unfold pre. by rewrite <- !app_assoc. }
    assert (19 <= length pre) as Hpre.
    { unfold pre. rewrite length_app. change (length results_marker) with 19. lia. }
    assert (length s = length pre + length (remaining st)) as Hlen.
    { by rewrite Hs', length_app. }
    replace (pos st =? p) with false by (symmetry; apply Nat.eqb_neq; lia).
    intros [->|Hm]%elem_of_cons.
    + exists 0. split; [simpl; lia|]. unfold group. cbn [m_captures to_match].
      rewrite Hcap, list_ascii_of_string_of_list_ascii.
      exists ws, (num ++ remaining st). by rewrite Hs.
    + apply IH in Hm as (i & Em & Hr); [|lia]. exists (length pre + i).
      split; [lia|]. rewrite Hs'. by apply score_at_app.
  - destruct s as [|c tl]; [by intros ?%elem_of_nil|].
    simpl in Hfuel. intros Hm. apply IH in Hm as (i & Em & Hr); [|lia].
    exists (S i). split; [lia | done].
Qed.

End ScoreNumbers.

Section ScoreResults.

Context {pyfloat : Type} (float : string -> pyfloat).

Local Open Scope nat_scope.

(** C5: the scores are the numbers that follow the marker, in their order
    of appearance.  The places of the text read from the file where the
    marker is followed by blanks and a number are taken in increasing
    order, and each gives one score: [float] of the longest number that
    follows the marker and the blanks there, which is unique.  A text
    without such a place gives the empty list, and the two result lines
    give -7.2 and -6.8 in that order. *)
Theorem parse_scores_from_output_spec :
  (forall content : string,
     let s := list_ascii_of_string (read content) in
     (exists places : list nat,
        StronglySorted lt places
        /\ (forall p, p ∈ places <-> exists num, result_at s p num)
        /\ Forall2 (fun p x => exists num,
                      score_at s p num /\ x = float (string_of_list_ascii num))
             places (parse_scores_from_output float content))
     /\ (forall p num num', score_at s p num -> score_at s p num' -> num = num')
     /\ (forall p num, score_at s p num -> result_at s p num)
     /\ ((forall p num, ~ result_at s p num) ->
         parse_scores_from_output float content = []))
  /\ parse_scores_from_output float two_results = [float "-7.2"; float "-6.8"].
Proof.
  split; [|vm_compute; reflexivity].
  intros content s. set (ms := finditer score_re (read content)).
  destruct (finditer_from_score (2 * length s + 2) 0 s ltac:(lia))
    as (Hsort & Hin & _).
  change (finditer_from score_re (2 * length s + 2) false 0 s) with ms in *.
  assert (forall p, p ∈ map m_start ms <-> exists num, result_at s p num) as Hin'.
  { intros p. rewrite Hin. split.
    - intros (i & num & -> & Hr). by exists num.
    - intros (num & Hr). by exists p, num. }
  assert (forall m, m ∈ ms ->
            score_at s (m_start m) (list_ascii_of_string (group "score" m))) as Hat.
  { intros m Hm.
    apply (finditer_from_score_at (2 * length s + 2) 0 s m ltac:(lia)) in Hm
      as (i & -> & Hr). done. }
  split; [|split; [|split]].
  - exists (map m_start ms). split; [done|]. split; [done|].
    unfold parse_scores_from_output. fold ms. clear Hsort Hin Hin'.
    induction ms as [|m ms' IH]; [constructor|]. cbn [map]. constructor.
    + exists (list_ascii_of_string (group "score" m)).
      split; [apply Hat; by left|]. by rewrite string_of_list_ascii_of_string.
    + apply IH. intros m' Hm'. apply Hat. by right.
  - intros p num num'. apply score_at_unique.
  - intros p num. apply score_at_result.
  - intros Hnone. unfold parse_scores_from_output. fold ms.
    destruct ms as [|m ms']; [done|]. exfalso.
    destruct (proj1 (Hin' (m_start m)) ltac:(by left)) as (num & Hr).
    by apply Hnone in Hr.
Qed.

End ScoreResults.

Lemma parse_scores_from_output_spec_witness :
  (exists places : list nat,
     StronglySorted lt places
     /\ (forall p, p ∈ places
                   <-> exists num, result_at (list_ascii_of_string (read two_results)) p num)
     /\ Forall2 (fun p x => exists num,
                   score_at (list_ascii_of_string (read two_results)) p num
                   /\ x = float_text (string_of_list_ascii num))
          places ["-7.2"; "-6.8"])
  /\ parse_scores_from_output float_text "-7.2  0.000  0.000" = [].
Proof.
  split.
  - exact (proj1 (proj1 (parse_scores_from_output_spec float_text) two_results)).
  - apply (proj1 (parse_scores_from_output_spec float_text) "-7.2  0.000  0.000").
    intros p num (ws & rest & Hd & _).
    do 19 (destruct p as [|p]; [by vm_compute in Hd|]). by vm_compute in Hd.
Defined.

Example parse_scores_from_output_mixed :
  parse_scores_from_output float_text
    ("REMARK VINA RESULT:" ++ nl ++ "  1e5.3 REMARK VINA RESULT: +.5e REMARK VINA RESULT: x")
  = ["1e5"; "+.5"].
Proof. vm_compute. reflexivity. Qed.

(** A number cut short is not the score of its place. *)
Example score_at_not_truncated :
  score_at (list_ascii_of_string "REMARK VINA RESULT: 1e5") 0
    (list_ascii_of_string "1e5")
  /\ ~ score_at (list_ascii_of_string "REMARK VINA RESULT: 1e5") 0
         (list_ascii_of_string "1").
Proof.
  set (s := list_ascii_of_string "REMARK VINA RESULT: 1e5").
  assert (score_at s 0 (list_ascii_of_string "1e5")) as H.
  { assert (exists m, m ∈ finditer_from score_re 24 false 0 s
                      /\ m_start m = 0 /\ group "score" m = "1e5")
      as (m & Hm & Hst & Hg).
    { vm_compute. eexists. split; [by left|]. by split. }
    apply finditer_from_score_at in Hm as (i & Hi & Hat);
      [|vm_compute; lia].
    rewrite Hst in Hi. rewrite Hg in Hat. by replace i with 0 in Hat by lia. }
  split; [done|]. intros H'.
  by pose proof (score_at_unique _ _ _ _ H H').
Qed.

(** ** The search-box parser on well-formed lines *)

Section ConfWellFormed.

Context {pyfloat : Type} (float : string -> pyfloat).

Local Open Scope nat_scope.

(** The match of a well-formed line and its groups. *)
Lemma conf_re_matches_line (k ws1 ws2 v ws3 : string) :
  is_key k -> is_blanks ws1 -> is_blanks ws2 -> is_number v -> is_blanks ws3 ->
  exists m,
    re_match conf_re (k ++ ws1 ++ "=" ++ ws2 ++ v ++ ws3 ++ nl) = Some m
    /\ group "key" m = k /\ group "value" m = v.
Proof.
  intros [Hne Hk] H1 H2 Hv H3.
  set (line := (k ++ ws1 ++ "=" ++ ws2 ++ v ++ ws3 ++ nl)%string).
  assert (list_ascii_of_string line
          = (list_ascii_of_string k ++ list_ascii_of_string ws1 ++ "="%char
             :: list_ascii_of_string ws2 ++ list_ascii_of_string v
             ++ list_ascii_of_string ws3 ++ [newline])%list) as El.
  { unfold line. by rewrite !list_ascii_of_string_app. }
  assert (list_ascii_of_string k <> []) as Hne'.
  { by destruct k. }
  destruct (conf_re_complete _ _ _ _ _ Hne' Hk H1 H2 H3 Hv) as [st Hst].
  rewrite <- El in Hst.
  assert (re_match conf_re line = Some (to_match 0 st)) as Hm.
  { unfold re_match. by rewrite Hst. }
  exists (to_match 0 st). split; [done|].
  apply conf_re_shape in Hm
    as (key' & w1' & w2' & val' & w3' & tail & E & _ & _ & Hk' & H1' & H2' & H3'
        & Hv' & -> & ->).
  rewrite El in E. clear Hst El. symmetry in E.
  destruct (number_not_empty _ Hv) as (a & vs & Ea & Hns).
  destruct (number_not_empty _ Hv') as (a' & vs' & Ea' & Hns').
  rewrite Ea, Ea' in E. subst val'.
  apply Forall_cons in Hns as [Ha Hns]. apply Forall_cons in Hns' as [Ha' Hns'].
  (* the key *)
  apply (span_unique_run (fun c => is_word c = true) (fun c => is_space c = true))
    in E as [-> E]; [| |done|done|done|done|done].
  2:{ intros c Hc. by rewrite (space_not_word c Hc). }
  (* the blanks around the equals sign *)
  apply (span_unique (fun c => is_space c = true)) in E as (_ & _ & E);
    [|done|done|done|done].
  apply (span_unique (fun c => is_space c = true)) in E as (_ & -> & E);
    [|done|done|congruence|congruence].
  (* the number *)
  apply (span_unique_run (fun c => is_space c = false) (fun c => is_space c = true))
    in E as [-> _]; [| |done|done|done|done|done].
  2:{ intros c Hc. by rewrite Hc. }
  rewrite <- Ea, !string_of_list_ascii_of_string. done.
Qed.

(** X1: a line made of a key, blanks, [=], blanks, a number, blanks and
    the newline is matched by [conf_re], and the groups [key] and [value]
    hold the key and the number, whole. *)
Theorem conf_re_well_formed_line (k ws1 ws2 v ws3 : string) :
  is_key k -> is_blanks ws1 -> is_blanks ws2 -> is_number v -> is_blanks ws3 ->
  exists m,
    re_match conf_re (k ++ ws1 ++ "=" ++ ws2 ++ v ++ ws3 ++ nl) = Some m
    /\ group "key" m = k /\ group "value" m = v.
Proof. apply conf_re_matches_line. Qed.

(** The loop over the lines as one mapping: the entries of the matching
    lines, the later ones first. *)
Lemma conf_scan_list_to_map (lines : list string) :
  conf_scan float lines = list_to_map (rev (omap (conf_entry float) lines)).
Proof.
  induction lines as [|line lines IH] using rev_ind; [done|].
  rewrite conf_scan_snoc, omap_app, rev_app_distr, IH. simpl.
  unfold conf_line, conf_entry. by destruct (re_match conf_re line).
Qed.

Lemma conf_entry_keys (lines : list string) :
  (omap (conf_entry float) lines).*1 = omap conf_key lines.
Proof.
  induction lines as [|line lines IH]; [done|]. csimpl.
  unfold conf_entry at 1, conf_key at 1.
  destruct (re_match conf_re line); csimpl; by rewrite IH.
Qed.

(** X2: a key is in the mapping exactly when some line gives it; a key no
    line gives is missing. *)
Theorem conf_scan_lookup_missing (lines : list string) (key : string) :
  conf_scan float lines !! key = None
  <-> forall line, line ∈ lines -> conf_key line <> Some key.
Proof.
  rewrite <- not_elem_of_dom. unfold conf_scan. rewrite dom_fold_conf_line.
  rewrite dom_empty_L, (left_id_L ∅ (∪)), elem_of_list_to_set, list_elem_of_omap.
  split.
  - intros Hn line Hl E. apply Hn. eauto.
  - intros Hn (line & Hl & E). by apply (Hn line).
Qed.

(** X3: when no two matching lines give the same key, the order of the
    lines does not matter. *)
Theorem conf_scan_permutation (lines lines' : list string) :
  NoDup (omap conf_key lines) -> lines ≡ₚ lines' ->
  conf_scan float lines = conf_scan float lines'.
Proof.
  intros Hnd Hp. rewrite !conf_scan_list_to_map. apply list_to_map_proper.
  - rewrite <- (Permutation_rev (omap (conf_entry float) lines)).
    by rewrite conf_entry_keys.
  - rewrite <- !Permutation_rev. by apply omap_Permutation.
Qed.

(** What is matched holds a key and a number. *)
Lemma conf_re_groups (line : string) (m : match_obj) :
  re_match conf_re line = Some m ->
  is_key (group "key" m) /\ is_number (group "value" m).
Proof.
  intros H. apply conf_re_shape in H
    as (key & ws1 & ws2 & value & ws3 & tail & _ & _ & Hne & Hkey & _ & _ & _
        & Hval & -> & ->).
  unfold is_key, is_number. rewrite !list_ascii_of_string_of_list_ascii.
  split; [split|]; [|done|done]. by destruct key.
Qed.

(** X4: every key of the mapping is a word of at least one character. *)
Theorem conf_scan_keys_are_words (lines : list string) (key : string) :
  is_Some (conf_scan float lines !! key) -> is_key key.
Proof.
  rewrite <- elem_of_dom. unfold conf_scan. rewrite dom_fold_conf_line.
  rewrite dom_empty_L, (left_id_L ∅ (∪)), elem_of_list_to_set, list_elem_of_omap.
  intros (line & _ & E). unfold conf_key in E.
  destruct (re_match conf_re line) as [m|] eqn:Em; [|done].
  injection E as <-. by apply conf_re_groups in Em as [? _].
Qed.

End ConfWellFormed.

Section FloatOnNumbers.

Context {pyfloat : Type} (float float' : string -> pyfloat).

(** X5: [float] is only ever given texts of the number pattern: two
    conversions that agree on those give the same result, for both
    parsers. *)
Theorem parsers_float_on_numbers :
  (forall v, is_number v -> float v = float' v) ->
  forall content,
    parse_search_box_conf float content = parse_search_box_conf float' content
    /\ parse_scores_from_output float content = parse_scores_from_output float' content.
Proof.
  intros Hf content. split.
  - assert (forall lines d, fold_left (conf_line float) lines d
                            = fold_left (conf_line float') lines d) as E.
    { induction lines as [|line lines IH]; intros d; simpl; [done|].
      rewrite IH. f_equal. unfold conf_line.
      destruct (re_match conf_re line) as [m|] eqn:Em; [|done].
      apply conf_re_groups in Em as [_ Hv]. by rewrite (Hf _ Hv). }
    unfold parse_search_box_conf, conf_scan. by rewrite E.
  - unfold parse_scores_from_output. apply map_ext_in. intros m Hm.
    apply Hf. unfold is_number.
    destruct (finditer_from_score
                (2 * length (list_ascii_of_string (read content)) + 2) 0
                (list_ascii_of_string (read content)) ltac:(lia)) as (_ & _ & Hgrp).
    apply list_elem_of_In in Hm.
    destruct (Hgrp m Hm) as (i & _ & (ws & rest & _ & _ & Hnum)). done.
Qed.

End FloatOnNumbers.

(** ** Search-box files written line by line *)

Section ConfFiles.

Context {pyfloat : Type} (float : string -> pyfloat).

Local Open Scope nat_scope.

(** X6: a line that is empty or starts with a character that is not a word
    character (a blank line, an indented line, a comment) leaves the
    mapping as it is. *)
Theorem conf_line_skips_non_word_start (d : gmap string pyfloat) (line : string) :
  (forall c rest, line = String c rest -> is_word c = false) ->
  conf_line float d line = d.
Proof.
  intros Hc. apply conf_line_no_match.
  destruct (re_match conf_re line) as [m|] eqn:E; [|done].
  apply conf_re_first_char in E as (c & rest & -> & Hw).
  by rewrite (Hc c rest eq_refl) in Hw.
Qed.

Lemma readlines_aux_line (cur x y : list ascii) :
  newline ∉ x ->
  readlines_aux cur (x ++ newline :: y)
  = string_of_list_ascii (rev cur ++ x ++ [newline]) :: readlines_aux [] y.
Proof.
  revert cur. induction x as [|c x IH]; intros cur Hn; simpl.
  - done.
  - apply not_elem_of_cons in Hn as [Hc Hn].
    destruct (Ascii.eqb c newline) eqn:E; [apply Ascii.eqb_eq in E; congruence|].
    rewrite IH by done. simpl. by rewrite <- app_assoc.
Qed.

Lemma key_no_newline (k : string) : is_key k -> newline ∉ list_ascii_of_string k.
Proof.
  intros [_ Hk] Hin. rewrite Forall_forall in Hk. by apply Hk in Hin.
Qed.

Lemma number_no_newline (v : string) : is_number v -> newline ∉ list_ascii_of_string v.
Proof.
  intros Hv Hin.
  pose proof (matches_alphabet _ _ _ number_alphabet_not_space Hv) as Hall.
  rewrite Forall_forall in Hall. by apply Hall in Hin.
Qed.

Lemma list_ascii_of_string_inj (a b : string) :
  list_ascii_of_string a = list_ascii_of_string b -> a = b.
Proof.
  intros E. by rewrite <- (string_of_list_ascii_of_string a), E,
    string_of_list_ascii_of_string.
Qed.

Lemma key_no_cr (k : string) : is_key k -> carriage_return ∉ list_ascii_of_string k.
Proof.
  intros [_ Hk] Hin. rewrite Forall_forall in Hk. by apply Hk in Hin.
Qed.

Lemma number_no_cr (v : string) : is_number v -> carriage_return ∉ list_ascii_of_string v.
Proof.
  intros Hv Hin.
  pose proof (matches_alphabet _ _ _ number_alphabet_not_space Hv) as Hall.
  rewrite Forall_forall in Hall. by apply Hall in Hin.
Qed.

(** A first line without carriage return, ended by a newline, is read as
    it is stored. *)
Lemma universal_newlines_line (x y : list ascii) :
  carriage_return ∉ x ->
  universal_newlines (x ++ newline :: y) = (x ++ newline :: universal_newlines y)%list.
Proof.
  induction x as [|c x IH]; [done|]. intros [Hc Hx]%not_elem_of_cons.
  change ((c :: x) ++ newline :: y)%list with (c :: (x ++ newline :: y))%list.
  rewrite universal_newlines_cons.
  destruct (Ascii.eqb c carriage_return) eqn:E;
    [apply Ascii.eqb_eq in E; congruence|].
  by rewrite IH.
Qed.

Lemma readlines_cons_line (line rest : string) :
  no_line_end line ->
  readlines (line ++ nl ++ rest) = (line ++ nl)%string :: readlines rest.
Proof.
  intros [Hn Hc]. unfold readlines. rewrite !read_list.
  rewrite !list_ascii_of_string_app.
  cbn [nl list_ascii_of_string app]. rewrite universal_newlines_line by done.
  rewrite readlines_aux_line by done.
  f_equal. cbn [rev app].
  rewrite <- (string_of_list_ascii_of_string (line ++ nl)).
  by rewrite list_ascii_of_string_app.
Qed.

(** The lines of a file written from its entries are the lines written. *)
Lemma readlines_conf_text (entries : list (string * string)) :
  Forall (fun e => is_key e.1 /\ is_number e.2) entries ->
  readlines (conf_text entries) = map conf_text_line entries.
Proof.
  induction 1 as [|[k v] entries [Hk Hv] _ IH]; [done|].
  cbn [conf_text fold_right map]. fold (conf_text entries).
  unfold conf_text_line at 1. cbn [fst snd].
  replace ((k ++ " = " ++ v ++ nl) ++ conf_text entries)%string
    with ((k ++ " = " ++ v) ++ nl ++ conf_text entries)%string
    by (apply list_ascii_of_string_inj;
        by rewrite !list_ascii_of_string_app, <- !app_assoc).
  rewrite readlines_cons_line.
  - rewrite IH. f_equal. unfold conf_text_line. cbn [fst snd].
    apply list_ascii_of_string_inj.
    by rewrite !list_ascii_of_string_app, <- !app_assoc.
  - unfold no_line_end. rewrite !list_ascii_of_string_app, !not_elem_of_app.
    split.
    + split; [by apply key_no_newline|].
      split; [|by apply number_no_newline].
      apply (bool_decide_unpack _). by vm_compute.
    + split; [by apply key_no_cr|].
      split; [|by apply number_no_cr].
      apply (bool_decide_unpack _). by vm_compute.
Qed.

Lemma conf_entry_conf_text_line (e : string * string) :
  is_key e.1 -> is_number e.2 ->
  conf_entry float (conf_text_line e) = Some (e.1, float e.2).
Proof.
  intros Hk Hv. unfold conf_entry, conf_text_line.
  destruct (conf_re_matches_line e.1 " " " " e.2 "" Hk) as (m & Hm & Ek & Ev);
    [by repeat constructor | by repeat constructor | done | by constructor |].
  change (e.1 ++ " " ++ "=" ++ " " ++ e.2 ++ "" ++ nl)%string
    with (e.1 ++ " = " ++ e.2 ++ nl)%string in Hm.
  by rewrite Hm, Ek, Ev.
Qed.

(** X7: a file written as one [key = value] line per entry reads back as
    the mapping of its entries, a later entry of a key replacing an
    earlier one; with 6 entries of distinct keys, [parse_search_box_conf]
    returns exactly them. *)
Theorem parse_search_box_conf_round_trip (entries : list (string * string)) :
  Forall (fun e => is_key e.1 /\ is_number e.2) entries ->
  conf_scan float (readlines (conf_text entries))
  = list_to_map (rev (map (fun e => (e.1, float e.2)) entries))
  /\ (NoDup entries.*1 -> length entries = 6 ->
      parse_search_box_conf float (conf_text entries)
      = inr (list_to_map (map (fun e => (e.1, float e.2)) entries))).
Proof.
  intros Hwf.
  assert (omap (conf_entry float) (map conf_text_line entries)
          = map (fun e => (e.1, float e.2)) entries) as Hentries.
  { induction Hwf as [|e entries [Hk Hv] _ IH]; [done|]. csimpl.
    rewrite (conf_entry_conf_text_line e Hk Hv). csimpl. by rewrite IH. }
  assert (conf_scan float (readlines (conf_text entries))
          = list_to_map (rev (map (fun e => (e.1, float e.2)) entries))) as Hscan.
  { by rewrite readlines_conf_text, conf_scan_list_to_map, Hentries. }
  split; [done|]. intros Hnd Hlen.
  assert ((map (fun e => (e.1, float e.2)) entries).*1 = entries.*1) as Hkeys.
  { clear. induction entries as [|e entries IH]; [done|]. csimpl. by rewrite IH. }
  assert (list_to_map (rev (map (fun e => (e.1, float e.2)) entries))
          = (list_to_map (map (fun e => (e.1, float e.2)) entries)
             : gmap string pyfloat)) as Hrev.
  { symmetry. apply list_to_map_proper; [by rewrite Hkeys|]. apply Permutation_rev. }
  unfold parse_search_box_conf. rewrite Hscan, Hrev.
  rewrite decide_True; [done|].
  rewrite map_size_list_to_map by (by rewrite Hkeys). by rewrite length_map.
Qed.

End ConfFiles.

(** ** Preparation of a molecule *)

Section PreparationProperties.

Context `{TKP : RDKitPrep}.

Lemma objects_kept_refl (w : world) : objects_kept w w.
Proof. by intros l m H. Qed.

Lemma objects_kept_logs (w : world) (d : gset string) :
  objects_kept w {| heap := heap w; disabled_logs := d; trace := trace w |}.
Proof. by intros l m H. Qed.

(** [sanitize_mol], computed. *)
Lemma sanitize_mol_eq (w : world) (mol : loc) (m : Mol) (verbose : bool) :
  heap w !! mol = Some m ->
  sanitize_mol mol verbose w =
    let off := (if verbose then disabled_logs w
                else {["rdApp.info"]} ∪ disabled_logs w) in
    match Uncharger_uncharge m with
    | inl e => (inl e, {| heap := heap w; disabled_logs := off; trace := trace w |})
    | inr m' =>
        (inr (fresh (dom (heap w))),
         {| heap := <[fresh (dom (heap w)) := m']> (heap w);
            disabled_logs := (if verbose then off else off ∖ {["rdApp.info"]});
            trace := trace w |})
    end.
Proof.
  intros H. unfold sanitize_mol, mbind, M_bind, bind, deref.
  destruct verbose; simpl; rewrite H; simpl;
    destruct (Uncharger_uncharge m) as [e|m']; simpl; try done.
  by destruct w.
Qed.

(** X8: [sanitize_mol] leaves every object as it was and makes no call of
    the trace.  Whatever [verbose] is, it returns a new object that holds
    the uncharged molecule, or raises what the uncharging raises.  With
    [verbose] it does not touch the log switches.  Without, the info log is
    on after a normal return, also when it was off before the call, and is
    left off when the uncharging raises; the other switches are as they
    were. *)
Theorem sanitize_mol_effects (w : world) (mol : loc) (m : Mol) (verbose : bool) :
  heap w !! mol = Some m ->
  let r := sanitize_mol mol verbose w in
  objects_kept w r.2
  /\ trace r.2 = trace w
  /\ (verbose = true -> disabled_logs r.2 = disabled_logs w)
  /\ match r.1 with
     | inr l =>
         heap w !! l = None
         /\ (exists m', Uncharger_uncharge m = inr m'
                        /\ heap r.2 = <[l := m']> (heap w))
         /\ (verbose = false ->
             disabled_logs r.2 = disabled_logs w ∖ {["rdApp.info"]})
     | inl e =>
         Uncharger_uncharge m = inl e
         /\ heap r.2 = heap w
         /\ (verbose = false ->
             disabled_logs r.2 = {["rdApp.info"]} ∪ disabled_logs w)
     end.
Proof.
  intros H r. unfold r. rewrite (sanitize_mol_eq _ _ _ _ H). cbv zeta.
  destruct (Uncharger_uncharge m) as [e|m'] eqn:E; simpl.
  - split; [apply objects_kept_logs|]. split; [done|]. split; [by intros ->|].
    split; [done|]. split; [done|]. by intros ->.
  - split; [apply objects_kept_insert_fresh|]. split; [done|].
    split; [by intros ->|]. split; [apply fresh_lookup_None|].
    split; [by exists m'|]. intros ->. set_solver.
Qed.

(** [assign_bond_orders], computed. *)
Lemma assign_bond_orders_eq (w : world) (subject ref : loc) (s r : Mol)
    (verbose : bool) :
  heap w !! subject = Some s -> heap w !! ref = Some r ->
  assign_bond_orders subject ref verbose w =
    let off := (if verbose then disabled_logs w
                else {["rdApp.warning"]} ∪ disabled_logs w) in
    let failed := {| heap := heap w; disabled_logs := off; trace := trace w |} in
    match AssignBondOrdersFromTemplate r s with
    | Assigned m =>
        (inr (fresh (dom (heap w))),
         {| heap := <[fresh (dom (heap w)) := m]> (heap w);
            disabled_logs := (if verbose then off else off ∖ {["rdApp.warning"]});
            trace := trace w |})
    | ValueError msg | AtomValenceException msg =>
        (inl (DockingError ("Could not assign bond orders: " ++ msg)), failed)
    | Raised e =>
        (inl (if is_ValueError e
              then DockingError ("Could not assign bond orders: " ++ exn_str e)
              else e), failed)
    end.
Proof.
  intros Hs Hr. unfold assign_bond_orders, mbind, M_bind, bind, deref.
  destruct verbose; simpl; rewrite Hr; simpl; rewrite Hs; simpl;
    destruct (AssignBondOrdersFromTemplate r s) as [m|msg|msg|e]; simpl;
    try done; try (by destruct (is_ValueError e)); try (by destruct w);
    by destruct (is_ValueError e), w.
Qed.

(** X9: [assign_bond_orders] returns the molecule the toolkit assigns, as
    a new object.  It turns a ValueError or an AtomValenceException of the
    toolkit into DockingError, and with them an exception of a subclass of
    ValueError, such as KekulizeException; any other exception goes through
    as it is.  It changes no object.  With [verbose] it does not touch the
    log switches; without, the warning log stays switched off on each path
    that raises, and only a normal return switches it on again. *)
Theorem assign_bond_orders_effects
    (w : world) (subject ref : loc) (s r : Mol) (verbose : bool) :
  heap w !! subject = Some s -> heap w !! ref = Some r ->
  let res := assign_bond_orders subject ref verbose w in
  objects_kept w res.2
  /\ (verbose = true -> disabled_logs res.2 = disabled_logs w)
  /\ match AssignBondOrdersFromTemplate r s with
     | Assigned m =>
         exists l, res.1 = inr l /\ heap w !! l = None
                   /\ heap res.2 = <[l := m]> (heap w)
                   /\ (verbose = false -> "rdApp.warning" ∉ disabled_logs res.2)
     | ValueError msg | AtomValenceException msg =>
         res.1 = inl (DockingError ("Could not assign bond orders: " ++ msg))
         /\ heap res.2 = heap w
         /\ (verbose = false -> "rdApp.warning" ∈ disabled_logs res.2)
     | Raised e =>
         (forall msg, e = KekulizeException msg ->
            res.1 = inl (DockingError ("Could not assign bond orders: " ++ msg)))
         /\ ((forall msg, e <> KekulizeException msg) -> res.1 = inl e)
         /\ heap res.2 = heap w
         /\ (verbose = false -> "rdApp.warning" ∈ disabled_logs res.2)
     end.
Proof.
  intros Hs Hr res. unfold res.
  rewrite (assign_bond_orders_eq _ _ _ _ _ _ Hs Hr). cbv zeta.
  destruct (AssignBondOrdersFromTemplate r s) as [m|msg|msg|e]; simpl;
    (split; [first [apply objects_kept_insert_fresh | apply objects_kept_logs]|]);
    (split; [by intros ->|]).
  - exists (fresh (dom (heap w))). split; [done|]. split; [apply fresh_lookup_None|].
    split; [done|]. intros ->.
    apply not_elem_of_difference. right. by apply elem_of_singleton.
  - split; [done|]. split; [done|]. intros ->.
    by apply elem_of_union_l, elem_of_singleton.
  - split; [done|]. split; [done|]. intros ->.
    by apply elem_of_union_l, elem_of_singleton.
  - split; [by intros msg ->|]. split.
    { intros Hne. destruct e as [msg|msg| |name]; try done. by destruct (Hne msg). }
    split; [done|]. intros ->. by apply elem_of_union_l, elem_of_singleton.
Qed.

(** [embed_mol], computed: the molecule with hydrogens is a new object, the
    embedding works on it with a bound on the attempts that counts its
    atoms, hydrogens included. *)
Lemma embed_mol_eq (w : world) (mol : loc) (m : Mol) (seed attempt_factor : Z) :
  heap w !! mol = Some m ->
  embed_mol mol seed attempt_factor w =
    let l := fresh (dom (heap w)) in
    let mh := AddHs m in
    let e := EmbedMolecule mh seed (attempt_factor * Z.of_nat (GetNumAtoms mh)) in
    let w' := {| heap := <[l := e.1]> (heap w); disabled_logs := disabled_logs w;
                 trace := trace w |} in
    (match e.2 with
     | inl ex => inl ex
     | inr _ => if (GetNumConformers e.1 =? 0)%nat
                then inl (DockingError "Generation of ligand conformation failed")
                else inr l
     end, w').
Proof.
  intros H. unfold embed_mol, update, mbind, M_bind, bind, deref.
  rewrite H. simpl. rewrite lookup_insert_eq. simpl. rewrite lookup_insert_eq. simpl.
  rewrite insert_insert_eq.
  destruct (EmbedMolecule _ _ _).2 as [ex|z]; simpl; [done|].
  rewrite lookup_insert_eq.
  by destruct (GetNumConformers _ =? 0)%nat.
Qed.

(** X10: [embed_mol] leaves every object as it was; what it returns is a
    new object with at least one conformer, the result of embedding the
    molecule with its hydrogens added, with at most [attempt_factor] times
    the number of its atoms (hydrogens included) attempts.  It raises
    DockingError exactly when the embedding returns and leaves no
    conformer. *)
Theorem embed_mol_result (w : world) (mol : loc) (m : Mol) (seed attempt_factor : Z) :
  heap w !! mol = Some m ->
  let res := embed_mol mol seed attempt_factor w in
  let mh := AddHs m in
  let e := EmbedMolecule mh seed (attempt_factor * Z.of_nat (GetNumAtoms mh)) in
  objects_kept w res.2
  /\ (forall l, res.1 = inr l ->
        heap w !! l = None /\ heap res.2 !! l = Some e.1
        /\ 1 <= GetNumConformers e.1)
  /\ ((exists msg, res.1 = inl (DockingError msg))
      <-> ((exists z, e.2 = inr z) /\ GetNumConformers e.1 = 0
           \/ exists msg, e.2 = inl (DockingError msg))).
Proof.
  intros H res mh e. unfold res. rewrite (embed_mol_eq _ _ _ _ _ H). cbv zeta.
  fold mh. fold e. simpl. split; [apply objects_kept_insert_fresh|]. split.
  - intros l Hl. destruct e.2 as [ex|z]; [done|].
    destruct (GetNumConformers e.1 =? 0)%nat eqn:E; [done|]. injection Hl as <-.
    apply Nat.eqb_neq in E. split; [apply fresh_lookup_None|].
    split; [apply lookup_insert_eq | lia].
  - destruct e.2 as [ex|z].
    + split.
      * intros [msg [= ->]]. right. eauto.
      * intros [[[z ?] _]|[msg [= ->]]]; [done | eauto].
    + destruct (GetNumConformers e.1 =? 0)%nat eqn:E.
      * apply Nat.eqb_eq in E. split; [intros _; left; eauto | eauto].
      * apply Nat.eqb_neq in E. split; [by intros [msg ?]|].
        intros [[_ ?]|[msg ?]]; done.
Qed.

(** [read_mol_from_pdb], computed. *)
Lemma read_mol_from_pdb_eq (w : world) (pdb_file : string) :
  read_mol_from_pdb pdb_file w =
    match MolFromPDBFile pdb_file with
    | inl e => (inl e, w)
    | inr None => (inl (DockingError ("Cannot read PDB file " ++ pdb_file)), w)
    | inr (Some m) =>
        (if (GetNumConformers m =? 0)%nat
         then inl (DockingError ("Cannot read PDB file " ++ pdb_file))
         else inr (fresh (dom (heap w))),
         {| heap := <[fresh (dom (heap w)) := m]> (heap w);
            disabled_logs := disabled_logs w; trace := trace w |})
    end.
Proof.
  unfold read_mol_from_pdb, mbind, M_bind, bind.
  destruct (MolFromPDBFile pdb_file) as [e|[m|]]; simpl; try done.
  by destruct (GetNumConformers m =? 0)%nat.
Qed.

(** X11: a molecule that [embed_mol] or [read_mol_from_pdb] has returned
    passes the conformer check of [write_mol_to_mol_file]: the call does
    not raise, writes the MOL block of that molecule to [mol_file] and
    leaves the other files and every object alone. *)
Theorem write_after_embed_or_read
    (w w' : world) (mol l : loc) (seed attempt_factor : Z) (pdb_file : string) :
  (is_Some (heap w !! mol) /\ embed_mol mol seed attempt_factor w = (inr l, w'))
  \/ read_mol_from_pdb pdb_file w = (inr l, w') ->
  forall (mol_file : string) (files : gmap string string),
    exists m, heap w' !! l = Some m
              /\ write_mol_to_mol_file l mol_file files w'
                 = (inr (<[mol_file := MolToMolBlock m]> files), w').
Proof.
  intros Hfrom mol_file files.
  assert (exists m, heap w' !! l = Some m /\ 1 <= GetNumConformers m) as (m & Hl & Hc).
  { destruct Hfrom as [[[m Hm] E]|E].
    - rewrite (embed_mol_eq _ _ _ _ _ Hm) in E. cbv zeta in E.
      injection E as E <-. cbn [heap].
      destruct (EmbedMolecule _ _ _).2 as [ex|z]; [done|].
      destruct (GetNumConformers _ =? 0)%nat eqn:Ec; [done|].
      apply Nat.eqb_neq in Ec. injection E as <-. eexists.
      split; [apply lookup_insert_eq | lia].
    - rewrite read_mol_from_pdb_eq in E.
      destruct (MolFromPDBFile pdb_file) as [e|[m|]]; [done| |done].
      destruct (GetNumConformers m =? 0)%nat eqn:Ec; [done|].
      apply Nat.eqb_neq in Ec. injection E as <- <-. exists m.
      split; [apply lookup_insert_eq | lia]. }
  exists m. split; [done|].
  unfold write_mol_to_mol_file, mbind, M_bind, bind, deref. rewrite Hl. simpl.
  by replace (GetNumConformers m <? 1)%nat with false
    by (symmetry; apply Nat.ltb_ge; lia).
Qed.

End PreparationProperties.

(** ** Finding the resources of the package *)

Section ResourcesProperties.

Variable system_name : string.
Variable resources : list string.
Variables is_dir is_file : list string -> bool.

(** X12: [get_vina_path] gives a path exactly when the [resources]
    directory and its [bin] directory exist, the system is Linux and the
    file [vina_linux] is in [bin]; the path is that file.  Every failure
    is a DockingError, and a missing [resources] directory is what is
    reported first, by [get_targets_dir] and [get_bin_dir] too. *)
Theorem get_vina_path_spec :
  (forall path,
     get_vina_path system_name resources is_dir is_file = inr path
     <-> is_dir resources = true
         /\ is_dir (resources ++ ["bin"])%list = true
         /\ system_name = "Linux"
         /\ is_file (resources ++ ["bin"; "vina_linux"])%list = true
         /\ path = (resources ++ ["bin"; "vina_linux"])%list)
  /\ (forall e, get_vina_path system_name resources is_dir is_file = inl e ->
        exists msg, e = DockingError msg)
  /\ (is_dir resources = false ->
      let missing := inl (DockingError "'resources' directory not found") in
      get_vina_path system_name resources is_dir is_file = missing
      /\ get_bin_dir resources is_dir = missing
      /\ get_targets_dir resources is_dir = missing).
Proof.
  unfold get_vina_path, get_bin_dir, get_targets_dir, get_resources_dir,
    get_vina_filename, joinpath.
  destruct (is_dir resources) eqn:E1; simpl.
  2:{ split; [|split; [|done]].
      - intros path. split; [done | by intros (? & _)].
      - intros e [= <-]. eauto. }
  destruct (is_dir (resources ++ ["bin"])) eqn:E2; simpl.
  2:{ split; [|split; [|done]].
      - intros path. split; [done | by intros (_ & ? & _)].
      - intros e [= <-]. eauto. }
  destruct (String.eqb system_name "Linux") eqn:E3.
  2:{ apply String.eqb_neq in E3. split; [|split; [|done]].
      - intros path. split; [done | by intros (_ & _ & ? & _)].
      - intros e [= <-]. eauto. }
  apply String.eqb_eq in E3. rewrite <- app_assoc. simpl.
  destruct (is_file (resources ++ ["bin"; "vina_linux"])) eqn:E4; simpl.
  - split; [|split; [done|done]]. intros path. split.
    + by intros [= <-].
    + by intros (_ & _ & _ & _ & ->).
  - split; [|split; [|done]].
    + intros path. split; [done | by intros (_ & _ & _ & ? & _)].
    + intros e [= <-]. eauto.
Qed.

End ResourcesProperties.

(** ** More on the functions of the claims *)

Section MoreMoleculeProperties.

Context `{TK : RDKit}.

(** X13: with [verbose], [smiles_to_mol] never touches the log switches;
    without, a successful call ends with the error log on, also when it
    was off before.  The molecule parsed is a new object and the others
    are as they were. *)
Theorem smiles_to_mol_effects (smiles : string) (verbose : bool) (w : world) :
  let r := smiles_to_mol smiles verbose w in
  objects_kept w r.2
  /\ (verbose = true -> disabled_logs r.2 = disabled_logs w)
  /\ (forall m, MolFromSmiles smiles = Some m ->
        exists l, r.1 = inr l /\ heap w !! l = None /\ heap r.2 !! l = Some m
                  /\ (verbose = false -> "rdApp.error" ∉ disabled_logs r.2)).
Proof.
  unfold smiles_to_mol, mbind, M_bind, bind.
  destruct verbose, (MolFromSmiles smiles) as [m|] eqn:E; simpl.
  - split; [apply objects_kept_insert_fresh|]. split; [done|].
    intros m' [= <-]. eexists. split; [done|]. split; [apply fresh_lookup_None|].
    split; [apply lookup_insert_eq | done].
  - split; [by intros l m' H|]. split; [done | done].
  - split; [apply objects_kept_insert_fresh|]. split; [done|].
    intros m' [= <-]. eexists. split; [done|]. split; [apply fresh_lookup_None|].
    split; [apply lookup_insert_eq|]. intros _.
    apply not_elem_of_difference. right. by apply elem_of_singleton.
  - split; [by intros l m' H|]. split; [done | done].
Qed.

(** What a UFF run returns. *)
Lemma run_uff_opt_result (w : world) (mol : loc) (m : Mol) (max_iters : Z) :
  heap w !! mol = Some m ->
  let u := UFFOptimizeMolecule m max_iters in
  (run_uff_opt mol max_iters w).1
  = match u.2 with
    | inl e => inl e
    | inr z => if (z =? 0)%Z then inr (fresh (dom (heap w)))
               else inl (DockingError "UFF optimization of ligand failed")
    end
  /\ (forall l, (run_uff_opt mol max_iters w).1 = inr l ->
        u.2 = inr 0%Z /\ heap (run_uff_opt mol max_iters w).2 !! l = Some u.1).
Proof.
  intros H u. rewrite (run_uff_opt_eq _ _ _ _ H). cbv zeta. fold u.
  split; [done|]. simpl. intros l Hl. destruct u.2 as [e|z]; [done|].
  destruct (z =? 0)%Z eqn:Ez; [|done]. apply Z.eqb_eq in Ez as ->.
  injection Hl as <-. split; [done | apply lookup_insert_eq].
Qed.

(** X14: a force-field run returns a molecule only when the optimizer
    returned status 0: a nonzero status (not converged, or set-up failed)
    is a DockingError, with the message of the method, and an exception of
    the toolkit goes through as it is.  A UFF run makes one call, the UFF
    optimization of its copy.  An MMFF94 run sanitizes its copy and then
    optimizes it; when the sanitization raises, the optimizer is not
    called: the sanitization is the only call of the run. *)
Theorem force_field_status (w : world) (mol : loc) (m : Mol) (max_iters : Z) :
  heap w !! mol = Some m ->
  let l0 := fresh (dom (heap w)) in
  let u := UFFOptimizeMolecule m max_iters in
  let s := MMFFSanitizeMolecule m in
  let f := MMFFOptimizeMolecule s.1 "MMFF94" max_iters in
  (run_uff_opt mol max_iters w).1
  = match u.2 with
    | inl e => inl e
    | inr z => if (z =? 0)%Z then inr l0
               else inl (DockingError "UFF optimization of ligand failed")
    end
  /\ (run_mmff94_opt mol max_iters w).1
     = match s.2, f.2 with
       | inl e, _ => inl e
       | inr _, inl e => inl e
       | inr _, inr z => if (z =? 0)%Z then inr l0
                         else inl (DockingError "MMFF optimization of ligand failed")
       end
  /\ (forall l, (run_uff_opt mol max_iters w).1 = inr l ->
        u.2 = inr 0%Z /\ heap (run_uff_opt mol max_iters w).2 !! l = Some u.1)
  /\ (forall l, (run_mmff94_opt mol max_iters w).1 = inr l ->
        s.2 = inr tt /\ f.2 = inr 0%Z
        /\ heap (run_mmff94_opt mol max_iters w).2 !! l = Some f.1)
  /\ trace (run_uff_opt mol max_iters w).2
     = Call_UFFOptimizeMolecule l0 max_iters :: trace w
  /\ trace (run_mmff94_opt mol max_iters w).2
     = match s.2 with
       | inl _ => Call_MMFFSanitizeMolecule l0 :: trace w
       | inr _ => Call_MMFFOptimizeMolecule l0 "MMFF94" max_iters
                  :: Call_MMFFSanitizeMolecule l0 :: trace w
       end.
Proof.
  intros H l0 u s f.
  destruct (run_uff_opt_result w mol m max_iters H) as [Hu Hul].
  fold u in Hu, Hul. fold l0 in Hu. split; [done|].
  rewrite (run_uff_opt_eq _ _ _ _ H), (run_mmff94_opt_eq _ _ _ _ H) in *.
  cbv zeta. fold u. fold s. fold f. fold l0. split; [|split; [|split; [|split]]].
  - by destruct s.2 as [e|[]].
  - done.
  - intros l Hl. destruct s.2 as [e|[]]; [done|]. simpl in *.
    destruct f.2 as [e|z]; [done|].
    destruct (z =? 0)%Z eqn:Ez; [|done]. apply Z.eqb_eq in Ez as ->.
    injection Hl as <-. split; [done|]. split; [done | apply lookup_insert_eq].
  - done.
  - by destruct s.2 as [e|[]].
Qed.

(** X15: when the MMFF94 run raises KekulizeException, the fallback works
    on a fresh copy of the molecule passed in, not on the copy the failed
    run has changed: what [refine_mol_with_ff] returns is the UFF
    optimization of the input as it was. *)
Theorem refine_mol_with_ff_fallback_from_input
    (w : world) (mol : loc) (m : Mol) (max_iters : Z) (msg : string) :
  heap w !! mol = Some m ->
  MMFFHasAllMoleculeParams m = true ->
  (run_mmff94_opt mol max_iters w).1 = inl (KekulizeException msg) ->
  let u := UFFOptimizeMolecule m max_iters in
  let r := refine_mol_with_ff mol max_iters w in
  (forall l, r.1 = inr l -> u.2 = inr 0%Z /\ heap r.2 !! l = Some u.1)
  /\ (u.2 = inr 0%Z -> exists l, r.1 = inr l /\ heap r.2 !! l = Some u.1)
  /\ (forall z, u.2 = inr z -> z <> 0%Z ->
        r.1 = inl (DockingError "UFF optimization of ligand failed")).
Proof.
  intros H Hp Hk u r. unfold r. rewrite (refine_mol_with_ff_eq _ _ _ _ H), Hp.
  destruct (run_mmff94_opt_frame _ _ _ max_iters H) as (Hk1 & _ & _).
  destruct (run_mmff94_opt mol max_iters w) as [res w1] eqn:E. simpl in Hk.
  rewrite Hk. simpl in Hk1.
  set (w2 := {| heap := heap w1 |}).
  assert (heap w2 !! mol = Some m) as H2 by (apply Hk1, H).
  destruct (run_uff_opt_result w2 mol m max_iters H2) as (Hu & Hul).
  fold u in Hu, Hul. split; [|split].
  - intros l Hl. by apply Hul.
  - intros Hz. rewrite Hu, Hz. simpl. eexists. split; [done|]. apply Hul.
    by rewrite Hu, Hz.
  - intros z Hz Hnz. rewrite Hu, Hz. by apply Z.eqb_neq in Hnz as ->.
Qed.

End MoreMoleculeProperties.

(** ** The examples of the further properties *)

(** A text the matcher accepts whole is a word of the pattern. *)
Lemma matches_by_run (r : regex) (w : list ascii) :
  is_Some (rmatch r (start_state 0 w) at_end) -> matches r w.
Proof.
  intros [res H]. apply rmatch_sound in H as (st' & w' & Hk & Hm & [R _]).
  unfold at_end in Hk. destruct (remaining st') eqn:E; [|done].
  simpl in R. rewrite R, app_nil_r. done.
Qed.

Lemma box_entries_well_formed :
  Forall (fun e => is_key e.1 /\ is_number e.2) box_entries.
Proof.
  repeat constructor; try done; apply matches_by_run; vm_compute; eauto.
Qed.

Lemma conf_re_well_formed_line_witness :
  exists m,
    re_match conf_re ("size_x" ++ "  " ++ "=" ++ " " ++ "20.0" ++ " " ++ nl) = Some m
    /\ group "key" m = "size_x" /\ group "value" m = "20.0".
Proof.
  apply (conf_re_well_formed_line "size_x" "  " " " "20.0" " ").
  - split; [done | repeat constructor].
  - repeat constructor.
  - repeat constructor.
  - apply matches_by_run. vm_compute. eauto.
  - repeat constructor.
Defined.

Lemma parse_search_box_conf_round_trip_witness :
  conf_scan float_text (readlines (conf_text box_entries))
  = list_to_map (rev (map (fun e => (e.1, float_text e.2)) box_entries))
  /\ (NoDup box_entries.*1 -> length box_entries = 6 ->
      parse_search_box_conf float_text (conf_text box_entries)
      = inr (list_to_map (map (fun e => (e.1, float_text e.2)) box_entries))).
Proof.
  exact (parse_search_box_conf_round_trip float_text box_entries
           box_entries_well_formed).
Defined.

Lemma conf_scan_permutation_witness :
  conf_scan float_text (readlines six_lines)
  = conf_scan float_text (rev (readlines six_lines)).
Proof.
  apply (conf_scan_permutation float_text).
  - apply (bool_decide_unpack _). vm_compute. reflexivity.
  - apply Permutation_rev.
Defined.

Lemma conf_scan_keys_are_words_witness : is_key "size_x".
Proof.
  apply (conf_scan_keys_are_words float_text (readlines six_lines) "size_x").
  vm_compute. eauto.
Defined.

Lemma conf_line_skips_non_word_start_witness :
  conf_line float_text ∅ ("# search box" ++ nl) = ∅.
Proof.
  apply (conf_line_skips_non_word_start float_text ∅ ("# search box" ++ nl)).
  intros c rest [= <- _]. reflexivity.
Defined.

Lemma parsers_float_on_numbers_witness :
  parse_search_box_conf float_text six_lines
  = parse_search_box_conf float_or_nan six_lines
  /\ parse_scores_from_output float_text six_lines
     = parse_scores_from_output float_or_nan six_lines.
Proof.
  apply (parsers_float_on_numbers float_text float_or_nan).
  intros v Hv. unfold float_or_nan, float_text.
  destruct v as [|c v]; [|done].
  by destruct (number_not_empty _ Hv) as (? & ? & ? & _).
Defined.

Lemma conf_scan_lookup_missing_witness :
  conf_scan float_text (readlines five_lines) !! "size_z" = None.
Proof.
  apply (conf_scan_lookup_missing float_text (readlines five_lines) "size_z").
  intros line Hl. vm_compute in Hl.
  repeat (apply elem_of_cons in Hl as [->|Hl]; [vm_compute; discriminate|]).
  by apply not_elem_of_nil in Hl.
Defined.

Lemma sanitize_mol_effects_witness :
  let w := Lab.world_with Lab.acetate in
  let r := sanitize_mol (TKP := Lab.prep) 1%positive false w in
  objects_kept w r.2
  /\ trace r.2 = trace w
  /\ (false = true -> disabled_logs r.2 = disabled_logs w)
  /\ match r.1 with
     | inr l =>
         heap w !! l = None
         /\ (exists m', Uncharger_uncharge (RDKitPrep := Lab.prep) Lab.acetate = inr m'
                        /\ heap r.2 = <[l := m']> (heap w))
         /\ (false = false ->
             disabled_logs r.2 = disabled_logs w ∖ {["rdApp.info"]})
     | inl e =>
         Uncharger_uncharge (RDKitPrep := Lab.prep) Lab.acetate = inl e
         /\ heap r.2 = heap w
         /\ (false = false ->
             disabled_logs r.2 = {["rdApp.info"]} ∪ disabled_logs w)
     end.
Proof.
  exact (sanitize_mol_effects (TKP := Lab.prep) (Lab.world_with Lab.acetate)
           1%positive Lab.acetate false eq_refl).
Defined.

Lemma assign_bond_orders_effects_witness :
  let w := Lab.world_with2 Lab.acetate Lab.ethanol in
  let res := assign_bond_orders (TKP := Lab.prep) 1%positive 2%positive false w in
  objects_kept w res.2
  /\ res.1 = inl (DockingError "Could not assign bond orders: Can't kekulize mol.")
  /\ heap res.2 = heap w
  /\ "rdApp.warning" ∈ disabled_logs res.2.
Proof.
  destruct (assign_bond_orders_effects (TKP := Lab.prep)
              (Lab.world_with2 Lab.acetate Lab.ethanol)
              1%positive 2%positive Lab.acetate Lab.ethanol false eq_refl eq_refl)
    as (Hkept & _ & Hkek & _ & Hheap & Hlog).
  exact (conj Hkept (conj (Hkek _ eq_refl) (conj Hheap (Hlog eq_refl)))).
Defined.

Lemma embed_mol_result_witness :
  let w := Lab.world_with Lab.acetate in
  objects_kept w (embed_mol (TKP := Lab.prep) 1%positive 42 10 w).2.
Proof.
  exact (proj1 (embed_mol_result (TKP := Lab.prep) (Lab.world_with Lab.acetate)
                  1%positive Lab.acetate 42 10 eq_refl)).
Defined.

Lemma write_after_embed_or_read_witness :
  let w := Lab.world_with Lab.acetate in
  let w' := (read_mol_from_pdb (TKP := Lab.prep) "ligand.pdb" w).2 in
  exists m, heap w' !! 2%positive = Some m
            /\ write_mol_to_mol_file (TKP := Lab.prep) 2%positive "ligand.mol" ∅ w'
               = (inr (<[ "ligand.mol" := MolToMolBlock (RDKitPrep := Lab.prep) m]> ∅), w').
Proof.
  exact (write_after_embed_or_read (TKP := Lab.prep) (Lab.world_with Lab.acetate)
           _ 1%positive 2%positive 0 0 "ligand.pdb" (or_intror eq_refl)
           "ligand.mol" ∅).
Defined.

Lemma force_field_status_witness :
  let w := Example.world_with Example.unkekulizable in
  let l0 := fresh (dom (heap w)) in
  (run_mmff94_opt 1%positive 1000 w).1 = inl (KekulizeException "Can't kekulize mol.")
  /\ trace (run_mmff94_opt 1%positive 1000 w).2 = [Call_MMFFSanitizeMolecule l0]
  /\ (run_uff_opt 1%positive 1000 w).1 = inr l0
  /\ trace (run_uff_opt 1%positive 1000 w).2 = [Call_UFFOptimizeMolecule l0 1000].
Proof.
  destruct (force_field_status (TK := Example.toolkit)
              (Example.world_with Example.unkekulizable)
              1%positive Example.unkekulizable 1000 eq_refl)
    as (Huff & Hmmff & _ & _ & Htu & Htm).
  exact (conj Hmmff (conj Htm (conj Huff Htu))).
Defined.

Lemma refine_mol_with_ff_fallback_from_input_witness :
  let w := Example.world_with Example.unkekulizable in
  let r := refine_mol_with_ff 1%positive 1000 w in
  exists l, r.1 = inr l
            /\ heap r.2 !! l = Some (Example.set_optimized Example.unkekulizable).
Proof.
  exact (proj1 (proj2 (refine_mol_with_ff_fallback_from_input (TK := Example.toolkit)
                         (Example.world_with Example.unkekulizable) 1%positive
                         Example.unkekulizable 1000 "Can't kekulize mol."
                         eq_refl eq_refl eq_refl)) eq_refl).
Defined.

Lemma check_mol_rejects_atomic_num_zero_witness :
  check_mol (TK := Lab.toolkit) 1%positive (Lab.world_with Lab.attached_methanol)
  = (inl (DockingError "Cannot process molecule: hydrogen atoms couldn't be removed"),
     Lab.world_with Lab.attached_methanol).
Proof.
  apply (check_mol_rejects_atomic_num_zero (TK := Lab.toolkit)
           _ _ Lab.attached_methanol); [reflexivity|].
  exists 0%Z. split; [left | reflexivity].
Defined.

Lemma check_mol_rejects_fragments_witness :
  check_mol 1%positive (Example.world_with Example.two_benzenes)
  = (inl (DockingError "Incorrect number of molecular fragments (2)"),
     Example.world_with Example.two_benzenes).
Proof.
  apply (check_mol_rejects_fragments (TK := Example.toolkit)
           _ _ Example.two_benzenes).
  - reflexivity.
  - apply Forall_forall. simpl. repeat constructor; lia.
  - simpl. lia.
Defined.
